(** * StrFormat: the format-string engine of SumatraPDF (namespace [fmt])

    A shallow embedding of [ParseFormat], [Fmt::Eval], [Format] and
    [FormatTemp], together with the properties of the engine that the
    specification states.

    Conventions of the embedding:
    - a C string is the list of its characters; the buffer that holds it
      is that list followed by the terminating NUL, and an access outside
      the buffer is undefined behaviour, reported as [Undefined];
    - [int] values are [Z]; pointers into the template are offsets ([nat]);
    - [CrashIf] crashes in asserting (debug and pre-release) builds and
      does nothing in release builds; the build is the parameter [dev];
    - the scanning loop of [ParseFormat] is run with fuel, because it does
      not terminate on every template. *)

From Stdlib Require Import ZArith Ascii String DecimalString DecimalPos Lia.
From stdpp Require Import base tactics option list gmap.

Local Open Scope Z_scope.

(** ** Outcomes of running a piece of the program *)

Inductive Fault :=
  | OutOfBoundsRead (i : Z)
  | OutOfBoundsWrite (i : Z).

Inductive Res (A : Type) :=
  | Ret (a : A)
  | Crash
  | Undefined (f : Fault)
  | OutOfFuel.

Arguments Ret {A} a.
Arguments Crash {A}.
Arguments Undefined {A} f.
Arguments OutOfFuel {A}.

Definition bind {A B} (m : Res A) (k : A -> Res B) : Res B :=
  match m with
  | Ret a => k a
  | Crash => Crash
  | Undefined f => Undefined f
  | OutOfFuel => OutOfFuel
  end.

Notation "'let!' x ':=' m 'in' k" := (bind m (fun x => k))
  (at level 10, x name, m at level 100, k at level 200).
Notation "'let!' ' p ':=' m 'in' k" :=
  (bind m (fun x => match x with p => k end))
  (at level 10, p pattern, m at level 100, k at level 200).

(** ** Data model *)

Definition text := list ascii.

Definition lit (s : string) : text := list_ascii_of_string s.

Definition NUL : ascii := Ascii.zero.

(** [enum class Type] of StrFormat.h, as [fmt::] uses it. *)
Inductive Type_ :=
  | Type_None
  | Type_Char
  | Type_Int
  | Type_Float
  | Type_Double
  | Type_Str
  | Type_WStr
  | Type_FormatStr
  | Type_Any.

Definition Type_eqb (a b : Type_) : bool :=
  match a, b with
  | Type_None, Type_None | Type_Char, Type_Char | Type_Int, Type_Int
  | Type_Float, Type_Float | Type_Double, Type_Double | Type_Str, Type_Str
  | Type_WStr, Type_WStr | Type_FormatStr, Type_FormatStr
  | Type_Any, Type_Any => true
  | _, _ => false
  end.

(** [struct Arg]: a type tag and a union.  A [float] and a [double] are
    kept as their bit patterns, a wide string as its code units. *)
Inductive Arg :=
  | Arg_None
  | Arg_Char (c : ascii)
  | Arg_Int (i : Z)
  | Arg_Float (f : Z)
  | Arg_Double (d : Z)
  | Arg_Str (s : text)
  | Arg_WStr (ws : list Z).

Definition Arg_t (a : Arg) : Type_ :=
  match a with
  | Arg_None => Type_None
  | Arg_Char _ => Type_Char
  | Arg_Int _ => Type_Int
  | Arg_Float _ => Type_Float
  | Arg_Double _ => Type_Double
  | Arg_Str _ => Type_Str
  | Arg_WStr _ => Type_WStr
  end.

(** [struct Inst]; [sv] is the offset and length of a slice of the
    template. *)
Record Inst := mkInst {
  t : Type_;
  argNo : Z;
  sv : nat * nat
}.

Definition set_t (v : Type_) (i : Inst) : Inst := mkInst v (argNo i) (sv i).
Definition set_argNo (v : Z) (i : Inst) : Inst := mkInst (t i) v (sv i).
Definition set_sv (v : nat * nat) (i : Inst) : Inst := mkInst (t i) (argNo i) v.

(** [struct Fmt], without the scratch buffer [buf]. *)
Record Fmt := mkFmt {
  isOk : bool;
  format : text;
  instructions : list Inst;
  nInst : Z;
  currArgNo : Z;
  currPercArgNo : Z;
  res : text
}.

Definition set_isOk (v : bool) (o : Fmt) : Fmt :=
  mkFmt v (format o) (instructions o) (nInst o) (currArgNo o) (currPercArgNo o) (res o).
Definition set_format (v : text) (o : Fmt) : Fmt :=
  mkFmt (isOk o) v (instructions o) (nInst o) (currArgNo o) (currPercArgNo o) (res o).
Definition set_instructions (v : list Inst) (o : Fmt) : Fmt :=
  mkFmt (isOk o) (format o) v (nInst o) (currArgNo o) (currPercArgNo o) (res o).
Definition set_nInst (v : Z) (o : Fmt) : Fmt :=
  mkFmt (isOk o) (format o) (instructions o) v (currArgNo o) (currPercArgNo o) (res o).
Definition set_currArgNo (v : Z) (o : Fmt) : Fmt :=
  mkFmt (isOk o) (format o) (instructions o) (nInst o) v (currPercArgNo o) (res o).
Definition set_currPercArgNo (v : Z) (o : Fmt) : Fmt :=
  mkFmt (isOk o) (format o) (instructions o) (nInst o) (currArgNo o) v (res o).
Definition set_res (v : text) (o : Fmt) : Fmt :=
  mkFmt (isOk o) (format o) (instructions o) (nInst o) (currArgNo o) (currPercArgNo o) v.

(** [dimof(fmt.instructions)] *)
Definition dimof_instructions : Z := 32.

(** The members of a [Fmt] before its constructor body runs.  The slots of
    [instructions] are not initialised by the source; no slot is read
    before it is written. *)
Definition Inst_uninit : Inst := mkInst Type_None 0 (0%nat, 0%nat).

Definition Fmt_init : Fmt :=
  mkFmt true [] (replicate (Z.to_nat dimof_instructions) Inst_uninit) 0 0 0 [].

(** ** Memory accesses *)

(** Reading the character at offset [p] of a C string [s]. *)
Definition deref (s : text) (p : nat) : Res ascii :=
  match (s ++ [NUL]) !! p with
  | Some c => Ret c
  | None => Undefined (OutOfBoundsRead (Z.of_nat p))
  end.

(** The characters of a C string up to its first NUL: what [str::Dup] and
    [Str::Append] of a C string copy. *)
Fixpoint c_str (s : text) : text :=
  match s with
  | [] => []
  | c :: s' => if Ascii.eqb c NUL then [] else c :: c_str s'
  end.

(** [instructions[i]] read. *)
Definition inst_at (o : Fmt) (i : Z) : Res Inst :=
  if (0 <=? i) && (i <? dimof_instructions) then
    match instructions o !! Z.to_nat i with
    | Some x => Ret x
    | None => Undefined (OutOfBoundsRead i)
    end
  else Undefined (OutOfBoundsRead i).

(** [instructions[i].field = v] *)
Definition update_inst (o : Fmt) (i : Z) (f : Inst -> Inst) : Res Fmt :=
  if (0 <=? i) && (i <? dimof_instructions) then
    Ret (set_instructions (alter f (Z.to_nat i) (instructions o)) o)
  else Undefined (OutOfBoundsWrite i).

(** [args[i]] for an array of [Arg] pointers. *)
Definition arg_at (args : list Arg) (i : Z) : Res Arg :=
  if 0 <=? i then
    match args !! Z.to_nat i with
    | Some a => Ret a
    | None => Undefined (OutOfBoundsRead i)
    end
  else Undefined (OutOfBoundsRead i).

(** ** Character and integer helpers *)

(** The value of a [char] in an expression ([char] is signed). *)
Definition char_to_int (c : ascii) : Z :=
  let n := Z.of_nat (nat_of_ascii c) in
  if n <? 128 then n else n - 256.

(** Conversion to a 32-bit [int]. *)
Definition to_int (z : Z) : Z := (z + 2 ^ 31) mod 2 ^ 32 - 2 ^ 31.

(** [str::IsDigit] *)
Definition IsDigit (c : ascii) : bool :=
  (char_to_int "0" <=? char_to_int c) && (char_to_int c <=? char_to_int "9").

(** Modelled from the spec: [str::BufFmt(buf, dimof(buf), "%d", n)] of
    StrUtil, which is not part of the sources: the signed decimal text of
    [n], no leading zeros, a minus sign for negatives. *)
Definition BufFmt_d (n : Z) : text :=
  lit (NilZero.string_of_int (Z.to_int n)).

(** ** The compiler: [ParseFormat] *)

Section Compiler.

(** [true] in a build where [CrashIf] is live. *)
Variable dev : bool.

Definition CrashIf (cond : bool) : Res unit :=
  if dev && cond then Crash else Ret tt.

Definition typeFromChar (c : ascii) : Res Type_ :=
  if Ascii.eqb c "c" then Ret Type_Char
  else if Ascii.eqb c "d" then Ret Type_Int
  else if Ascii.eqb c "f" then Ret Type_Float
  else if Ascii.eqb c "s" then Ret Type_Str
  else if Ascii.eqb c "v" then Ret Type_Any
  else let! _ := CrashIf true in Ret Type_None.

Definition addFormatStr (fmt : Fmt) (s len : nat) : Res Fmt :=
  if (len =? 0)%nat then Ret fmt
  else
    let! _ := CrashIf (nInst fmt >=? dimof_instructions) in
    let! fmt := update_inst fmt (nInst fmt) (set_t Type_FormatStr) in
    let! fmt := update_inst fmt (nInst fmt) (set_sv (s, len)) in
    let! fmt := update_inst fmt (nInst fmt) (set_argNo (-1)) in
    Ret (set_nInst (nInst fmt + 1) fmt).

(** The [while] loop of [parseArgDefPositional], which runs to the
    closing brace.  Every
    iteration moves [s] one byte on and reads it, so the walk is given
    one unit of fuel per byte of the buffer and one more. *)
Fixpoint parseArgDefPositional_loop (k : nat) (str : text) (s : nat) (n : Z)
  : Res (nat * Z) :=
  match k with
  | O => OutOfFuel
  | S k' =>
      let! c := deref str s in
      if Ascii.eqb c "}" then Ret (s, n)
      else
        let! _ := CrashIf (negb (IsDigit c)) in
        parseArgDefPositional_loop k' str (S s)
          (to_int (n * 10 + (char_to_int c - char_to_int "0")))
  end.

Definition parseArgDefPositional (fmt : Fmt) (s : nat) : Res (Fmt * nat) :=
  let! c := deref (format fmt) s in
  let! _ := CrashIf (negb (Ascii.eqb c "{")) in
  let! '(s, n) := parseArgDefPositional_loop (S (S (length (format fmt))))
               (format fmt) (S s) 0 in
  let! fmt := update_inst fmt (nInst fmt) (set_t Type_Any) in
  let! fmt := update_inst fmt (nInst fmt) (set_argNo n) in
  Ret (set_nInst (nInst fmt + 1) fmt, S s).

Definition parseArgDefPerc (fmt : Fmt) (s : nat) : Res (Fmt * nat) :=
  let! c := deref (format fmt) s in
  let! _ := CrashIf (negb (Ascii.eqb c "%")) in
  let! c1 := deref (format fmt) (S s) in
  let! ty := typeFromChar c1 in
  let! fmt := update_inst fmt (nInst fmt) (set_t ty) in
  let! fmt := update_inst fmt (nInst fmt) (set_argNo (currPercArgNo fmt)) in
  Ret (set_nInst (nInst fmt + 1)
         (set_currPercArgNo (currPercArgNo fmt + 1) fmt), S (S s)).

(** [for (int i = 0; i < nInst; i++)]: [k] iterations are left. *)
Fixpoint hasInstructionWithArgNo_loop (k : nat) (o : Fmt) (i argNo' : Z)
  : Res bool :=
  match k with
  | O => Ret false
  | S k' =>
      let! inst := inst_at o i in
      if argNo inst =? argNo' then Ret true
      else hasInstructionWithArgNo_loop k' o (i + 1) argNo'
  end.

Definition hasInstructionWithArgNo (o : Fmt) (nInst' argNo' : Z) : Res bool :=
  hasInstructionWithArgNo_loop (Z.to_nat nInst') o 0 argNo'.

Definition validArgTypes (instType argType : Type_) : bool :=
  if Type_eqb instType Type_Any || Type_eqb instType Type_FormatStr then true
  else if Type_eqb instType Type_Char then Type_eqb argType Type_Char
  else if Type_eqb instType Type_Int then Type_eqb argType Type_Int
  else if Type_eqb instType Type_Float then
    Type_eqb argType Type_Float || Type_eqb argType Type_Double
  else if Type_eqb instType Type_Str then
    Type_eqb argType Type_Str || Type_eqb argType Type_WStr
  else false.

(** The scanning loop [while ( *fmt )] of [ParseFormat]; [start] and
    [fmt] are offsets into the template. *)
Fixpoint ParseFormat_scan (fuel : nat) (o : Fmt) (start fmt : nat)
  : Res (Fmt * nat * nat) :=
  match fuel with
  | O => OutOfFuel
  | S fuel' =>
      let! c := deref (format o) fmt in
      if Ascii.eqb c NUL then Ret (o, start, fmt)
      else if Ascii.eqb "\" c then
        let! c1 := deref (format o) (S fmt) in
        if Ascii.eqb "{" c1 then
          let! o := addFormatStr o start (fmt - start) in
          ParseFormat_scan fuel' o (fmt + 1) (fmt + 2)
        else ParseFormat_scan fuel' o start fmt
      else if Ascii.eqb "{" c then
        let! o := addFormatStr o start (fmt - start) in
        let! '(o, fmt) := parseArgDefPositional o fmt in
        ParseFormat_scan fuel' o fmt fmt
      else if Ascii.eqb "%" c then
        let! c1 := deref (format o) (S fmt) in
        if Ascii.eqb "%" c1 then
          let! o := addFormatStr o start (fmt - start) in
          ParseFormat_scan fuel' o (fmt + 1) (fmt + 2)
        else
          let! o := addFormatStr o start (fmt - start) in
          let! '(o, fmt) := parseArgDefPerc o fmt in
          ParseFormat_scan fuel' o fmt fmt
      else ParseFormat_scan fuel' o start (fmt + 1)
  end.

(** The loop that computes [maxArgNo]. *)
Fixpoint maxArgNo_loop (k : nat) (o : Fmt) (i maxArgNo : Z) : Res Z :=
  match k with
  | O => Ret maxArgNo
  | S k' =>
      let! inst := inst_at o i in
      if Type_eqb (t inst) Type_FormatStr then
        maxArgNo_loop k' o (i + 1) maxArgNo
      else if argNo inst >? maxArgNo then
        maxArgNo_loop k' o (i + 1) (argNo inst)
      else maxArgNo_loop k' o (i + 1) maxArgNo
  end.

(** The loop [for (int i = 0; i <= maxArgNo; i++)]. *)
Fixpoint coverage_loop (k : nat) (o : Fmt) (i : Z) : Res bool :=
  match k with
  | O => Ret true
  | S k' =>
      let! ok := hasInstructionWithArgNo o (nInst o) i in
      let! _ := CrashIf (negb ok) in
      if negb ok then Ret false
      else coverage_loop k' o (i + 1)
  end.

Definition ParseFormat (fuel : nat) (o : Fmt) (fmt : text) : Res (bool * Fmt) :=
  let o := set_format fmt o in
  let o := set_nInst 0 o in
  let o := set_currPercArgNo 0 o in
  let o := set_currArgNo 0 o in
  let o := set_res [] o in
  let! '(o, start, fmt) := ParseFormat_scan fuel o 0%nat 0%nat in
  let! o := addFormatStr o start (fmt - start) in
  let! maxArgNo := maxArgNo_loop (Z.to_nat (nInst o)) o 0 (currArgNo o) in
  let! ok := coverage_loop (Z.to_nat (maxArgNo + 1)) o 0 in
  Ret (ok, o).

(** [Fmt::Fmt(const char* fmt)] *)
Definition Fmt_new (fuel : nat) (fmt : text) : Res Fmt :=
  let! '(ok, o) := ParseFormat fuel Fmt_init fmt in
  Ret (set_isOk ok o).

End Compiler.

(** The instructions of a program, in order: slots [0 .. nInst-1]. *)
Definition program (o : Fmt) : list Inst :=
  take (Z.to_nat (nInst o)) (instructions o).

Definition rep (n : nat) (s : text) : text := concat (replicate n s).

(** ** The evaluator: [Fmt::Eval] *)

Section Evaluator.

Variable dev : bool.

(** [str::BufFmt(buf, dimof(buf), "%G", x)] for a [float] and for a
    [double], and [ToUtf8Temp]: library routines outside the sources. *)
Variable BufFmt_G_float : Z -> text.
Variable BufFmt_G_double : Z -> text.
Variable ToUtf8Temp : list Z -> text.

(** The [switch (arg.t)] of [Eval]: the text appended for an argument. *)
Definition Eval_switch (arg : Arg) : text :=
  match arg with
  | Arg_Char c => [c]
  | Arg_Int i => BufFmt_d (to_int i)
  | Arg_Float f => BufFmt_G_float f
  | Arg_Double d => BufFmt_G_double d
  | Arg_Str s => c_str s
  | Arg_WStr ws => c_str (ToUtf8Temp ws)
  | Arg_None => []
  end.

(** [sv.data()], [sv.size()] as text. *)
Definition sv_text (o : Fmt) (sl : nat * nat) : text :=
  take (snd sl) (drop (fst sl) (format o)).

(** The loop of [Eval] from instruction [n] on; [k] iterations are
    left. *)
Fixpoint Eval_loop (k : nat) (o : Fmt) (args : list Arg) (nArgs n : Z)
  : Res (bool * Fmt) :=
  match k with
  | O => Ret (true, o)
  | S k' =>
      let! _ := CrashIf dev (n >=? dimof_instructions) in
      let! _ := CrashIf dev (n >=? nInst o) in
      let! inst := inst_at o n in
      let argNo' := argNo inst in
      let! _ := CrashIf dev (argNo' >=? nArgs) in
      if argNo' >=? nArgs then Ret (false, set_isOk false o)
      else if Type_eqb (t inst) Type_FormatStr then
        Eval_loop k' (set_res (res o ++ sv_text o (sv inst)) o) args nArgs (n + 1)
      else
        let! arg := arg_at args argNo' in
        let o := set_isOk (validArgTypes (t inst) (Arg_t arg)) o in
        let! _ := CrashIf dev (negb (isOk o)) in
        if negb (isOk o) then Ret (false, o)
        else Eval_loop k' (set_res (res o ++ Eval_switch arg) o) args nArgs (n + 1)
  end.

Definition Eval (o : Fmt) (args : list Arg) (nArgs : Z) : Res (bool * Fmt) :=
  if negb (isOk o) then Ret (false, o)
  else Eval_loop (Z.to_nat (nInst o)) o args nArgs 0.

(** [Str::StealData]: hands the text over and leaves the buffer empty. *)
Definition StealData (o : Fmt) : text * Fmt := (res o, set_res [] o).

(** The loop that drops trailing [Type::None] arguments,
    [while (nArgs >= 0 && args[nArgs - 1]->t == Type::None)]; [nArgs]
    goes down by one per iteration. *)
Fixpoint trimNone_loop (k : nat) (args : list Arg) (nArgs : Z) : Res Z :=
  match k with
  | O => OutOfFuel
  | S k' =>
      if nArgs >=? 0 then
        let! a := arg_at args (nArgs - 1) in
        if Type_eqb (Arg_t a) Type_None then trimNone_loop k' args (nArgs - 1)
        else Ret nArgs
      else Ret nArgs
  end.

Definition trimNone (args : list Arg) (nArgs : Z) : Res Z :=
  trimNone_loop (S (S (Z.to_nat nArgs))) args nArgs.

(** [Format] after the trimming loop. *)
Definition Format_trimmed (fuel : nat) (s : text) (args : list Arg) (nArgs : Z)
  : Res (option text) :=
  if nArgs =? 0 then Ret (Some (c_str s))
  else
    let! fmt := Fmt_new dev fuel s in
    let! '(ok, fmt) := Eval fmt args nArgs in
    if negb ok then Ret None
    else Ret (Some (fst (StealData fmt))).

(** [Format(s, a1, ..., a6)]; [None] is the null pointer. *)
Definition Format (fuel : nat) (s : text) (a1 a2 a3 a4 a5 a6 : Arg)
  : Res (option text) :=
  let args := [a1; a2; a3; a4; a5; a6] in
  let nArgs := 6 in
  let! _ := CrashIf dev (nArgs >? Z.of_nat (length args)) in
  let! nArgs := trimNone args nArgs in
  Format_trimmed fuel s args nArgs.

(** [FormatTemp(s, args, nArgs)] after the trimming loop; with no
    argument left it returns [s] itself. *)
Definition FormatTemp_trimmed (fuel : nat) (s : text) (args : list Arg) (nArgs : Z)
  : Res (option text) :=
  if nArgs =? 0 then Ret (Some (c_str s))
  else
    let! fmt := Fmt_new dev fuel s in
    let! '(ok, fmt) := Eval fmt args nArgs in
    if negb ok then Ret None
    else Ret (Some (res fmt)).

Definition FormatTemp (fuel : nat) (s : text) (args : list Arg) (nArgs : Z)
  : Res (option text) :=
  let! nArgs := trimNone args nArgs in
  FormatTemp_trimmed fuel s args nArgs.

(** [FormatTemp(s, a1, ..., a6)] *)
Definition FormatTemp6 (fuel : nat) (s : text) (a1 a2 a3 a4 a5 a6 : Arg)
  : Res (option text) :=
  let args := [a1; a2; a3; a4; a5; a6] in
  let nArgs := 6 in
  let! _ := CrashIf dev (nArgs >? Z.of_nat (length args)) in
  FormatTemp fuel s args nArgs.

(** [FormatTemp(s, a1)], [FormatTemp(s, a1, a2)] and
    [FormatTemp(s, a1, a2, a3)]: the array has three slots, of which the
    first [nArgs] point to arguments and the others are null. *)
Definition FormatTemp1 (fuel : nat) (s : text) (a1 : Arg) : Res (option text) :=
  FormatTemp fuel s [a1] 1.

Definition FormatTemp2 (fuel : nat) (s : text) (a1 a2 : Arg) : Res (option text) :=
  FormatTemp fuel s [a1; a2] 2.

Definition FormatTemp3 (fuel : nat) (s : text) (a1 a2 a3 : Arg)
  : Res (option text) :=
  FormatTemp fuel s [a1; a2; a3] 3.

End Evaluator.

(** Stand-ins for the floating-point and wide-string routines, for
    examples that do not use them. *)
Definition no_G : Z -> text := fun _ => [].
Definition no_utf8 : list Z -> text := fun _ => [].

Definition Format' (dev : bool) := Format dev no_G no_G no_utf8.

(** ** Predicates and programs used in the statements *)

(** A character that the scan of [ParseFormat] steps over. *)
Definition plain (c : ascii) : bool :=
  negb (Ascii.eqb c NUL) && negb (Ascii.eqb "\" c) &&
  negb (Ascii.eqb "{" c) && negb (Ascii.eqb "%" c).

Definition is_None (a : Arg) : Prop := Arg_t a = Type_None.

(** The pairings of instruction type and argument type that the
    specification lists. *)
Definition pairing_accepted (instType argType : Type_) : Prop :=
  instType = Type_Any \/
  (instType = Type_Char /\ argType = Type_Char) \/
  (instType = Type_Int /\ argType = Type_Int) \/
  (instType = Type_Float /\ (argType = Type_Float \/ argType = Type_Double)) \/
  (instType = Type_Str /\ (argType = Type_Str \/ argType = Type_WStr)).

(** Two [Fmt] objects with the same compiled program; [isOk], [res] and
    the counters may differ. *)
Definition same_program (o o' : Fmt) : Prop :=
  format o = format o' /\ instructions o = instructions o' /\ nInst o = nInst o'.

Definition prog_arg0 : Fmt :=
  mkFmt true (lit "{0}")
    (mkInst Type_Any 0 (0, 0)%nat :: replicate 31 Inst_uninit) 1 0 0 [].

(** [o'] is [o] with one more instruction, and that one satisfies [new]. *)
Definition emitted (new : Inst -> Prop) (o o' : Fmt) : Prop :=
  0 <= nInst o < dimof_instructions /\
  nInst o' = nInst o + 1 /\
  format o' = format o /\
  currArgNo o' = currArgNo o /\
  (forall i : nat, (i < Z.to_nat (nInst o))%nat ->
                   instructions o' !! i = instructions o !! i) /\
  (forall inst, instructions o' !! Z.to_nat (nInst o) = Some inst -> new inst).

(** The shape of a literal instruction. *)
Definition literal_ok (inst : Inst) : Prop :=
  t inst = Type_FormatStr -> argNo inst = -1 /\ snd (sv inst) <> 0%nat.

(** The invariant of the object while [ParseFormat] runs. *)
Definition compiled_inv (o : Fmt) : Prop :=
  0 <= nInst o <= dimof_instructions /\
  currArgNo o = 0 /\
  forall (i : nat) (inst : Inst),
    (i < Z.to_nat (nInst o))%nat -> instructions o !! i = Some inst ->
    literal_ok inst.

(** The instructions of a program that are not literals reach index [i]. *)
Definition reaches (o : Fmt) (i : Z) : Prop :=
  exists inst, inst ∈ program o /\ t inst <> Type_FormatStr /\ i <= argNo inst.

(** Some instruction of the program has argument index [i]. *)
Definition references (o : Fmt) (i : Z) : Prop :=
  exists inst, inst ∈ program o /\ argNo inst = i.

(** [maxArgNo] as the specification words it: the greatest argument
    index of the instructions that are not literals, when there is one. *)
Definition spec_maxArgNo (prog : list Inst) : option Z :=
  foldr (fun inst acc =>
           if Type_eqb (t inst) Type_FormatStr then acc
           else match acc with
                | Some m => Some (Z.max (argNo inst) m)
                | None => Some (argNo inst)
                end) None prog.

(** The coverage condition as the specification words it: every [i] in
    [0 .. maxArgNo] is the index of some instruction. *)
Definition spec_covered (prog : list Inst) : bool :=
  match spec_maxArgNo prog with
  | None => true
  | Some m =>
      forallb (fun i => existsb (fun inst => argNo inst =? Z.of_nat i) prog)
        (seq 0 (Z.to_nat (m + 1)))
  end.

Definition prog_perc_d : Fmt :=
  mkFmt true (lit "%d")
    (mkInst Type_Int 0 (0, 0)%nat :: replicate 31 Inst_uninit) 1 0 1 [].

Definition prog_0_2 : Fmt :=
  mkFmt false (lit "{0}{2}")
    (mkInst Type_Any 0 (0, 0)%nat :: mkInst Type_Any 2 (0, 0)%nat
       :: replicate 30 Inst_uninit) 2 0 0 [].

(** ** Well-formed templates *)

(** The letters of the percent directives, as [typeFromChar] has them. *)
Inductive PercKind := K_c | K_d | K_f | K_s | K_v.

Definition letter (k : PercKind) : ascii :=
  match k with
  | K_c => "c" | K_d => "d" | K_f => "f" | K_s => "s" | K_v => "v"
  end.

Definition kind_type (k : PercKind) : Type_ :=
  match k with
  | K_c => Type_Char | K_d => Type_Int | K_f => Type_Float
  | K_s => Type_Str | K_v => Type_Any
  end.

(** The pieces a template is written with: a run of plain characters, the
    escapes [\{] and [%%], a positional directive [{digits}] and a percent
    directive. *)
Inductive Piece :=
  | P_text (s : text)
  | P_esc_brace
  | P_esc_perc
  | P_pos (ds : text)
  | P_perc (k : PercKind).

Definition render_piece (p : Piece) : text :=
  match p with
  | P_text s => s
  | P_esc_brace => ["\"; "{"]%char
  | P_esc_perc => ["%"; "%"]%char
  | P_pos ds => "{"%char :: ds ++ ["}"%char]
  | P_perc k => ["%"%char; letter k]
  end.

(** The template text of a list of pieces. *)
Definition render (ps : list Piece) : text := concat (map render_piece ps).

(** The number that a run of digits denotes. *)
Definition digit_step (n : Z) (c : ascii) : Z :=
  n * 10 + (char_to_int c - char_to_int "0").

Definition digits_value (ds : text) : Z := fold_left digit_step ds 0.

(** Plain text is plain, and a positional index is made of digits and
    fits an [int]. *)
Definition piece_ok (p : Piece) : bool :=
  match p with
  | P_text s => forallb plain s
  | P_pos ds => forallb IsDigit ds && (digits_value ds <? 2 ^ 31)
  | _ => true
  end.

(** An instruction without its representation: a literal with its text,
    or a reference to an argument. *)
Inductive AInst :=
  | A_lit (s : text)
  | A_arg (ty : Type_) (n : Z).

(** What slot [i] of a program over the template [T] stands for. *)
Definition decode (T : text) (i : Inst) : AInst :=
  if Type_eqb (t i) Type_FormatStr then
    A_lit (take (snd (sv i)) (drop (fst (sv i)) T))
  else A_arg (t i) (argNo i).

(** The literal that a pending run [P] becomes when it is flushed. *)
Definition flush (P : text) : list AInst :=
  match P with
  | [] => []
  | _ :: _ => [A_lit P]
  end.

(** The program of a list of pieces, after a pending literal run [P] and
    [k] percent directives. *)
Fixpoint pieces_program (P : text) (k : Z) (ps : list Piece) : list AInst :=
  match ps with
  | [] => flush P
  | P_text s :: ps => pieces_program (P ++ s) k ps
  | P_esc_brace :: ps => flush P ++ pieces_program ["{"%char] k ps
  | P_esc_perc :: ps => flush P ++ pieces_program ["%"%char] k ps
  | P_pos ds :: ps =>
      flush P ++ A_arg Type_Any (digits_value ds) :: pieces_program [] k ps
  | P_perc c :: ps =>
      flush P ++ A_arg (kind_type c) k :: pieces_program [] (k + 1) ps
  end.

(** The argument indices of the directives, in order. *)
Fixpoint directive_indices (k : Z) (ps : list Piece) : list Z :=
  match ps with
  | [] => []
  | P_pos ds :: ps => digits_value ds :: directive_indices k ps
  | P_perc _ :: ps => k :: directive_indices (k + 1) ps
  | _ :: ps => directive_indices k ps
  end.

(** Every index from 0 to the greatest of [ixs] (and 0 itself) is in
    [ixs]. *)
Definition indices_covered (ixs : list Z) : bool :=
  forallb (fun i => existsb (Z.eqb (Z.of_nat i)) ixs)
    (seq 0 (Z.to_nat (fold_right Z.max 0 ixs + 1))).

Section Expected.

Variable BufFmt_G_float : Z -> text.
Variable BufFmt_G_double : Z -> text.
Variable ToUtf8Temp : list Z -> text.





End Expected.

(** The members that an emitter leaves alone or counts up. *)
Definition keeps (o o' : Fmt) (dk : Z) : Prop :=
  length (instructions o') = length (instructions o) /\
  currPercArgNo o' = currPercArgNo o + dk /\
  res o' = res o /\ isOk o' = isOk o.

(** [o'] is [o] after the instructions [al] were emitted and [dk] percent
    directives counted. *)
Definition extends (o o' : Fmt) (al : list AInst) (dk : Z) : Prop :=
  format o' = format o /\
  length (instructions o') = length (instructions o) /\
  nInst o' = nInst o + Z.of_nat (length al) /\
  currArgNo o' = currArgNo o /\
  currPercArgNo o' = currPercArgNo o + dk /\
  map (decode (format o)) (program o')
  = map (decode (format o)) (program o) ++ al /\
  res o' = res o /\ isOk o' = isOk o.

(** The object has room for its program. *)
Definition array_ok (o : Fmt) : Prop :=
  0 <= nInst o /\ length (instructions o) = Z.to_nat dimof_instructions.

(** The scan of [ParseFormat] together with the flush that follows it. *)
Definition ParseFormat_scan_flush (dev : bool) (fuel : nat) (o : Fmt)
    (start fmt : nat) : Res Fmt :=
  let! '(o1, start1, fmt1) := ParseFormat_scan dev fuel o start fmt in
  addFormatStr dev o1 start1 (fmt1 - start1).

(** The argument index of an instruction that is not a literal. *)
Definition ainst_index (a : AInst) : option Z :=
  match a with
  | A_lit _ => None
  | A_arg _ n => Some n
  end.

(** The pieces of the template [Page {0} of {1}]. *)
Definition pieces_page : list Piece :=
  [P_text (lit "Page "); P_pos (lit "0"); P_text (lit " of "); P_pos (lit "1")].

(** No piece is a positional directive. *)
Definition no_positional (ps : list Piece) : bool :=
  forallb (fun p => match p with P_pos _ => false | _ => true end) ps.

(** The number of percent directives. *)
Fixpoint count_perc (ps : list Piece) : nat :=
  match ps with
  | [] => 0
  | P_perc _ :: ps => S (count_perc ps)
  | _ :: ps => count_perc ps
  end.

(** What a successful [Eval] has checked for an instruction. *)
Definition inst_checked (args : list Arg) (nArgs : Z) (inst : Inst) : Prop :=
  argNo inst < nArgs /\
  (t inst <> Type_FormatStr ->
   0 <= argNo inst /\
   exists arg, args !! Z.to_nat (argNo inst) = Some arg /\
               validArgTypes (t inst) (Arg_t arg) = true).

(** Every backslash of the template is followed by an open brace. *)
Fixpoint backslashes_escaped (s : text) : bool :=
  match s with
  | [] => true
  | c :: rest =>
      (if Ascii.eqb "\" c then
         match rest with
         | c1 :: _ => Ascii.eqb "{" c1
         | [] => false
         end
       else true) && backslashes_escaped rest
  end.

(** The literal slices of the program lie inside the template. *)
Definition slices_ok (o : Fmt) : Prop :=
  forall (i : nat) (inst : Inst),
    (i < Z.to_nat (nInst o))%nat -> instructions o !! i = Some inst ->
    t inst = Type_FormatStr ->
    (fst (sv inst) + snd (sv inst) <= length (format o))%nat.

(** The object that a release build leaves for the template [hello]. *)
Definition prog_hello : Fmt :=
  mkFmt false (lit "hello")
    (mkInst Type_FormatStr (-1) (0, 5)%nat :: replicate 31 Inst_uninit) 1 0 0 [].

(** The number a decimal numeral denotes after the digits read so far
    gave [n]. *)
Fixpoint uint_horner (d : Decimal.uint) (n : Z) : Z :=
  match d with
  | Decimal.Nil => n
  | Decimal.D0 l => uint_horner l (n * 10 + 0)
  | Decimal.D1 l => uint_horner l (n * 10 + 1)
  | Decimal.D2 l => uint_horner l (n * 10 + 2)
  | Decimal.D3 l => uint_horner l (n * 10 + 3)
  | Decimal.D4 l => uint_horner l (n * 10 + 4)
  | Decimal.D5 l => uint_horner l (n * 10 + 5)
  | Decimal.D6 l => uint_horner l (n * 10 + 6)
  | Decimal.D7 l => uint_horner l (n * 10 + 7)
  | Decimal.D8 l => uint_horner l (n * 10 + 8)
  | Decimal.D9 l => uint_horner l (n * 10 + 9)
  end.

(** ** The table of contents: [TocItem] of EngineBase

    A [TocItem] lives in a heap of objects; a pointer is the address of an
    object or null.  Only the members that the functions below use are
    kept.  An access through a null pointer or to an address without an
    object is undefined behaviour. *)

Record TocItem := mkTocItem {
  next : option Z;
  child : option Z;
  parent : option Z;
  isOpenDefault : bool;
  isOpenToggled : bool;
  currChild : option Z;
  currChildNo : Z
}.

Definition set_next (v : option Z) (ti : TocItem) : TocItem :=
  mkTocItem v (child ti) (parent ti) (isOpenDefault ti) (isOpenToggled ti)
    (currChild ti) (currChildNo ti).
Definition set_child (v : option Z) (ti : TocItem) : TocItem :=
  mkTocItem (next ti) v (parent ti) (isOpenDefault ti) (isOpenToggled ti)
    (currChild ti) (currChildNo ti).
Definition set_parent (v : option Z) (ti : TocItem) : TocItem :=
  mkTocItem (next ti) (child ti) v (isOpenDefault ti) (isOpenToggled ti)
    (currChild ti) (currChildNo ti).
Definition set_isOpenToggled (v : bool) (ti : TocItem) : TocItem :=
  mkTocItem (next ti) (child ti) (parent ti) (isOpenDefault ti) v
    (currChild ti) (currChildNo ti).
Definition set_currChild (v : option Z) (ti : TocItem) : TocItem :=
  mkTocItem (next ti) (child ti) (parent ti) (isOpenDefault ti) (isOpenToggled ti)
    v (currChildNo ti).
Definition set_currChildNo (v : Z) (ti : TocItem) : TocItem :=
  mkTocItem (next ti) (child ti) (parent ti) (isOpenDefault ti) (isOpenToggled ti)
    (currChild ti) v.

(** Reading the object that [p] points to. *)
Definition load (h : gmap Z TocItem) (p : option Z) : Res TocItem :=
  match p with
  | None => Undefined (OutOfBoundsRead 0)
  | Some a =>
      match h !! a with
      | Some ti => Ret ti
      | None => Undefined (OutOfBoundsRead a)
      end
  end.

(** [p->member = v], as the update [f] of the object. *)
Definition store (h : gmap Z TocItem) (p : option Z) (f : TocItem -> TocItem)
  : Res (gmap Z TocItem) :=
  match p with
  | None => Undefined (OutOfBoundsWrite 0)
  | Some a =>
      match h !! a with
      | Some ti => Ret (<[a := f ti]> h)
      | None => Undefined (OutOfBoundsWrite a)
      end
  end.

(** [TocItem::AddSibling] *)
Definition AddSibling (h : gmap Z TocItem) (this : Z) (sibling : option Z)
  : Res (gmap Z TocItem) :=
  let! ti := load h (Some this) in
  let currNext := next ti in
  let! h := store h (Some this) (set_next sibling) in
  let! h := store h sibling (set_next currNext) in
  let! ti := load h (Some this) in
  store h sibling (set_parent (parent ti)).

(** The loop [while (item->next) item = item->next] of
    [AddSiblingAtEnd]. *)
Fixpoint AddSiblingAtEnd_loop (fuel : nat) (h : gmap Z TocItem) (item : Z)
  : Res Z :=
  match fuel with
  | O => OutOfFuel
  | S fuel' =>
      let! ti := load h (Some item) in
      match next ti with
      | Some nx => AddSiblingAtEnd_loop fuel' h nx
      | None => Ret item
      end
  end.

(** [TocItem::AddSiblingAtEnd] *)
Definition AddSiblingAtEnd (fuel : nat) (h : gmap Z TocItem) (this : Z)
    (sibling : option Z) : Res (gmap Z TocItem) :=
  let! item := AddSiblingAtEnd_loop fuel h this in
  let! h := store h (Some item) (set_next sibling) in
  let! ti := load h (Some item) in
  store h sibling (set_parent (parent ti)).

(** [TocItem::AddChild] *)
Definition AddChild (h : gmap Z TocItem) (this : Z) (newChild : option Z)
  : Res (gmap Z TocItem) :=
  let! ti := load h (Some this) in
  let currChild' := child ti in
  let! h := store h (Some this) (set_child newChild) in
  let! h := store h newChild (set_parent (Some this)) in
  store h newChild (set_next currChild').

(** The loop of [TocItem::ChildCount]. *)
Fixpoint ChildCount_loop (fuel : nat) (h : gmap Z TocItem) (node : option Z)
    (n : Z) : Res Z :=
  match fuel with
  | O => OutOfFuel
  | S fuel' =>
      match node with
      | None => Ret n
      | Some _ =>
          let! ti := load h node in
          ChildCount_loop fuel' h (next ti) (to_int (n + 1))
      end
  end.

(** [TocItem::ChildCount] *)
Definition ChildCount (fuel : nat) (h : gmap Z TocItem) (this : Z) : Res Z :=
  let! ti := load h (Some this) in
  ChildCount_loop fuel h (child ti) 0.

(** The loop [while (n > 0)] of [TocItem::ChildAt]; [n] goes down by one
    per iteration. *)
Fixpoint ChildAt_loop (k : nat) (h : gmap Z TocItem) (node : option Z) (n : Z)
  : Res (option Z) :=
  match k with
  | O => OutOfFuel
  | S k' =>
      if n >? 0 then
        let! ti := load h node in
        ChildAt_loop k' h (next ti) (n - 1)
      else Ret node
  end.

(** [TocItem::ChildAt] *)
Definition ChildAt (h : gmap Z TocItem) (this : Z) (n : Z)
  : Res (gmap Z TocItem * option Z) :=
  let! ti := load h (Some this) in
  if n =? 0 then
    let! h := store h (Some this) (set_currChild (child ti)) in
    let! h := store h (Some this) (set_currChildNo 0) in
    let! ti := load h (Some this) in
    Ret (h, child ti)
  else if bool_decide (currChild ti <> None) && (n =? to_int (currChildNo ti + 1)) then
    let! c := load h (currChild ti) in
    let! h := store h (Some this) (set_currChild (next c)) in
    let! ti := load h (Some this) in
    let! h := store h (Some this) (set_currChildNo (to_int (currChildNo ti + 1))) in
    let! ti := load h (Some this) in
    Ret (h, currChild ti)
  else
    let! node := ChildAt_loop (S (Z.to_nat n)) h (child ti) n in
    Ret (h, node).

(** [TocItem::IsExpanded] *)
Definition IsExpanded (h : gmap Z TocItem) (this : option Z) : Res bool :=
  let! ti := load h this in
  match child ti with
  | None => Ret false
  | Some _ => Ret (negb (Bool.eqb (isOpenDefault ti) (isOpenToggled ti)))
  end.

(** [TocItem::OpenSingleNode] *)
Definition OpenSingleNode (h : gmap Z TocItem) (this : Z)
  : Res (gmap Z TocItem) :=
  let! ti := load h (Some this) in
  let! more :=
    match next ti with
    | None => Ret false
    | Some _ =>
        let! nx := load h (next ti) in
        Ret (bool_decide (next nx <> None))
    end in
  if more then Ret h
  else
    let! e := IsExpanded h (Some this) in
    let! h :=
      if negb e then
        let! ti := load h (Some this) in
        store h (Some this) (set_isOpenToggled (negb (isOpenToggled ti)))
      else Ret h in
    let! ti := load h (Some this) in
    match next ti with
    | None => Ret h
    | Some _ =>
        let! e := IsExpanded h (next ti) in
        if negb e then
          let! nx := load h (next ti) in
          store h (next ti) (set_isOpenToggled (negb (isOpenToggled nx)))
        else Ret h
    end.

(** The chain of [next] pointers from [p] visits the objects [l] and ends
    with null. *)
Fixpoint chain (h : gmap Z TocItem) (p : option Z) (l : list Z) : Prop :=
  match l with
  | [] => p = None
  | a :: l' => p = Some a /\ exists ti, h !! a = Some ti /\ chain h (next ti) l'
  end.

(** A small table of contents: item 1 has the children 2 and 3. *)
Definition toc_item (nx ch pa : option Z) : TocItem :=
  mkTocItem nx ch pa false false None 0.

Definition toc_heap : gmap Z TocItem :=
  <[1 := toc_item None (Some 2) None]>
    (<[2 := toc_item (Some 3) None (Some 1)]>
       (<[3 := toc_item None None (Some 1)]>
          (<[4 := toc_item None None None]> ∅))).

(** The cursor of [ChildAt], when set, is the child number [currChildNo]
    of the chain [l] of children. *)
Definition cache_ok (l : list Z) (ti : TocItem) : Prop :=
  match currChild ti with
  | None => True
  | Some c => 0 <= currChildNo ti /\ l !! Z.to_nat (currChildNo ti) = Some c
  end.

(** The same table of contents after [ChildAt 0] on item 1. *)
Definition toc_heap_cursor : gmap Z TocItem :=
  <[1 := mkTocItem None (Some 2) None false false (Some 2) 0]> toc_heap.

(** What [OpenSingleNode] makes of one item: [isOpenToggled] is flipped
    unless the item is expanded. *)
Definition opened (ti : TocItem) : TocItem :=
  set_isOpenToggled
    (match child ti with
     | Some _ => negb (isOpenDefault ti)
     | None => negb (isOpenToggled ti)
     end) ti.

(** [VisitTocTree].  The callback [f] works on its own state and on the
    heap; one unit of fuel is one turn of the loop, the recursive call for
    the children enters the same loop. *)
Fixpoint VisitTocTree {St : Type}
    (f : St -> gmap Z TocItem -> Z -> Res (St * gmap Z TocItem * bool))
    (fuel : nat) (st : St) (h : gmap Z TocItem) (ti : option Z)
  : Res (St * gmap Z TocItem * bool) :=
  match fuel with
  | O => OutOfFuel
  | S fuel' =>
      match ti with
      | None => Ret (st, h, true)
      | Some a =>
          let! '(st, h, cont) := f st h a in
          let! t := load h ti in
          let! '(st, h, cont) :=
            if cont && bool_decide (child t <> None)
            then VisitTocTree f fuel' st h (child t)
            else Ret (st, h, cont) in
          if negb cont then Ret (st, h, false)
          else
            let! t := load h ti in
            VisitTocTree f fuel' st h (next t)
      end
  end.

(** [VisitTocTreeWithParentRecursive] *)
Fixpoint VisitTocTreeWithParentRecursive
    (f : gmap Z TocItem -> Z -> option Z -> Res (gmap Z TocItem * bool))
    (fuel : nat) (h : gmap Z TocItem) (ti parent : option Z)
  : Res (gmap Z TocItem * bool) :=
  match fuel with
  | O => OutOfFuel
  | S fuel' =>
      match ti with
      | None => Ret (h, true)
      | Some a =>
          let! '(h, cont) := f h a parent in
          let! t := load h ti in
          let! '(h, cont) :=
            if cont && bool_decide (child t <> None)
            then VisitTocTreeWithParentRecursive f fuel' h (child t) ti
            else Ret (h, cont) in
          if negb cont then Ret (h, false)
          else
            let! t := load h ti in
            VisitTocTreeWithParentRecursive f fuel' h (next t) parent
      end
  end.

(** [VisitTocTreeWithParent] *)
Definition VisitTocTreeWithParent
    (f : gmap Z TocItem -> Z -> option Z -> Res (gmap Z TocItem * bool))
    (fuel : nat) (h : gmap Z TocItem) (ti : option Z)
  : Res (gmap Z TocItem * bool) :=
  VisitTocTreeWithParentRecursive f fuel h ti None.

(** [setTocItemParent] *)
Definition setTocItemParent (h : gmap Z TocItem) (ti : Z) (parent : option Z)
  : Res (gmap Z TocItem * bool) :=
  let! h := store h (Some ti) (set_parent parent) in
  Ret (h, true).

(** [SetTocTreeParents] *)
Definition SetTocTreeParents (fuel : nat) (h : gmap Z TocItem)
    (treeRoot : option Z) : Res (gmap Z TocItem) :=
  let! '(h, _) := VisitTocTreeWithParent setTocItemParent fuel h treeRoot in
  Ret h.

(** The shape of a table of contents in the heap: an item with the shape
    under its [child] and the shape behind its [next]. *)
Inductive Shape :=
| Leaf
| Item (a : Z) (c n : Shape).

Fixpoint shape (h : gmap Z TocItem) (p : option Z) (s : Shape) : Prop :=
  match s with
  | Leaf => p = None
  | Item a c n =>
      p = Some a /\
      exists ti, h !! a = Some ti /\ shape h (child ti) c /\ shape h (next ti) n
  end.

(** The items of a shape, an item before its children, its children before
    its followers. *)
Fixpoint preorder (s : Shape) : list Z :=
  match s with
  | Leaf => []
  | Item a c n => a :: preorder c ++ preorder n
  end.

(** Every item of a shape with the item it hangs under. *)
Fixpoint parents (par : option Z) (s : Shape) : list (Z * option Z) :=
  match s with
  | Leaf => []
  | Item a c n => (a, par) :: parents (Some a) c ++ parents par n
  end.

(** A callback that notes the item it is called on and answers [p]. *)
Definition visit_log (p : Z -> bool) (st : list Z) (h : gmap Z TocItem)
    (a : Z) : Res (list Z * gmap Z TocItem * bool) :=
  Ret (st ++ [a], h, p a).

(** The items of [l] up to and with the first one that [p] refuses. *)
Fixpoint visited (p : Z -> bool) (l : list Z) : list Z :=
  match l with
  | [] => []
  | a :: l' => a :: if p a then visited p l' else []
  end.

(** A table of contents whose parents are not set: 1 and 5 at the top,
    2 and 3 under 1, 4 under 2. *)
Definition toc_shape : Shape :=
  Item 1 (Item 2 (Item 4 Leaf Leaf) (Item 3 Leaf Leaf)) (Item 5 Leaf Leaf).

Definition toc_tree : gmap Z TocItem :=
  <[1 := toc_item (Some 5) (Some 2) None]>
    (<[2 := toc_item (Some 3) (Some 4) None]>
       (<[3 := toc_item None None None]>
          (<[4 := toc_item None None None]>
             (<[5 := toc_item None None None]> ∅)))).

(** * Properties *)

(** ** Examples of the specification *)

Example ex_compile_page :
  (let! o := Fmt_new false 40 (lit "Page {0} of {1}") in Ret (isOk o, program o))
  = Ret (true, [mkInst Type_FormatStr (-1) (0, 5)%nat; mkInst Type_Any 0 (0, 0)%nat;
                mkInst Type_FormatStr (-1) (8, 4)%nat; mkInst Type_Any 1 (0, 0)%nat]).
Proof. vm_compute. reflexivity. Qed.

Example ex_page :
  Format' false 40 (lit "Page {0} of {1}") (Arg_Int 3) (Arg_Int 10) Arg_None Arg_None Arg_None Arg_None
  = Ret (Some (lit "Page 3 of 10")).
Proof. vm_compute. reflexivity. Qed.

Example ex_disk :
  Format' true 40 (lit "%s: %d%%") (Arg_Str (lit "disk")) (Arg_Int 87) Arg_None Arg_None Arg_None Arg_None
  = Ret (Some (lit "disk: 87%")).
Proof. vm_compute. reflexivity. Qed.

(** ** Generic facts about outcomes *)

Lemma bind_Ret_inv {A B} (m : Res A) (k : A -> Res B) (b : B) :
  bind m k = Ret b -> exists a, m = Ret a /\ k a = Ret b.
Proof. destruct m; simpl; intros H; try discriminate. eauto. Qed.

Lemma CrashIf_false dev : CrashIf dev false = Ret tt.
Proof. unfold CrashIf. by rewrite andb_false_r. Qed.

(** Splits a hypothesis [bind m k = Ret b] into its two runs. *)
Ltac inv_bind H :=
  let a := fresh "a" in
  let Ha := fresh "Hrun" in
  apply bind_Ret_inv in H; destruct H as (a & Ha & H).

(** ** Reading the template *)

Lemma deref_app (a b : text) (c : ascii) :
  deref (a ++ c :: b) (length a) = Ret c.
Proof.
  unfold deref. rewrite <- app_assoc, lookup_app_r by lia.
  by rewrite Nat.sub_diag.
Qed.

Lemma deref_end (s : text) : deref s (length s) = Ret NUL.
Proof.
  unfold deref. rewrite lookup_app_r by lia. by rewrite Nat.sub_diag.
Qed.

Lemma deref_past (s : text) (p : nat) :
  (length s < p)%nat -> deref s p = Undefined (OutOfBoundsRead (Z.of_nat p)).
Proof.
  intros Hp. unfold deref. rewrite lookup_ge_None_2; [done|].
  rewrite length_app. simpl. lia.
Qed.

Lemma c_str_plain (s : text) : Forall (fun c => plain c = true) s -> c_str s = s.
Proof.
  induction 1 as [|c s Hc _ IH]; simpl; [done|].
  unfold plain in Hc. destruct (Ascii.eqb c NUL); [done|]. by rewrite IH.
Qed.

(** ** The scan *)

(** Over a run of plain characters the scan only moves [fmt]. *)
Lemma ParseFormat_scan_plain dev (pre : text) :
  forall (a b : text) (o : Fmt) (start k : nat),
    Forall (fun c => plain c = true) pre ->
    format o = a ++ pre ++ b ->
    ParseFormat_scan dev (length pre + k) o start (length a)
    = ParseFormat_scan dev k o start (length a + length pre).
Proof.
  induction pre as [|c pre IH]; intros a b o start k Hpl Hfmt.
  - simpl. by rewrite Nat.add_0_r.
  - apply Forall_cons in Hpl as [Hc Hpl].
    cbn [length Nat.add ParseFormat_scan]. simpl app in Hfmt.
    rewrite Hfmt, deref_app. cbn [bind].
    unfold plain in Hc.
    destruct (Ascii.eqb c NUL); [done|].
    destruct (Ascii.eqb "\" c); [done|].
    destruct (Ascii.eqb "{" c); [done|].
    destruct (Ascii.eqb "%" c); [done|].
    specialize (IH (a ++ [c]) b o start k Hpl).
    rewrite length_app in IH. simpl in IH.
    replace (length a + S (length pre))%nat
      with (length a + 1 + length pre)%nat by lia.
    apply IH. rewrite Hfmt, <- app_assoc. done.
Qed.

(** At a backslash that no open brace follows, an iteration of the scan
    leaves [fmt] and [start] as they are. *)
Lemma ParseFormat_scan_stuck dev (o : Fmt) (start fmt : nat) (c1 : ascii) :
  deref (format o) fmt = Ret "\"%char ->
  deref (format o) (S fmt) = Ret c1 ->
  Ascii.eqb "{" c1 = false ->
  forall fuel, ParseFormat_scan dev fuel o start fmt = OutOfFuel.
Proof.
  intros H0 H1 Hc1. induction fuel as [|fuel IH]; [done|].
  cbn [ParseFormat_scan]. rewrite H0. cbn [bind].
  change (Ascii.eqb "\" NUL) with false. change (Ascii.eqb "\" "\") with true.
  cbv iota. rewrite H1. cbn [bind]. rewrite Hc1. exact IH.
Qed.

(** After a run of plain characters the scan never gets past a backslash
    that no open brace follows. *)
Lemma ParseFormat_scan_backslash dev (pre rest : text) (o : Fmt) :
  Forall (fun c => plain c = true) pre ->
  format o = pre ++ "\"%char :: rest ->
  Ascii.eqb "{" (hd NUL rest) = false ->
  forall fuel, ParseFormat_scan dev fuel o 0%nat 0%nat = OutOfFuel.
Proof.
  intros Hpl Hfmt Hrest fuel.
  assert (Hstuck : forall k, ParseFormat_scan dev k o 0%nat (length pre) = OutOfFuel).
  { apply ParseFormat_scan_stuck with (c1 := hd NUL rest); [| |done].
    - rewrite Hfmt. apply deref_app.
    - rewrite Hfmt. destruct rest as [|c rest].
      + replace (S (length pre)) with (length (pre ++ ["\"%char])).
        * apply deref_end.
        * rewrite length_app. simpl. lia.
      + replace (pre ++ "\"%char :: c :: rest)
          with ((pre ++ ["\"%char]) ++ c :: rest) by by rewrite <- app_assoc.
        replace (S (length pre)) with (length (pre ++ ["\"%char])).
        * apply deref_app.
        * rewrite length_app. simpl. lia. }
  destruct (Nat.le_gt_cases (length pre) fuel) as [Hle|Hlt].
  - replace fuel with (length pre + (fuel - length pre))%nat by lia.
    rewrite (ParseFormat_scan_plain dev pre [] ("\"%char :: rest)); [|done|done].
    simpl. apply Hstuck.
  - (* not even the plain run is finished *)
    clear Hstuck Hrest.
    assert (Hgen : forall (p : text) (a : text) (f : nat),
      Forall (fun c => plain c = true) p ->
      (f < S (length p))%nat ->
      format o = a ++ p ++ "\"%char :: rest ->
      ParseFormat_scan dev f o 0%nat (length a) = OutOfFuel).
    { induction p as [|c p IHp]; intros a f Hp Hf Hfo.
      - destruct f; [done|]. simpl in Hf. lia.
      - destruct f as [|f]; [done|].
        apply Forall_cons in Hp as [Hc Hp].
        cbn [ParseFormat_scan]. simpl app in Hfo. rewrite Hfo, deref_app.
        cbn [bind]. unfold plain in Hc.
        destruct (Ascii.eqb c NUL); [done|].
        destruct (Ascii.eqb "\" c); [done|].
        destruct (Ascii.eqb "{" c); [done|].
        destruct (Ascii.eqb "%" c); [done|].
        specialize (IHp (a ++ [c]) f Hp).
        rewrite length_app in IHp. simpl in IHp.
        apply IHp; [simpl in Hf; lia|].
        rewrite Hfo, <- app_assoc. done. }
    apply (Hgen pre [] fuel); [done|lia|done].
Qed.

(** C2: compilation does not terminate on every template.  On a template
    that has, after plain text, a backslash that no open brace follows
    (a bare trailing backslash among them), the scan stays on the
    backslash for ever: no amount of fuel lets [Fmt::Fmt] return. *)
Theorem ParseFormat_lone_backslash_diverges (dev : bool) (pre rest : text) :
  Forall (fun c => plain c = true) pre ->
  Ascii.eqb "{" (hd NUL rest) = false ->
  forall fuel, Fmt_new dev fuel (pre ++ "\"%char :: rest) = OutOfFuel.
Proof.
  intros Hpl Hrest fuel. unfold Fmt_new, ParseFormat.
  rewrite (ParseFormat_scan_backslash dev pre rest); done.
Qed.

Lemma ParseFormat_lone_backslash_diverges_witness :
  Fmt_new true 1000 (lit "a\") = OutOfFuel.
Proof.
  apply (ParseFormat_lone_backslash_diverges true (lit "a") []).
  - repeat constructor.
  - reflexivity.
Defined.

(** A scan that ends, in whatever way, ends the same way with more
    fuel. *)
Lemma ParseFormat_scan_more_fuel dev :
  forall (k k' : nat) (o : Fmt) (start fmt : nat),
    (k <= k')%nat ->
    ParseFormat_scan dev k o start fmt <> OutOfFuel ->
    ParseFormat_scan dev k' o start fmt = ParseFormat_scan dev k o start fmt.
Proof.
  induction k as [|k IH]; intros k' o start fmt Hk Hend; [done|].
  destruct k' as [|k']; [lia|].
  cbn [ParseFormat_scan] in Hend |- *.
  destruct (deref (format o) fmt) as [c| | |]; cbn [bind] in Hend |- *; try done.
  destruct (Ascii.eqb c NUL); [done|].
  destruct (Ascii.eqb "\" c).
  { destruct (deref (format o) (S fmt)) as [c1| | |];
      cbn [bind] in Hend |- *; try done.
    destruct (Ascii.eqb "{" c1); [|apply IH; [lia|done]].
    destruct (addFormatStr dev o start (fmt - start)) as [o1| | |];
      cbn [bind] in Hend |- *; try done.
    apply IH; [lia|done]. }
  destruct (Ascii.eqb "{" c).
  { destruct (addFormatStr dev o start (fmt - start)) as [o1| | |];
      cbn [bind] in Hend |- *; try done.
    destruct (parseArgDefPositional dev o1 fmt) as [[o2 fmt2]| | |];
      cbn [bind] in Hend |- *; try done.
    apply IH; [lia|done]. }
  destruct (Ascii.eqb "%" c); [|apply IH; [lia|done]].
  destruct (deref (format o) (S fmt)) as [c1| | |];
    cbn [bind] in Hend |- *; try done.
  destruct (Ascii.eqb "%" c1).
  - destruct (addFormatStr dev o start (fmt - start)) as [o1| | |];
      cbn [bind] in Hend |- *; try done.
    apply IH; [lia|done].
  - destruct (addFormatStr dev o start (fmt - start)) as [o1| | |];
      cbn [bind] in Hend |- *; try done.
    destruct (parseArgDefPerc dev o1 fmt) as [[o2 fmt2]| | |];
      cbn [bind] in Hend |- *; try done.
    apply IH; [lia|done].
Qed.

(** The same for the constructor. *)
Lemma Fmt_new_more_fuel dev (k k' : nat) (s : text) :
  (k <= k')%nat ->
  Fmt_new dev k s <> OutOfFuel ->
  Fmt_new dev k' s = Fmt_new dev k s.
Proof.
  intros Hk Hend. unfold Fmt_new, ParseFormat in Hend |- *.
  rewrite (ParseFormat_scan_more_fuel dev k k'); [done|done|].
  intros Hscan. rewrite Hscan in Hend. done.
Qed.

(** The digit loop of [parseArgDefPositional] always ends within the fuel
    it is given: at the latest it reads past the terminating NUL. *)
Lemma parseArgDefPositional_loop_ends dev (str : text) :
  forall (k s : nat) (n : Z),
    (s <= length str + 1)%nat -> (length str + 1 < s + k)%nat ->
    parseArgDefPositional_loop dev k str s n <> OutOfFuel.
Proof.
  induction k as [|k IH]; intros s n Hs Hk; [lia|].
  cbn [parseArgDefPositional_loop].
  destruct (decide (s = length str + 1)%nat) as [->|Hne].
  - rewrite deref_past by lia. discriminate.
  - destruct (deref str s) as [c| | |] eqn:Hc; cbn [bind]; try discriminate.
    + destruct (Ascii.eqb c "}"); [discriminate|].
      unfold CrashIf. destruct (dev && negb (IsDigit c)); cbn [bind];
        [discriminate|].
      apply IH; lia.
    + unfold deref in Hc. destruct ((str ++ [NUL]) !! s); discriminate.
Qed.

(** ** Capacity of the instruction list *)

(** C3: the capacity of the instruction list is not checked on every
    emission path.  [parseArgDefPositional] and [parseArgDefPerc] do not
    look at [nInst] at all: a template of 33 directives stores into slot
    32 of the 32-slot array in every build.  [addFormatStr] has the check
    as a [CrashIf] only: the 33rd literal run crashes an asserting build
    and stores into slot 32 in a release build. *)
Theorem ParseFormat_capacity_unchecked :
  (forall dev, Fmt_new dev 200 (rep 33 (lit "{0}")) = Undefined (OutOfBoundsWrite 32)) /\
  (forall dev, Fmt_new dev 200 (rep 33 (lit "%d")) = Undefined (OutOfBoundsWrite 32)) /\
  Fmt_new true 200 (rep 33 (lit "a%%")) = Crash /\
  Fmt_new false 200 (rep 33 (lit "a%%")) = Undefined (OutOfBoundsWrite 32).
Proof.
  repeat split; try intros []; vm_compute; reflexivity.
Qed.

(** ** Malformed directives *)

(** C6: a malformed directive does not make compilation set
    [isOk = false].  In a release build [CrashIf] does nothing, so the
    non-digit of the positional directive [{1&}] is folded into the index
    (1 * 10 + ('&' - '0') = 0) and the unknown letter of [%x] becomes an
    instruction of type [None]: both templates compile with
    [isOk = true], and the first one then formats argument 0.  An
    unterminated brace makes the digit loop read past the terminating
    NUL.  In an asserting build all three crash. *)
Theorem ParseFormat_malformed_not_flagged :
  (let! o := Fmt_new false 40 (lit "{1&}") in Ret (isOk o, program o))
    = Ret (true, [mkInst Type_Any 0 (0, 0)%nat]) /\
  Format' false 40 (lit "{1&}") (Arg_Int 7) Arg_None Arg_None Arg_None Arg_None Arg_None
    = Ret (Some (lit "7")) /\
  (let! o := Fmt_new false 40 (lit "%x") in Ret (isOk o, program o))
    = Ret (true, [mkInst Type_None 0 (0, 0)%nat]) /\
  Fmt_new false 40 (lit "{0") = Undefined (OutOfBoundsRead 3) /\
  Fmt_new true 40 (lit "{1&}") = Crash /\
  Fmt_new true 40 (lit "%x") = Crash /\
  Fmt_new true 40 (lit "{0") = Crash.
Proof.
  repeat split; vm_compute; reflexivity.
Qed.

(** ** Integer arguments *)

Lemma Fmt_new_perc_d dev : Fmt_new dev 40 (lit "%d") = Ret prog_perc_d.
Proof. destruct dev; vm_compute; reflexivity. Qed.

(** What [%d] prints for an [Int] argument [v]: the decimal text of [v]
    converted to a 32-bit [int]. *)
Lemma Format_perc_d dev G1 G2 U (v : Z) :
  Format dev G1 G2 U 40 (lit "%d") (Arg_Int v) Arg_None Arg_None Arg_None Arg_None Arg_None
  = Ret (Some (BufFmt_d (to_int v))).
Proof.
  unfold Format. rewrite CrashIf_false. cbn [bind].
  change (trimNone [Arg_Int v; Arg_None; Arg_None; Arg_None; Arg_None; Arg_None] 6)
    with (@Ret Z 1).
  cbn [bind]. unfold Format_trimmed.
  change (1 =? 0) with false. cbv iota.
  rewrite Fmt_new_perc_d. cbn [bind].
  destruct dev; cbv -[to_int BufFmt_d]; reflexivity.
Qed.

(** C5: an [Int] argument is not printed as its 64-bit value.  [Eval]
    casts the value to [int] before it formats it, so 2^32 prints as 0
    and 2^31 as -2147483648; values that fit 32 bits print as the claim
    says. *)
Theorem Eval_Int_cast_to_int :
  (forall dev G1 G2 U,
     Format dev G1 G2 U 40 (lit "%d") (Arg_Int 4294967296)
       Arg_None Arg_None Arg_None Arg_None Arg_None = Ret (Some (lit "0"))) /\
  (forall dev G1 G2 U,
     Format dev G1 G2 U 40 (lit "%d") (Arg_Int 2147483648)
       Arg_None Arg_None Arg_None Arg_None Arg_None = Ret (Some (lit "-2147483648"))) /\
  BufFmt_d 4294967296 = lit "4294967296" /\
  (forall dev G1 G2 U,
     Format dev G1 G2 U 40 (lit "%d") (Arg_Int (-42))
       Arg_None Arg_None Arg_None Arg_None Arg_None = Ret (Some (lit "-42"))).
Proof.
  repeat split; intros; try rewrite Format_perc_d; vm_compute; reflexivity.
Qed.

(** ** Trailing [None] arguments *)

Lemma arg_at_lookup (args : list Arg) (m : nat) (a : Arg) :
  args !! m = Some a -> arg_at args (Z.of_nat (S m) - 1) = Ret a.
Proof.
  intros Ha. unfold arg_at.
  replace (Z.of_nat (S m) - 1) with (Z.of_nat m) by lia.
  destruct (Z.leb_spec 0 (Z.of_nat m)); [|lia].
  by rewrite Nat2Z.id, Ha.
Qed.

(** When every argument below [m] is [None] the loop goes down to
    [nArgs = 0], where its guard [nArgs >= 0] still holds, and reads
    [args[-1]]. *)
Lemma trimNone_loop_all_None (args : list Arg) :
  forall (m k : nat),
    (m <= length args)%nat -> (m < k)%nat ->
    Forall is_None (take m args) ->
    trimNone_loop k args (Z.of_nat m) = Undefined (OutOfBoundsRead (-1)).
Proof.
  induction m as [|m IH]; intros k Hm Hk Hall.
  - destruct k; [lia|]. reflexivity.
  - destruct k as [|k]; [lia|].
    destruct (lookup_lt_is_Some_2 args m) as [a Ha]; [lia|].
    cbn [trimNone_loop].
    destruct (Z.geb_spec (Z.of_nat (S m)) 0); [|lia].
    rewrite (arg_at_lookup args m a Ha). cbn [bind].
    assert (Hnone : is_None a).
    { rewrite Forall_lookup in Hall. apply (Hall m).
      rewrite lookup_take_lt by lia. done. }
    unfold is_None in Hnone. rewrite Hnone. cbn [Type_eqb].
    replace (Z.of_nat (S m) - 1) with (Z.of_nat m) by lia.
    apply IH; [lia|lia|].
    rewrite Forall_lookup in Hall |- *. intros i x Hix.
    apply lookup_take_Some in Hix as [Hix Hlt].
    apply (Hall i). rewrite lookup_take_lt by lia. done.
Qed.

(** With an argument that is not [None] below [m] the loop stops at the
    last such argument: it returns at least 1. *)
Lemma trimNone_loop_some (args : list Arg) :
  forall (m k : nat),
    (m <= length args)%nat -> (m < k)%nat ->
    Exists (fun a => ~ is_None a) (take m args) ->
    exists n, trimNone_loop k args (Z.of_nat m) = Ret n /\ 1 <= n <= Z.of_nat m.
Proof.
  induction m as [|m IH]; intros k Hm Hk Hex.
  - rewrite take_0 in Hex. by apply Exists_nil in Hex.
  - destruct k as [|k]; [lia|].
    destruct (lookup_lt_is_Some_2 args m) as [a Ha]; [lia|].
    cbn [trimNone_loop].
    destruct (Z.geb_spec (Z.of_nat (S m)) 0); [|lia].
    rewrite (arg_at_lookup args m a Ha). cbn [bind].
    destruct (Type_eqb (Arg_t a) Type_None) eqn:Hta.
    + replace (Z.of_nat (S m) - 1) with (Z.of_nat m) by lia.
      destruct (IH k) as (n & Hn & Hrange); [lia|lia| |].
      * rewrite (take_S_r args m a Ha) in Hex.
        apply Exists_app in Hex as [Hex|Hex]; [done|].
        apply Exists_cons in Hex as [Hex|Hex].
        -- exfalso. apply Hex. unfold is_None. by destruct (Arg_t a).
        -- by apply Exists_nil in Hex.
      * exists n. split; [done|lia].
    + exists (Z.of_nat (S m)). split; [done|lia].
Qed.

(** C10: the trimming loop reads before the start of the array.  When all
    the arguments are [None], [nArgs] reaches 0 with the guard
    [nArgs >= 0] still true, and the loop reads [args[-1]]: in [Format]
    with six [None] arguments and in [FormatTemp] with any array of
    [None] arguments (the empty one included). *)
Theorem trimNone_reads_before_array dev G1 G2 U (fuel : nat) (s : text)
    (args : list Arg) :
  Forall is_None args ->
  FormatTemp dev G1 G2 U fuel s args (Z.of_nat (length args))
    = Undefined (OutOfBoundsRead (-1)) /\
  Format dev G1 G2 U fuel s Arg_None Arg_None Arg_None Arg_None Arg_None Arg_None
    = Undefined (OutOfBoundsRead (-1)).
Proof.
  intros Hall. split.
  - unfold FormatTemp, trimNone.
    rewrite (trimNone_loop_all_None args (length args)); [done|lia|lia|].
    by rewrite firstn_all.
  - unfold Format. rewrite CrashIf_false. reflexivity.
Qed.

Lemma trimNone_reads_before_array_witness :
  FormatTemp false no_G no_G no_utf8 40 (lit "hello") [Arg_None] 1
    = Undefined (OutOfBoundsRead (-1)) /\
  Format false no_G no_G no_utf8 40 (lit "hello")
    Arg_None Arg_None Arg_None Arg_None Arg_None Arg_None
    = Undefined (OutOfBoundsRead (-1)).
Proof.
  apply (trimNone_reads_before_array false no_G no_G no_utf8 40 (lit "hello") [Arg_None]).
  repeat constructor.
Defined.

(** ** The type check of [Eval] *)

Lemma validArgTypes_spec (instType argType : Type_) :
  instType <> Type_FormatStr ->
  validArgTypes instType argType = true <-> pairing_accepted instType argType.
Proof.
  intros Hlit. unfold pairing_accepted.
  destruct instType, argType; cbn; try congruence; split; intros H;
    try discriminate; try reflexivity; intuition congruence.
Qed.

(** C8: for a non-literal instruction [inst] at position [n] and an
    in-range argument [arg], the type check of [Eval] succeeds exactly on
    the listed pairings.  On success the argument's text is appended and
    the loop goes on with the next instruction; on any other pairing
    evaluation stops at once with [isOk = false] and nothing appended
    (after the [CrashIf], which crashes an asserting build). *)
Theorem Eval_type_check dev G1 G2 U (k : nat) (o : Fmt) (args : list Arg)
    (nArgs n : Z) (inst : Inst) (arg : Arg) :
  0 <= n < nInst o -> nInst o <= dimof_instructions ->
  inst_at o n = Ret inst ->
  t inst <> Type_FormatStr ->
  0 <= argNo inst < nArgs ->
  arg_at args (argNo inst) = Ret arg ->
  (validArgTypes (t inst) (Arg_t arg) = true
     <-> pairing_accepted (t inst) (Arg_t arg)) /\
  (pairing_accepted (t inst) (Arg_t arg) ->
     Eval_loop dev G1 G2 U (S k) o args nArgs n
     = Eval_loop dev G1 G2 U k
         (set_res (res o ++ Eval_switch G1 G2 U arg) (set_isOk true o))
         args nArgs (n + 1)) /\
  (~ pairing_accepted (t inst) (Arg_t arg) ->
     Eval_loop dev G1 G2 U (S k) o args nArgs n
     = if dev then Crash else Ret (false, set_isOk false o)).
Proof.
  intros Hn Hcap Hinst Hlit HargNo Harg.
  pose proof (validArgTypes_spec (t inst) (Arg_t arg) Hlit) as Hspec.
  assert (Hpre :
    Eval_loop dev G1 G2 U (S k) o args nArgs n
    = (let o' := set_isOk (validArgTypes (t inst) (Arg_t arg)) o in
       let! _ := CrashIf dev (negb (isOk o')) in
       if negb (isOk o') then Ret (false, o')
       else Eval_loop dev G1 G2 U k
              (set_res (res o' ++ Eval_switch G1 G2 U arg) o') args nArgs (n + 1))).
  { cbn [Eval_loop].
    destruct (Z.geb_spec n dimof_instructions); [lia|].
    destruct (Z.geb_spec n (nInst o)); [lia|].
    rewrite !CrashIf_false. cbn [bind]. rewrite Hinst. cbn [bind].
    destruct (Z.geb_spec (argNo inst) nArgs); [lia|].
    rewrite CrashIf_false. cbn [bind].
    destruct (Type_eqb (t inst) Type_FormatStr) eqn:Ht.
    { exfalso. apply Hlit. by destruct (t inst). }
    rewrite Harg. reflexivity. }
  split; [exact Hspec|]. split.
  - intros Hacc. apply Hspec in Hacc. rewrite Hpre, Hacc.
    cbn [set_isOk isOk negb]. rewrite CrashIf_false. reflexivity.
  - intros Hrej.
    assert (Hv : validArgTypes (t inst) (Arg_t arg) = false).
    { destruct (validArgTypes (t inst) (Arg_t arg)); [|done].
      exfalso. apply Hrej, Hspec. done. }
    rewrite Hpre, Hv. cbn [set_isOk isOk negb].
    unfold CrashIf. destruct dev; reflexivity.
Qed.

Lemma Eval_type_check_witness :
  (validArgTypes Type_Int Type_Str = true
     <-> pairing_accepted Type_Int Type_Str) /\
  (pairing_accepted Type_Int Type_Str ->
     Eval_loop false no_G no_G no_utf8 1 prog_perc_d [Arg_Str (lit "disk")] 1 0
     = Eval_loop false no_G no_G no_utf8 0
         (set_res (res prog_perc_d ++ Eval_switch no_G no_G no_utf8 (Arg_Str (lit "disk")))
            (set_isOk true prog_perc_d))
         [Arg_Str (lit "disk")] 1 (0 + 1)) /\
  (~ pairing_accepted Type_Int Type_Str ->
     Eval_loop false no_G no_G no_utf8 1 prog_perc_d [Arg_Str (lit "disk")] 1 0
     = Ret (false, set_isOk false prog_perc_d)).
Proof.
  apply (Eval_type_check false no_G no_G no_utf8 0 prog_perc_d
           [Arg_Str (lit "disk")] 1 0 (mkInst Type_Int 0 (0, 0)%nat)
           (Arg_Str (lit "disk")));
    first [reflexivity | discriminate | (cbn; lia)].
Defined.

(** ** Running [Eval] again *)

Lemma same_program_refl o : same_program o o.
Proof. by repeat split. Qed.

Lemma same_program_trans o1 o2 o3 :
  same_program o1 o2 -> same_program o2 o3 -> same_program o1 o3.
Proof. unfold same_program. intros (?&?&?) (?&?&?). repeat split; congruence. Qed.

Lemma same_program_set_res o v : same_program o (set_res v o).
Proof. by repeat split. Qed.

Lemma inst_at_same o o' n : same_program o o' -> inst_at o n = inst_at o' n.
Proof. intros (_ & Hi & _). unfold inst_at. by rewrite Hi. Qed.

Lemma sv_text_same o o' sl : same_program o o' -> sv_text o sl = sv_text o' sl.
Proof. intros (Hf & _). unfold sv_text. by rewrite Hf. Qed.

(** A successful run of the loop appends a text [out] that depends on the
    program and the arguments only: from any other object with the same
    program the loop succeeds too and appends the same [out]. *)
Lemma Eval_loop_rerun dev G1 G2 U (args : list Arg) (nArgs : Z) :
  forall (k : nat) (o o' : Fmt) (n : Z) (o1 : Fmt),
    same_program o o' ->
    Eval_loop dev G1 G2 U k o args nArgs n = Ret (true, o1) ->
    exists out,
      res o1 = res o ++ out /\
      same_program o o1 /\
      (isOk o = true -> isOk o1 = true) /\
      exists o1',
        Eval_loop dev G1 G2 U k o' args nArgs n = Ret (true, o1') /\
        res o1' = res o' ++ out.
Proof.
  induction k as [|k IH]; intros o o' n o1 Hsame Hrun.
  - simpl in Hrun. injection Hrun as <-. exists [].
    rewrite !List.app_nil_r. split; [done|]. split; [apply same_program_refl|].
    split; [done|]. exists o'. done.
  - cbn [Eval_loop] in Hrun |- *.
    rewrite <- (inst_at_same o o' n Hsame).
    destruct Hsame as (Hf & Hi & Hn). rewrite <- Hn.
    destruct (CrashIf dev (n >=? dimof_instructions)); try discriminate.
    destruct (CrashIf dev (n >=? nInst o)); try discriminate.
    cbn [bind] in Hrun |- *.
    destruct (inst_at o n) as [inst| | |]; try discriminate.
    cbn [bind] in Hrun |- *.
    destruct (CrashIf dev (argNo inst >=? nArgs)); try discriminate.
    cbn [bind] in Hrun |- *.
    destruct (argNo inst >=? nArgs); [discriminate|].
    destruct (Type_eqb (t inst) Type_FormatStr).
    + rewrite <- (sv_text_same o o' (sv inst)) by done.
      destruct (IH (set_res (res o ++ sv_text o (sv inst)) o)
                  (set_res (res o' ++ sv_text o (sv inst)) o') _ _
                  ltac:(by repeat split) Hrun)
        as (out & Hres & Hsame1 & Hok & o1' & Hrun' & Hres').
      exists (sv_text o (sv inst) ++ out).
      cbn [set_res res] in Hres, Hres'. rewrite <- app_assoc in Hres, Hres'.
      split; [done|]. split.
      { eapply same_program_trans; [apply same_program_set_res|exact Hsame1]. }
      split; [exact Hok|]. exists o1'. done.
    + destruct (arg_at args (argNo inst)) as [arg| | |]; try discriminate.
      cbn [bind] in Hrun |- *. cbn [set_isOk isOk] in Hrun |- *.
      destruct (validArgTypes (t inst) (Arg_t arg)).
      * rewrite CrashIf_false in Hrun |- *. cbn [bind negb] in Hrun |- *.
        destruct (IH (set_res (res o ++ Eval_switch G1 G2 U arg) (set_isOk true o))
                    (set_res (res o' ++ Eval_switch G1 G2 U arg) (set_isOk true o'))
                    _ _ ltac:(by repeat split) Hrun)
          as (out & Hres & Hsame1 & Hok & o1' & Hrun' & Hres').
        exists (Eval_switch G1 G2 U arg ++ out).
        cbn [set_res set_isOk res] in Hres, Hres'.
        rewrite <- app_assoc in Hres, Hres'.
        split; [done|]. split.
        { eapply same_program_trans; [|exact Hsame1]. by repeat split. }
        split; [intros _; by apply Hok|]. exists o1'. done.
      * cbn [negb] in Hrun.
        destruct (CrashIf dev true); discriminate.
Qed.

(** C4, as the code has it: [Eval] does not empty the accumulator [res]
    (only [ParseFormat] does), so a second [Eval] on the same object with
    the same arguments succeeds again and appends the same text [out] once
    more.  The text of the second run is that of the first only when the
    accumulator was emptied in between, as [StealData] does. *)
Theorem Eval_again_appends_same_text dev G1 G2 U (o : Fmt) (args : list Arg)
    (nArgs : Z) (o1 : Fmt) :
  Eval dev G1 G2 U o args nArgs = Ret (true, o1) ->
  exists out,
    res o1 = res o ++ out /\
    (exists o2, Eval dev G1 G2 U o1 args nArgs = Ret (true, o2) /\
                res o2 = res o1 ++ out) /\
    (exists o2, Eval dev G1 G2 U (snd (StealData o1)) args nArgs = Ret (true, o2) /\
                res o2 = out).
Proof.
  unfold Eval. destruct (isOk o) eqn:Hok; cbn [negb]; [|discriminate].
  intros Hrun.
  destruct (Eval_loop_rerun dev G1 G2 U args nArgs _ o o 0 o1
              (same_program_refl o) Hrun)
    as (out & Hres & Hsame & Hok1 & _).
  specialize (Hok1 Hok).
  exists out. split; [done|]. split.
  - destruct (Eval_loop_rerun dev G1 G2 U args nArgs _ o o1 0 o1 Hsame Hrun)
      as (out' & Hres' & _ & _ & o2 & Hrun2 & Hres2).
    assert (out' = out) as -> by (apply (app_inv_head (res o)); congruence).
    exists o2. rewrite Hok1. cbn [negb].
    destruct Hsame as (_ & _ & <-). done.
  - destruct (Eval_loop_rerun dev G1 G2 U args nArgs _ o (set_res [] o1) 0 o1
                ltac:(eapply same_program_trans;
                        [exact Hsame|apply same_program_set_res]) Hrun)
      as (out' & Hres' & _ & _ & o2 & Hrun2 & Hres2).
    assert (out' = out) as -> by (apply (app_inv_head (res o)); congruence).
    exists o2. cbn [StealData snd set_res isOk nInst]. rewrite Hok1. cbn [negb].
    destruct Hsame as (_ & _ & <-). done.
Qed.

Lemma Fmt_new_arg0 dev : Fmt_new dev 40 (lit "{0}") = Ret prog_arg0.
Proof. destruct dev; vm_compute; reflexivity. Qed.

Lemma Eval_again_appends_same_text_witness :
  exists out,
    res (set_res (lit "x") prog_arg0) = res prog_arg0 ++ out /\
    (exists o2, Eval false no_G no_G no_utf8 (set_res (lit "x") prog_arg0)
                  [Arg_Char "x"] 1 = Ret (true, o2) /\
                res o2 = res (set_res (lit "x") prog_arg0) ++ out) /\
    (exists o2, Eval false no_G no_G no_utf8
                  (snd (StealData (set_res (lit "x") prog_arg0)))
                  [Arg_Char "x"] 1 = Ret (true, o2) /\
                res o2 = out).
Proof.
  apply (Eval_again_appends_same_text false no_G no_G no_utf8 prog_arg0
           [Arg_Char "x"] 1 (set_res (lit "x") prog_arg0)).
  vm_compute. reflexivity.
Defined.

(** C4 as stated fails: the program of [{0}] run twice on the argument
    ['x'] holds [x] after the first run and [xx] after the second. *)
Lemma Eval_twice_counterexample :
  exists o1 o2,
    Fmt_new false 40 (lit "{0}") = Ret prog_arg0 /\
    Eval false no_G no_G no_utf8 prog_arg0 [Arg_Char "x"] 1 = Ret (true, o1) /\
    Eval false no_G no_G no_utf8 o1 [Arg_Char "x"] 1 = Ret (true, o2) /\
    res o1 = lit "x" /\ res o2 = lit "xx" /\ res o2 <> res o1.
Proof.
  do 2 eexists. split; [apply Fmt_new_arg0|].
  split; [vm_compute; reflexivity|].
  split; [vm_compute; reflexivity|].
  repeat split; try reflexivity. discriminate.
Qed.

(** ** What the compiler emits *)

Lemma update_inst_Ret o i f o' :
  update_inst o i f = Ret o' ->
  0 <= i < dimof_instructions /\
  o' = set_instructions (alter f (Z.to_nat i) (instructions o)) o.
Proof.
  unfold update_inst.
  destruct (Z.leb_spec 0 i), (Z.ltb_spec i dimof_instructions);
    cbn [andb]; intros [= <-]; auto.
Qed.

Lemma typeFromChar_not_FormatStr dev c ty :
  typeFromChar dev c = Ret ty -> ty <> Type_FormatStr.
Proof.
  unfold typeFromChar.
  repeat (match goal with |- context [if ?b then _ else _] => destruct b end;
          [intros [= <-]; discriminate|]).
  destruct (CrashIf dev true); cbn [bind]; intros [= <-]; discriminate.
Qed.

Lemma addFormatStr_emitted dev o s len o' :
  addFormatStr dev o s len = Ret o' ->
  (len = 0%nat /\ o' = o) \/
  (len <> 0%nat /\
   emitted (fun inst => t inst = Type_FormatStr /\ argNo inst = -1 /\
                        sv inst = (s, len)) o o').
Proof.
  unfold addFormatStr.
  destruct (Nat.eqb_spec len 0) as [->|Hlen]; [intros [= <-]; by left|].
  intros H. right. split; [done|].
  inv_bind H. clear Hrun.
  inv_bind H. apply update_inst_Ret in Hrun as [Hn ->].
  inv_bind H. apply update_inst_Ret in Hrun as [_ ->].
  inv_bind H. apply update_inst_Ret in Hrun as [_ ->].
  injection H as <-. cbn [set_instructions nInst instructions] in *.
  unfold emitted. cbn. repeat split; try lia.
  - intros i Hi. rewrite !list_lookup_alter_ne by lia. done.
  - rewrite !list_lookup_alter_eq in H.
    destruct (instructions o !! Z.to_nat (nInst o)); simplify_eq/=; done.
  - rewrite !list_lookup_alter_eq in H.
    destruct (instructions o !! Z.to_nat (nInst o)); simplify_eq/=; done.
  - rewrite !list_lookup_alter_eq in H.
    destruct (instructions o !! Z.to_nat (nInst o)); simplify_eq/=; done.
Qed.

Lemma parseArgDefPositional_emitted dev o s o' s' :
  parseArgDefPositional dev o s = Ret (o', s') ->
  exists n, emitted (fun inst => t inst = Type_Any /\ argNo inst = n) o o'.
Proof.
  unfold parseArgDefPositional. intros H.
  inv_bind H. clear Hrun. inv_bind H. clear Hrun.
  inv_bind H. destruct a1 as [p n]. clear Hrun.
  inv_bind H. apply update_inst_Ret in Hrun as [Hn ->].
  inv_bind H. apply update_inst_Ret in Hrun as [_ ->].
  injection H as <- <-. cbn [set_instructions nInst instructions] in *.
  exists n. unfold emitted. cbn. repeat split; try lia.
  - intros i Hi. rewrite !list_lookup_alter_ne by lia. done.
  - rewrite !list_lookup_alter_eq in H.
    destruct (instructions o !! Z.to_nat (nInst o)); simplify_eq/=; done.
  - rewrite !list_lookup_alter_eq in H.
    destruct (instructions o !! Z.to_nat (nInst o)); simplify_eq/=; done.
Qed.

Lemma parseArgDefPerc_emitted dev o s o' s' :
  parseArgDefPerc dev o s = Ret (o', s') ->
  exists ty, ty <> Type_FormatStr /\
    emitted (fun inst => t inst = ty /\ argNo inst = currPercArgNo o) o o'.
Proof.
  unfold parseArgDefPerc. intros H.
  inv_bind H. clear Hrun. inv_bind H. clear Hrun. inv_bind H. clear Hrun.
  inv_bind H. rename a2 into ty. apply typeFromChar_not_FormatStr in Hrun.
  inv_bind H. rename Hrun into Hty. apply update_inst_Ret in Hrun0 as [Hn ->].
  inv_bind H. apply update_inst_Ret in Hrun as [_ ->].
  injection H as <- <-.
  cbn [set_instructions nInst instructions currPercArgNo] in *.
  exists ty. split; [done|]. unfold emitted. cbn. repeat split; try lia.
  - intros i Hi. rewrite !list_lookup_alter_ne by lia. done.
  - rewrite !list_lookup_alter_eq in H.
    destruct (instructions o !! Z.to_nat (nInst o)); simplify_eq/=; done.
  - rewrite !list_lookup_alter_eq in H.
    destruct (instructions o !! Z.to_nat (nInst o)); simplify_eq/=; done.
Qed.

Lemma emitted_inv new o o' :
  emitted new o o' ->
  (forall inst, new inst -> literal_ok inst) ->
  compiled_inv o -> compiled_inv o'.
Proof.
  intros (Hn & Hn' & _ & Hc & Hold & Hnew) Hlit (_ & Hcur & Hinv).
  split; [lia|]. split; [congruence|].
  intros i inst Hi Hlook.
  destruct (decide (i < Z.to_nat (nInst o))%nat) as [Hlt|Hge].
  - rewrite Hold in Hlook by done. eauto.
  - assert (i = Z.to_nat (nInst o)) as -> by lia. eauto.
Qed.

Lemma addFormatStr_inv dev o s len o' :
  addFormatStr dev o s len = Ret o' ->
  compiled_inv o -> compiled_inv o' /\ format o' = format o.
Proof.
  intros H Hinv. apply addFormatStr_emitted in H as [[_ ->]|[Hlen Hem]]; [done|].
  split; [|apply Hem].
  eapply emitted_inv; [exact Hem| |done].
  intros inst (_ & Ha & Hsv) _. rewrite Hsv. done.
Qed.

Lemma parseArgDefPositional_inv dev o s o' s' :
  parseArgDefPositional dev o s = Ret (o', s') ->
  compiled_inv o -> compiled_inv o' /\ format o' = format o.
Proof.
  intros H Hinv. apply parseArgDefPositional_emitted in H as [n Hem].
  split; [|apply Hem].
  eapply emitted_inv; [exact Hem| |done].
  intros inst [Ht _] Hlit. congruence.
Qed.

Lemma parseArgDefPerc_inv dev o s o' s' :
  parseArgDefPerc dev o s = Ret (o', s') ->
  compiled_inv o -> compiled_inv o' /\ format o' = format o.
Proof.
  intros H Hinv. apply parseArgDefPerc_emitted in H as (ty & Hty & Hem).
  split; [|apply Hem].
  eapply emitted_inv; [exact Hem| |done].
  intros inst [Ht _] Hlit. congruence.
Qed.

Lemma ParseFormat_scan_inv dev :
  forall (fuel : nat) (o : Fmt) (start fmt : nat) (o' : Fmt) (start' fmt' : nat),
    ParseFormat_scan dev fuel o start fmt = Ret (o', start', fmt') ->
    compiled_inv o -> compiled_inv o' /\ format o' = format o.
Proof.
  induction fuel as [|fuel IH]; intros o start fmt o' start' fmt' H Hinv;
    [discriminate|].
  cbn [ParseFormat_scan] in H.
  inv_bind H. clear Hrun.
  destruct (Ascii.eqb a NUL); [by injection H as <- _ _|].
  destruct (Ascii.eqb "\" a).
  { inv_bind H. clear Hrun. destruct (Ascii.eqb "{" a0); [|eauto].
    inv_bind H. apply addFormatStr_inv in Hrun as [Hinv1 Hf1]; [|done].
    apply IH in H as [? ?]; [|done]. split; [done|congruence]. }
  destruct (Ascii.eqb "{" a).
  { inv_bind H. apply addFormatStr_inv in Hrun as [Hinv1 Hf1]; [|done].
    inv_bind H. destruct a1 as [o2 fmt2].
    apply parseArgDefPositional_inv in Hrun as [Hinv2 Hf2]; [|done].
    apply IH in H as [? ?]; [|done]. split; [done|congruence]. }
  destruct (Ascii.eqb "%" a); [|eauto].
  inv_bind H. clear Hrun. destruct (Ascii.eqb "%" a0).
  - inv_bind H. apply addFormatStr_inv in Hrun as [Hinv1 Hf1]; [|done].
    apply IH in H as [? ?]; [|done]. split; [done|congruence].
  - inv_bind H. apply addFormatStr_inv in Hrun as [Hinv1 Hf1]; [|done].
    inv_bind H. destruct a2 as [o2 fmt2].
    apply parseArgDefPerc_inv in Hrun as [Hinv2 Hf2]; [|done].
    apply IH in H as [? ?]; [|done]. split; [done|congruence].
Qed.

Lemma inst_at_Ret o i inst :
  inst_at o i = Ret inst ->
  0 <= i < dimof_instructions /\ instructions o !! Z.to_nat i = Some inst.
Proof.
  unfold inst_at.
  destruct (Z.leb_spec 0 i), (Z.ltb_spec i dimof_instructions);
    cbn [andb]; try discriminate.
  destruct (instructions o !! Z.to_nat i); intros [= <-]. auto with lia.
Qed.

Lemma inst_at_lookup o (n : nat) inst :
  (Z.of_nat n < dimof_instructions) ->
  instructions o !! n = Some inst -> inst_at o (Z.of_nat n) = Ret inst.
Proof.
  intros Hn Hl. unfold inst_at.
  destruct (Z.leb_spec 0 (Z.of_nat n)); [|lia].
  destruct (Z.ltb_spec (Z.of_nat n) dimof_instructions); [|lia].
  cbn [andb]. by rewrite Nat2Z.id, Hl.
Qed.

Lemma program_lookup o (i : nat) inst :
  program o !! i = Some inst <->
  instructions o !! i = Some inst /\ (i < Z.to_nat (nInst o))%nat.
Proof. unfold program. apply lookup_take_Some. Qed.

(** The result of [ParseFormat] with the object it leaves. *)
Lemma ParseFormat_inv dev fuel s ok o :
  ParseFormat dev fuel Fmt_init s = Ret (ok, o) ->
  compiled_inv o /\ format o = s /\
  exists maxArgNo,
    maxArgNo_loop (Z.to_nat (nInst o)) o 0 0 = Ret maxArgNo /\
    coverage_loop dev (Z.to_nat (maxArgNo + 1)) o 0 = Ret ok.
Proof.
  unfold ParseFormat. intros H.
  inv_bind H. destruct a as [[o1 start] fmt].
  apply ParseFormat_scan_inv in Hrun as [Hinv1 Hf1].
  2:{ split; [cbn; unfold dimof_instructions; lia|]. split; [done|].
      intros i inst Hi. cbn in Hi. lia. }
  inv_bind H. apply addFormatStr_inv in Hrun as [Hinv2 Hf2]; [|done].
  inv_bind H. inv_bind H. injection H as <- <-.
  split; [done|]. split; [by rewrite Hf2, Hf1|].
  destruct Hinv2 as (_ & Hcur & _). rewrite Hcur in Hrun.
  eauto.
Qed.

Lemma Fmt_new_inv dev fuel s o :
  Fmt_new dev fuel s = Ret o ->
  exists o1,
    o = set_isOk (isOk o) o1 /\
    compiled_inv o1 /\ format o1 = s /\
    exists maxArgNo,
      maxArgNo_loop (Z.to_nat (nInst o1)) o1 0 0 = Ret maxArgNo /\
      coverage_loop dev (Z.to_nat (maxArgNo + 1)) o1 0 = Ret (isOk o).
Proof.
  unfold Fmt_new. intros H. inv_bind H. destruct a as [ok o1].
  injection H as <-. apply ParseFormat_inv in Hrun.
  exists o1. split; [done|]. exact Hrun.
Qed.

Lemma Fmt_new_compiled_inv dev fuel s o :
  Fmt_new dev fuel s = Ret o -> compiled_inv o.
Proof.
  intros H. apply Fmt_new_inv in H as (o1 & -> & Hinv & _). exact Hinv.
Qed.

(** C9: an empty literal run emits nothing, and in a compiled program
    every [FormatStr] instruction has [argNo = -1] and a slice that is
    not empty.  So the range check
    [argNo >= nArgs] of [Eval], which runs on literals too, is false on
    it whenever [nArgs >= 1], and [Eval] appends the slice and goes on. *)
Theorem FormatStr_instructions_pass_range_check dev G1 G2 U (fuel : nat)
    (s : text) (o : Fmt) (n : nat) (inst : Inst) :
  Fmt_new dev fuel s = Ret o ->
  program o !! n = Some inst ->
  t inst = Type_FormatStr ->
  (forall (o0 : Fmt) (p : nat), addFormatStr dev o0 p 0 = Ret o0) /\
  argNo inst = -1 /\ snd (sv inst) <> 0%nat /\
  forall (nArgs : Z), 1 <= nArgs ->
    (argNo inst >=? nArgs) = false /\
    forall (k : nat) (o1 : Fmt) (args : list Arg),
      same_program o o1 ->
      Eval_loop dev G1 G2 U (S k) o1 args nArgs (Z.of_nat n)
      = Eval_loop dev G1 G2 U k (set_res (res o1 ++ sv_text o1 (sv inst)) o1)
          args nArgs (Z.of_nat n + 1).
Proof.
  intros Hnew Hprog Ht. split; [reflexivity|].
  apply Fmt_new_compiled_inv in Hnew as (Hn & _ & Hinv).
  apply program_lookup in Hprog as [Hlook Hlt].
  destruct (Hinv n inst Hlt Hlook Ht) as [Harg Hlen].
  split; [done|]. split; [done|]. intros nArgs HnArgs.
  assert (Hcheck : (argNo inst >=? nArgs) = false).
  { rewrite Harg. destruct (Z.geb_spec (-1) nArgs); [lia|done]. }
  split; [done|]. intros k o1 args Hsame.
  cbn [Eval_loop]. rewrite <- (inst_at_same o o1 _ Hsame).
  destruct Hsame as (_ & _ & <-).
  destruct (Z.geb_spec (Z.of_nat n) dimof_instructions); [lia|].
  destruct (Z.geb_spec (Z.of_nat n) (nInst o)); [lia|].
  rewrite !CrashIf_false. cbn [bind].
  rewrite (inst_at_lookup o n inst) by (done || lia). cbn [bind].
  rewrite Hcheck, CrashIf_false, Ht. reflexivity.
Qed.

Lemma FormatStr_instructions_pass_range_check_witness :
  let inst := mkInst Type_FormatStr (-1) (0, 5)%nat in
  (forall (o0 : Fmt) (p : nat), addFormatStr false o0 p 0 = Ret o0) /\
  argNo inst = -1 /\ snd (sv inst) <> 0%nat /\
  forall (nArgs : Z), 1 <= nArgs ->
    (argNo inst >=? nArgs) = false /\
    forall (k : nat) (o1 : Fmt) (args : list Arg),
      same_program
        (mkFmt true (lit "Page {0}")
           (inst :: mkInst Type_Any 0 (0, 0)%nat :: replicate 30 Inst_uninit)
           2 0 0 []) o1 ->
      Eval_loop false no_G no_G no_utf8 (S k) o1 args nArgs (Z.of_nat 0)
      = Eval_loop false no_G no_G no_utf8 k
          (set_res (res o1 ++ sv_text o1 (sv inst)) o1) args nArgs (Z.of_nat 0 + 1).
Proof.
  apply (FormatStr_instructions_pass_range_check false no_G no_G no_utf8 40
           (lit "Page {0}")); vm_compute; reflexivity.
Defined.

(** ** The coverage check *)

Lemma hasInstructionWithArgNo_loop_spec (o : Fmt) (a : Z) :
  forall (k : nat) (i : nat) (b : bool),
    hasInstructionWithArgNo_loop k o (Z.of_nat i) a = Ret b ->
    (b = true <->
     exists (j : nat) (inst : Inst),
       (i <= j < i + k)%nat /\ instructions o !! j = Some inst /\ argNo inst = a).
Proof.
  induction k as [|k IH]; intros i b H.
  - injection H as <-. split; [done|]. intros (j & ? & ? & _). lia.
  - cbn [hasInstructionWithArgNo_loop] in H. inv_bind H.
    apply inst_at_Ret in Hrun as [_ Hl]. rewrite Nat2Z.id in Hl.
    destruct (Z.eqb_spec (argNo a0) a) as [Heq|Hne].
    + injection H as <-. split; [|done]. intros _. exists i, a0.
      split; [lia|done].
    + replace (Z.of_nat i + 1) with (Z.of_nat (S i)) in H by lia.
      apply IH in H. rewrite H. split.
      * intros (j & inst & Hj & ?). exists j, inst. split; [lia|done].
      * intros (j & inst & Hj & Hlj & Ha). exists j, inst.
        split; [|done]. destruct (decide (j = i)) as [->|]; [|lia].
        congruence.
Qed.

Lemma hasInstructionWithArgNo_spec (o : Fmt) (a : Z) (b : bool) :
  hasInstructionWithArgNo o (nInst o) a = Ret b ->
  (b = true <-> exists inst, inst ∈ program o /\ argNo inst = a).
Proof.
  unfold hasInstructionWithArgNo. intros H.
  apply (hasInstructionWithArgNo_loop_spec o a _ 0%nat) in H.
  rewrite H. split.
  - intros (j & inst & Hj & Hl & Ha). exists inst. split; [|done].
    apply list_elem_of_lookup. exists j. apply program_lookup. split; [done|lia].
  - intros (inst & Hin & Ha). apply list_elem_of_lookup in Hin as [j Hj].
    apply program_lookup in Hj as [Hl Hj]. exists j, inst. split; [lia|done].
Qed.

Lemma maxArgNo_loop_spec (o : Fmt) :
  forall (k : nat) (i : nat) (m0 m : Z),
    maxArgNo_loop k o (Z.of_nat i) m0 = Ret m ->
    m0 <= m /\
    (forall (j : nat) (inst : Inst),
       (i <= j < i + k)%nat -> instructions o !! j = Some inst ->
       t inst <> Type_FormatStr -> argNo inst <= m) /\
    (m = m0 \/
     exists (j : nat) (inst : Inst),
       (i <= j < i + k)%nat /\ instructions o !! j = Some inst /\
       t inst <> Type_FormatStr /\ argNo inst = m).
Proof.
  induction k as [|k IH]; intros i m0 m H.
  - injection H as <-. split; [lia|]. split; [intros; lia|by left].
  - cbn [maxArgNo_loop] in H. inv_bind H.
    apply inst_at_Ret in Hrun as [_ Hl]. rewrite Nat2Z.id in Hl.
    replace (Z.of_nat i + 1) with (Z.of_nat (S i)) in H by lia.
    destruct (Type_eqb (t a) Type_FormatStr) eqn:Hta.
    { apply IH in H as (Hle & Hub & Hwit). split; [done|]. split.
      - intros j inst Hj Hlj Hnl.
        destruct (decide (j = i)) as [->|]; [|apply (Hub j inst); [lia|done..]].
        assert (inst = a) as -> by congruence.
        exfalso. apply Hnl. by destruct (t a).
      - destruct Hwit as [->|(j & inst & Hj & ?)]; [by left|].
        right. exists j, inst. split; [lia|done]. }
    assert (Hnl : t a <> Type_FormatStr) by (intros Heq; by rewrite Heq in Hta).
    destruct (Z.gtb_spec (argNo a) m0) as [Hgt|Hngt].
    + apply IH in H as (Hle & Hub & Hwit). split; [lia|]. split.
      * intros j inst Hj Hlj Hnlj.
        destruct (decide (j = i)) as [->|]; [|apply (Hub j inst); [lia|done..]].
        assert (inst = a) as -> by congruence. lia.
      * right. destruct Hwit as [->|(j & inst & Hj & ?)].
        -- exists i, a. split; [lia|done].
        -- exists j, inst. split; [lia|done].
    + apply IH in H as (Hle & Hub & Hwit). split; [lia|]. split.
      * intros j inst Hj Hlj Hnlj.
        destruct (decide (j = i)) as [->|]; [|apply (Hub j inst); [lia|done..]].
        assert (inst = a) as -> by congruence. lia.
      * destruct Hwit as [->|(j & inst & Hj & ?)]; [by left|].
        right. exists j, inst. split; [lia|done].
Qed.

Lemma coverage_loop_spec dev (o : Fmt) :
  forall (k : nat) (i : Z) (b : bool),
    coverage_loop dev k o i = Ret b ->
    (b = true <->
     forall j, i <= j < i + Z.of_nat k ->
               exists inst, inst ∈ program o /\ argNo inst = j).
Proof.
  induction k as [|k IH]; intros i b H.
  - injection H as <-. split; [|done]. intros _ j Hj. lia.
  - cbn [coverage_loop] in H. inv_bind H.
    apply hasInstructionWithArgNo_spec in Hrun.
    inv_bind H. clear Hrun0. destruct a; cbn [negb] in H.
    + apply IH in H. rewrite H. split.
      * intros Hall j Hj. destruct (decide (j = i)) as [->|].
        -- by apply Hrun.
        -- apply Hall. lia.
      * intros Hall j Hj. apply Hall. lia.
    + injection H as <-. split; [done|]. intros Hall.
      apply Hrun. apply Hall. lia.
Qed.

(** C7, as the code has it: [maxArgNo] starts from [currArgNo], which is
    0, so index 0 is always in the range that has to be covered.
    Compilation succeeds exactly when index 0 and every index up to the
    greatest index of a non-literal instruction are each the index of
    some instruction; the template [{0}{2}] compiles with
    [isOk = false]. *)
Theorem ParseFormat_coverage dev (fuel : nat) (s : text) (o : Fmt) :
  Fmt_new dev fuel s = Ret o ->
  (isOk o = true <->
   forall i, 0 <= i -> i = 0 \/ reaches o i -> references o i) /\
  (s = lit "{0}{2}" -> dev = false -> isOk o = false).
Proof.
  intros Hnew. split.
  - apply Fmt_new_inv in Hnew as (o1 & Ho & Hinv & _ & m & Hmax & Hcov).
    assert (Hprog : program o = program o1) by (by rewrite Ho).
    unfold reaches, references. rewrite Hprog.
    apply coverage_loop_spec in Hcov. rewrite Hcov. clear Hcov.
    apply (maxArgNo_loop_spec o1 _ 0%nat) in Hmax as (Hle & Hub & Hwit).
    split.
    + intros Hall i Hi Hreach. apply Hall.
      destruct Hreach as [->|(inst & Hin & Hnl & Hia)]; [lia|].
      apply list_elem_of_lookup in Hin as [j Hj].
      apply program_lookup in Hj as [Hl Hj].
      specialize (Hub j inst ltac:(lia) Hl Hnl). lia.
    + intros Hall j Hj. apply Hall; [lia|].
      destruct (decide (j = 0)) as [->|Hj0]; [by left|]. right.
      destruct Hwit as [->|(p & inst & Hp & Hl & Hnl & Ha)]; [lia|].
      exists inst. split; [|split; [done|lia]].
      apply list_elem_of_lookup. exists p. apply program_lookup.
      split; [done|lia].
  - intros -> ->.
    destruct fuel as [|fuel]; [discriminate|].
    do 2 (destruct fuel as [|fuel]; [vm_compute in Hnew; discriminate|]).
    vm_compute in Hnew. injection Hnew as <-. reflexivity.
Qed.

Lemma ParseFormat_coverage_witness :
  (isOk prog_0_2 = true <->
   forall i, 0 <= i -> i = 0 \/ reaches prog_0_2 i -> references prog_0_2 i) /\
  (lit "{0}{2}" = lit "{0}{2}" -> false = false -> isOk prog_0_2 = false).
Proof.
  apply (ParseFormat_coverage false 40 (lit "{0}{2}") prog_0_2).
  vm_compute. reflexivity.
Defined.

(** C7 as stated fails on a template without directives: there is no
    non-literal instruction, so no index is left unreferenced, and yet
    compilation ends with [isOk = false], because the code always asks
    for index 0. *)
Lemma ParseFormat_coverage_counterexample :
  exists o,
    Fmt_new false 40 (lit "hello") = Ret o /\
    program o = [mkInst Type_FormatStr (-1) (0, 5)%nat] /\
    ~ (isOk o = true <-> spec_covered (program o) = true).
Proof.
  eexists. split; [vm_compute; reflexivity|]. split; [reflexivity|].
  vm_compute. intros [_ H]. specialize (H eq_refl). discriminate.
Qed.

(** ** Templates without directives *)

(** What the compiler makes of a template of plain characters: one
    literal for the whole text, or nothing for the empty template, and
    then the coverage check fails on index 0. *)
Lemma Fmt_new_plain dev (fuel : nat) (s : text) :
  Forall (fun c => plain c = true) s ->
  (length s < fuel)%nat ->
  Fmt_new dev fuel s = (if dev then Crash else Fmt_new false fuel s) /\
  exists o, Fmt_new false fuel s = Ret o /\ isOk o = false.
Proof.
  intros Hpl Hfuel.
  assert (Hscan : forall d o, format o = s ->
    ParseFormat_scan d fuel o 0%nat 0%nat = Ret (o, 0%nat, length s)).
  { intros d o Hfo.
    replace fuel with (length s + S (fuel - length s - 1))%nat by lia.
    rewrite (ParseFormat_scan_plain d s [] [] o); [|done|by rewrite app_nil_r].
    cbn [ParseFormat_scan length Nat.add]. rewrite Hfo, deref_end.
    reflexivity. }
  unfold Fmt_new, ParseFormat. rewrite !Hscan by reflexivity.
  cbn [bind]. destruct s as [|c s]; destruct dev; vm_compute; eauto.
Qed.

(** C1, as the code has it: with at least one argument that is not
    [None], [Format] compiles the template, and a template of plain
    characters (no backslash, brace or percent sign) then fails the
    coverage check on index 0, so [Format] returns null in a release
    build and crashes in an asserting build.  The template comes back
    unchanged only on the path for [nArgs == 0], which does not
    compile it. *)
Theorem Format_plain_template dev G1 G2 U (fuel : nat) (s : text)
    (a1 a2 a3 a4 a5 a6 : Arg) :
  Forall (fun c => plain c = true) s ->
  (length s < fuel)%nat ->
  Exists (fun a => ~ is_None a) [a1; a2; a3; a4; a5; a6] ->
  Format dev G1 G2 U fuel s a1 a2 a3 a4 a5 a6
    = (if dev then Crash else Ret None) /\
  Format_trimmed dev G1 G2 U fuel s [a1; a2; a3; a4; a5; a6] 0 = Ret (Some s).
Proof.
  intros Hpl Hfuel Hex. split.
  - unfold Format. rewrite CrashIf_false. cbn [bind].
    destruct (trimNone_loop_some [a1; a2; a3; a4; a5; a6] 6 8)
      as (n & Hn & Hrange); [simpl; lia|lia|done|].
    unfold trimNone. change (S (S (Z.to_nat 6))) with 8%nat.
    change 6 with (Z.of_nat 6) at 1. rewrite Hn. cbn [bind].
    unfold Format_trimmed.
    destruct (Z.eqb_spec n 0); [lia|].
    destruct (Fmt_new_plain dev fuel s Hpl Hfuel) as (Hdev & o & Ho & Hok).
    rewrite Hdev. destruct dev; [done|].
    rewrite Ho. cbn [bind]. unfold Eval. rewrite Hok. reflexivity.
  - unfold Format_trimmed. cbn. by rewrite c_str_plain.
Qed.

Lemma Format_plain_template_witness :
  Format false no_G no_G no_utf8 40 (lit "hello")
    (Arg_Int 1) Arg_None Arg_None Arg_None Arg_None Arg_None = Ret None /\
  Format_trimmed false no_G no_G no_utf8 40 (lit "hello")
    [Arg_Int 1; Arg_None; Arg_None; Arg_None; Arg_None; Arg_None] 0
    = Ret (Some (lit "hello")).
Proof.
  apply (Format_plain_template false no_G no_G no_utf8 40 (lit "hello")
           (Arg_Int 1) Arg_None Arg_None Arg_None Arg_None Arg_None).
  - repeat constructor.
  - simpl. lia.
  - apply Exists_cons_hd. discriminate.
Defined.

(** C1 as stated fails: [Format] on the template [hello] and one [Int]
    argument never returns the template, whatever the fuel. *)
Lemma Format_plain_template_counterexample :
  ~ exists fuel,
      Format false no_G no_G no_utf8 fuel (lit "hello")
        (Arg_Int 1) Arg_None Arg_None Arg_None Arg_None Arg_None
      = Ret (Some (lit "hello")).
Proof.
  intros [fuel H].
  do 6 (destruct fuel as [|fuel]; [vm_compute in H; discriminate|]).
  vm_compute in H. discriminate.
Qed.

(** ** Progress of the emitters *)

Lemma update_inst_in_range o i f :
  0 <= i < dimof_instructions ->
  update_inst o i f
  = Ret (set_instructions (alter f (Z.to_nat i) (instructions o)) o).
Proof.
  intros Hi. unfold update_inst.
  destruct (Z.leb_spec 0 i); [|lia].
  destruct (Z.ltb_spec i dimof_instructions); [|lia]. done.
Qed.

(** With a free slot every emitter returns. *)
Lemma addFormatStr_progress dev o s len :
  0 <= nInst o < dimof_instructions ->
  exists o', addFormatStr dev o s len = Ret o'.
Proof.
  intros Hn. unfold addFormatStr.
  destruct (len =? 0)%nat; [eauto|].
  destruct (Z.geb_spec (nInst o) dimof_instructions); [lia|].
  rewrite CrashIf_false. cbn [bind].
  rewrite update_inst_in_range by done. cbn [bind set_instructions nInst].
  rewrite update_inst_in_range by done. cbn [bind set_instructions nInst].
  rewrite update_inst_in_range by done. cbn [bind]. eauto.
Qed.

(** The new instruction of an emission is the last one of the program. *)
Lemma emitted_program new o o' :
  emitted new o o' ->
  length (instructions o) = Z.to_nat dimof_instructions ->
  length (instructions o') = Z.to_nat dimof_instructions ->
  exists inst, new inst /\ program o' = program o ++ [inst].
Proof.
  intros (Hn & Hn' & _ & _ & Hold & Hnew) Hlen Hlen'.
  destruct (lookup_lt_is_Some_2 (instructions o') (Z.to_nat (nInst o)))
    as [inst Hinst]; [lia|].
  exists inst. split; [by apply Hnew|].
  unfold program. rewrite Hn'.
  replace (Z.to_nat (nInst o + 1)) with (S (Z.to_nat (nInst o))) by lia.
  rewrite (take_S_r _ _ inst Hinst). f_equal.
  apply list_eq. intros i. rewrite !lookup_take.
  case_decide; [|done]. by apply Hold.
Qed.

Lemma update_inst_length o i f o' :
  update_inst o i f = Ret o' ->
  length (instructions o') = length (instructions o).
Proof.
  intros H. apply update_inst_Ret in H as [_ ->].
  cbn. apply length_alter.
Qed.

Lemma addFormatStr_length dev o s len o' :
  addFormatStr dev o s len = Ret o' -> keeps o o' 0.
Proof.
  unfold addFormatStr, keeps.
  destruct (len =? 0)%nat; [intros [= <-]; repeat split; lia|].
  intros H. inv_bind H. clear Hrun.
  inv_bind H. apply update_inst_Ret in Hrun as [_ ->].
  inv_bind H. apply update_inst_Ret in Hrun as [_ ->].
  inv_bind H. apply update_inst_Ret in Hrun as [_ ->].
  injection H as <-. cbn. rewrite !length_alter. repeat split; lia.
Qed.

Lemma parseArgDefPositional_length dev o s o' s' :
  parseArgDefPositional dev o s = Ret (o', s') -> keeps o o' 0.
Proof.
  unfold parseArgDefPositional, keeps. intros H.
  inv_bind H. clear Hrun. inv_bind H. clear Hrun.
  inv_bind H. destruct a1 as [p n]. clear Hrun.
  inv_bind H. apply update_inst_Ret in Hrun as [_ ->].
  inv_bind H. apply update_inst_Ret in Hrun as [_ ->].
  injection H as <- <-. cbn. rewrite !length_alter. repeat split; lia.
Qed.

Lemma parseArgDefPerc_length dev o s o' s' :
  parseArgDefPerc dev o s = Ret (o', s') -> keeps o o' 1.
Proof.
  unfold parseArgDefPerc, keeps. intros H.
  inv_bind H. clear Hrun. inv_bind H. clear Hrun. inv_bind H. clear Hrun.
  inv_bind H. clear Hrun.
  inv_bind H. apply update_inst_Ret in Hrun as [_ ->].
  inv_bind H. apply update_inst_Ret in Hrun as [_ ->].
  injection H as <- <-. cbn. rewrite !length_alter. repeat split; lia.
Qed.

(** ** Digits *)

Lemma IsDigit_value c :
  IsDigit c = true -> 0 <= char_to_int c - char_to_int "0" <= 9.
Proof.
  unfold IsDigit. intros H. apply andb_prop in H as [H1 H2].
  apply Z.leb_le in H1, H2.
  change (char_to_int "0") with 48 in *. change (char_to_int "9") with 57 in *.
  lia.
Qed.

Lemma IsDigit_not_brace c : IsDigit c = true -> Ascii.eqb c "}" = false.
Proof.
  intros H. destruct (Ascii.eqb_spec c "}") as [->|]; [|done].
  vm_compute in H. discriminate.
Qed.

Lemma digit_step_mono (ds : text) :
  forall n, 0 <= n -> forallb IsDigit ds = true ->
            n <= fold_left digit_step ds n.
Proof.
  induction ds as [|c ds IH]; intros n Hn Hds; [simpl; lia|].
  cbn [forallb] in Hds. apply andb_prop in Hds as [Hc Hds].
  cbn [fold_left]. pose proof (IsDigit_value c Hc).
  etrans; [|apply IH; [unfold digit_step; lia|done]].
  unfold digit_step. lia.
Qed.

Lemma to_int_small z : - 2 ^ 31 <= z < 2 ^ 31 -> to_int z = z.
Proof.
  intros Hz. unfold to_int. rewrite Z.mod_small by lia. lia.
Qed.

(** The digit loop of [parseArgDefPositional] on a run of digits that is
    closed by a brace: it stops on the brace with the number the digits
    denote, as long as that fits an [int]. *)
Lemma parseArgDefPositional_loop_digits dev (str : text) :
  forall (ds X R : text) (k : nat) (n : Z),
    str = X ++ ds ++ "}"%char :: R ->
    forallb IsDigit ds = true ->
    0 <= n -> fold_left digit_step ds n < 2 ^ 31 ->
    (length ds < k)%nat ->
    parseArgDefPositional_loop dev k str (length X) n
    = Ret ((length X + length ds)%nat, fold_left digit_step ds n).
Proof.
  induction ds as [|c ds IH]; intros X R k n Hstr Hds Hn Hv Hk.
  - destruct k as [|k]; [simpl in Hk; lia|].
    cbn [parseArgDefPositional_loop]. rewrite Hstr. cbn [app].
    rewrite deref_app. cbn [bind]. rewrite Nat.add_0_r. reflexivity.
  - destruct k as [|k]; [simpl in Hk; lia|].
    cbn [forallb] in Hds. apply andb_prop in Hds as [Hc Hds].
    cbn [parseArgDefPositional_loop]. rewrite Hstr at 1.
    change ((c :: ds) ++ "}"%char :: R) with (c :: ds ++ "}"%char :: R).
    rewrite deref_app. cbn [bind].
    rewrite (IsDigit_not_brace c Hc), Hc. cbn [negb].
    rewrite CrashIf_false. cbn [bind].
    cbn [fold_left] in Hv |- *.
    pose proof (IsDigit_value c Hc) as Hcv.
    pose proof (digit_step_mono ds (digit_step n c)
                  ltac:(unfold digit_step; lia) Hds) as Hmono.
    fold (digit_step n c). rewrite to_int_small by (unfold digit_step in *; lia).
    specialize (IH (X ++ [c]) R k (digit_step n c)).
    rewrite length_app in IH. cbn [length] in IH.
    replace (S (length X)) with (length X + 1)%nat by lia.
    rewrite IH; [f_equal; f_equal; simpl; lia| | | | |].
    + rewrite Hstr, <- app_assoc. done.
    + done.
    + unfold digit_step. lia.
    + done.
    + simpl in Hk. lia.
Qed.

(** ** The emitters, step by step *)

Lemma extends_refl o : extends o o [] 0.
Proof.
  unfold extends. rewrite app_nil_r. cbn. repeat split; lia.
Qed.

Lemma extends_trans o1 o2 o3 al1 al2 d1 d2 :
  extends o1 o2 al1 d1 -> extends o2 o3 al2 d2 ->
  extends o1 o3 (al1 ++ al2) (d1 + d2).
Proof.
  intros (Hf1 & Hl1 & Hn1 & Hc1 & Hp1 & Hm1 & Hr1 & Hk1)
         (Hf2 & Hl2 & Hn2 & Hc2 & Hp2 & Hm2 & Hr2 & Hk2).
  unfold extends. rewrite Hf1 in Hm2.
  rewrite Hm2, Hm1, length_app, <- app_assoc.
  repeat split; try congruence; lia.
Qed.

Lemma extends_array_ok o o' al dk :
  extends o o' al dk -> array_ok o -> array_ok o'.
Proof.
  intros (_ & Hl & Hn & _) [H0 Hlen]. split; [lia|congruence].
Qed.

(** One emission in terms of the program. *)
Lemma emitted_extends new o o' (a : AInst) (dk : Z) :
  emitted new o o' ->
  array_ok o ->
  keeps o o' dk ->
  (forall inst, new inst -> decode (format o) inst = a) ->
  extends o o' [a] dk.
Proof.
  intros Hem [H0 Hlen] (Hlen' & Hperc & Hres & HisOk) Hdec.
  destruct (emitted_program new o o' Hem Hlen ltac:(congruence))
    as (inst & Hnew & Hprog).
  destruct Hem as (Hn & Hn' & Hf & Hc & _).
  unfold extends. rewrite Hprog, map_app. cbn [map length].
  rewrite (Hdec inst Hnew). repeat split; try done; lia.
Qed.

(** Flushing the pending run [P], which lies at offset [length A]. *)
Lemma addFormatStr_flush dev o (A P R : text) :
  format o = A ++ P ++ R ->
  array_ok o ->
  nInst o + Z.of_nat (length (flush P)) <= dimof_instructions ->
  exists o', addFormatStr dev o (length A) (length P) = Ret o' /\
             extends o o' (flush P) 0.
Proof.
  intros Hfmt Hok Hcap. destruct P as [|c P].
  - exists o. split; [reflexivity|apply extends_refl].
  - cbn [flush length] in Hcap.
    destruct (addFormatStr_progress dev o (length A) (length (c :: P)))
      as [o' Ho']; [destruct Hok; lia|].
    exists o'. split; [done|].
    pose proof (addFormatStr_length _ _ _ _ _ Ho') as Hkeeps.
    apply addFormatStr_emitted in Ho' as [[Hz _]|[_ Hem]]; [done|].
    eapply emitted_extends; [exact Hem|done|done|].
    intros inst (Ht & _ & Hsv). unfold decode. rewrite Ht, Hsv. cbn [Type_eqb fst snd].
    rewrite Hfmt, drop_app_length, take_app_length. done.
Qed.

(** A positional directive at offset [length X]. *)
Lemma parseArgDefPositional_digits dev o (X ds R : text) :
  format o = X ++ "{"%char :: ds ++ "}"%char :: R ->
  forallb IsDigit ds = true ->
  digits_value ds < 2 ^ 31 ->
  array_ok o ->
  nInst o < dimof_instructions ->
  exists o',
    parseArgDefPositional dev o (length X)
    = Ret (o', (length X + length ds + 2)%nat) /\
    extends o o' [A_arg Type_Any (digits_value ds)] 0.
Proof.
  intros Hfmt Hds Hv Hok Hcap.
  assert (Hrun : exists o', parseArgDefPositional dev o (length X)
                            = Ret (o', (length X + length ds + 2)%nat) /\
           emitted (fun inst => t inst = Type_Any /\
                                argNo inst = digits_value ds) o o').
  { assert (Hd0 : deref (format o) (length X) = Ret "{"%char)
      by (rewrite Hfmt; apply deref_app).
    unfold parseArgDefPositional. rewrite Hd0.
    cbn [bind]. change (negb (Ascii.eqb "{" "{")) with false.
    rewrite CrashIf_false. cbn [bind].
    replace (S (length X)) with (length (X ++ ["{"%char]))
      by (rewrite length_app; simpl; lia).
    rewrite (parseArgDefPositional_loop_digits dev (format o) ds
               (X ++ ["{"%char]) R _ 0).
    2:{ rewrite Hfmt, <- app_assoc. done. }
    2:{ done. }
    2:{ lia. }
    2:{ exact Hv. }
    2:{ rewrite Hfmt, length_app. cbn [length]. rewrite length_app. lia. }
    cbn [bind]. destruct Hok as [H0 Hlen].
    rewrite update_inst_in_range by lia. cbn [bind set_instructions nInst].
    rewrite update_inst_in_range by lia. cbn [bind].
    eexists. split.
    { f_equal. f_equal. rewrite length_app. cbn [length]. lia. }
    unfold emitted. cbn. repeat split; try lia.
    - intros i Hi. rewrite !list_lookup_alter_ne by lia. done.
    - rewrite !list_lookup_alter_eq in H.
      destruct (instructions o !! Z.to_nat (nInst o)); simplify_eq/=; done.
    - rewrite !list_lookup_alter_eq in H.
      destruct (instructions o !! Z.to_nat (nInst o)); simplify_eq/=; done. }
  destruct Hrun as (o' & Ho' & Hem). exists o'. split; [done|].
  pose proof (parseArgDefPositional_length _ _ _ _ _ Ho') as Hkeeps.
  eapply emitted_extends; [exact Hem|done|done|].
  intros inst [Ht Ha]. unfold decode. rewrite Ht, Ha. done.
Qed.

Lemma typeFromChar_letter dev k : typeFromChar dev (letter k) = Ret (kind_type k).
Proof. destruct k; reflexivity. Qed.

Lemma kind_type_not_FormatStr k : Type_eqb (kind_type k) Type_FormatStr = false.
Proof. by destruct k. Qed.

(** A percent directive at offset [length X]. *)
Lemma parseArgDefPerc_letter dev o (X R : text) (k : PercKind) :
  format o = X ++ "%"%char :: letter k :: R ->
  array_ok o ->
  nInst o < dimof_instructions ->
  exists o',
    parseArgDefPerc dev o (length X) = Ret (o', (length X + 2)%nat) /\
    extends o o' [A_arg (kind_type k) (currPercArgNo o)] 1.
Proof.
  intros Hfmt Hok Hcap.
  assert (Hrun : exists o', parseArgDefPerc dev o (length X)
                            = Ret (o', (length X + 2)%nat) /\
           emitted (fun inst => t inst = kind_type k /\
                                argNo inst = currPercArgNo o) o o').
  { assert (Hd0 : deref (format o) (length X) = Ret "%"%char)
      by (rewrite Hfmt; apply deref_app).
    assert (Hd1 : deref (format o) (S (length X)) = Ret (letter k)).
    { replace (S (length X)) with (length (X ++ ["%"%char]))
        by (rewrite length_app; simpl; lia).
      rewrite Hfmt.
      replace (X ++ "%"%char :: letter k :: R)
        with ((X ++ ["%"%char]) ++ letter k :: R) by by rewrite <- app_assoc.
      apply deref_app. }
    unfold parseArgDefPerc. rewrite Hd0.
    cbn [bind]. change (negb (Ascii.eqb "%" "%")) with false.
    rewrite CrashIf_false. cbn [bind].
    rewrite Hd1. cbn [bind]. rewrite typeFromChar_letter. cbn [bind].
    destruct Hok as [H0 Hlen].
    rewrite update_inst_in_range by lia. cbn [bind set_instructions nInst].
    rewrite update_inst_in_range by lia. cbn [bind].
    eexists. split.
    { f_equal. apply pair_equal_spec. split; [reflexivity|lia]. }
    unfold emitted. cbn. repeat split; try lia.
    - intros i Hi. rewrite !list_lookup_alter_ne by lia. done.
    - rewrite !list_lookup_alter_eq in H.
      destruct (instructions o !! Z.to_nat (nInst o)); simplify_eq/=; done.
    - rewrite !list_lookup_alter_eq in H.
      destruct (instructions o !! Z.to_nat (nInst o)); simplify_eq/=; done. }
  destruct Hrun as (o' & Ho' & Hem). exists o'. split; [done|].
  pose proof (parseArgDefPerc_length _ _ _ _ _ Ho') as Hkeeps.
  eapply emitted_extends; [exact Hem|done|done|].
  intros inst [Ht Ha]. unfold decode.
  rewrite Ht, Ha, kind_type_not_FormatStr. done.
Qed.

(** ** The scan over the pieces of a template *)

Lemma forallb_plain (s : text) :
  forallb plain s = true -> Forall (fun c => plain c = true) s.
Proof.
  induction s as [|c s IH]; cbn [forallb]; intros H; [constructor|].
  apply andb_prop in H as [Hc Hs]. constructor; auto.
Qed.

Lemma letter_not_perc k : Ascii.eqb "%" (letter k) = false.
Proof. by destruct k. Qed.

Lemma deref_at (A R : text) (c : ascii) (o : Fmt) (p : nat) :
  format o = A ++ c :: R -> p = length A -> deref (format o) p = Ret c.
Proof. intros -> ->. apply deref_app. Qed.

(** The scan of a well-formed template emits the program of its pieces;
    [A] is the text before the pending run [P]. *)
Lemma ParseFormat_scan_pieces dev :
  forall (ps : list Piece) (A P : text) (o : Fmt) (fuel : nat),
    forallb piece_ok ps = true ->
    format o = A ++ P ++ render ps ->
    array_ok o ->
    nInst o + Z.of_nat (length (pieces_program P (currPercArgNo o) ps))
      <= dimof_instructions ->
    (length (render ps) < fuel)%nat ->
    exists o' dk,
      ParseFormat_scan_flush dev fuel o (length A) (length A + length P) = Ret o' /\
      extends o o' (pieces_program P (currPercArgNo o) ps) dk.
Proof.
  induction ps as [|p ps IH]; intros A P o fuel Hok Hfmt Harr Hcap Hfuel.
  - (* the end of the template *)
    destruct fuel as [|fuel]; [simpl in Hfuel; lia|].
    cbn [render map concat] in Hfmt. rewrite app_nil_r in Hfmt.
    unfold ParseFormat_scan_flush. cbn [ParseFormat_scan].
    replace (length A + length P)%nat with (length (format o))
      by (rewrite Hfmt, length_app; done).
    rewrite deref_end. cbn [bind]. change (Ascii.eqb NUL NUL) with true.
    cbv iota. cbn [bind].
    replace (length (format o) - length A)%nat with (length P)
      by (rewrite Hfmt, length_app; lia).
    cbn [pieces_program] in Hcap |- *.
    destruct (addFormatStr_flush dev o A P []) as (o' & Ho' & Hext);
      [by rewrite app_nil_r|done|done|].
    exists o', 0. done.
  - cbn [forallb] in Hok. apply andb_prop in Hok as [Hp Hok].
    assert (Hfmt' : format o = (A ++ P) ++ render_piece p ++ render ps).
    { rewrite Hfmt. cbn [render map concat]. by rewrite <- app_assoc. }
    assert (Hlen : length (render (p :: ps))
                   = (length (render_piece p) + length (render ps))%nat).
    { cbn [render map concat]. by rewrite length_app. }
    rewrite Hlen in Hfuel. clear Hlen.
    assert (Hpos : (length A + length P)%nat = length (A ++ P))
      by by rewrite length_app.
    destruct p as [s| | |ds|k]; cbn [render_piece] in Hfmt', Hfuel.
    + (* plain text *)
      cbn [piece_ok] in Hp. apply forallb_plain in Hp.
      unfold ParseFormat_scan_flush.
      replace fuel with (length s + (fuel - length s))%nat by lia.
      rewrite Hpos.
      rewrite (ParseFormat_scan_plain dev s (A ++ P) (render ps) o); [|done|done].
      cbn [pieces_program] in Hcap |- *.
      destruct (IH A (P ++ s) o (fuel - length s)%nat) as (o' & dk & Ho' & Hext);
        [done| |done|done|lia|].
      { rewrite Hfmt'. by rewrite <- !app_assoc. }
      exists o', dk. split; [|done].
      unfold ParseFormat_scan_flush in Ho'.
      rewrite length_app in Ho' |- *. rewrite <- Ho'. do 2 f_equal. lia.
    + (* the escape of a brace *)
      destruct fuel as [|fuel]; [lia|]. cbn [length] in Hfuel.
      cbn [pieces_program] in Hcap |- *. rewrite length_app in Hcap.
      unfold ParseFormat_scan_flush. cbn [ParseFormat_scan].
      rewrite (deref_at (A ++ P) ("{"%char :: render ps) "\"%char o) by done.
      cbn [bind]. change (Ascii.eqb "\" NUL) with false.
      change (Ascii.eqb "\" "\") with true. cbv iota.
      rewrite (deref_at ((A ++ P) ++ ["\"%char]) (render ps) "{"%char o).
      2:{ rewrite Hfmt'. by rewrite <- !app_assoc. }
      2:{ rewrite !length_app. simpl. lia. }
      cbn [bind]. change (Ascii.eqb "{" "{") with true. cbv iota.
      replace (length A + length P - length A)%nat with (length P) by lia.
      destruct (addFormatStr_flush dev o A P (render (P_esc_brace :: ps)))
        as (o1 & Ho1 & Hext1); [done|done|lia|].
      rewrite Ho1. cbn [bind].
      pose proof Hext1 as (Hf1 & _ & Hn1 & _ & Hp1 & _).
      destruct (IH ((A ++ P) ++ ["\"%char]) ["{"%char] o1 fuel)
        as (o' & dk & Ho' & Hext); [done| | | |lia|].
      { rewrite Hf1, Hfmt'. by rewrite <- !app_assoc. }
      { eapply extends_array_ok; done. }
      { rewrite Hp1, Z.add_0_r. lia. }
      exists o', (0 + dk). split.
      * unfold ParseFormat_scan_flush in Ho'. rewrite <- Ho'.
        rewrite !length_app. cbn [length]. do 2 f_equal; lia.
      * rewrite Hp1, Z.add_0_r in Hext. eapply extends_trans; done.
    + (* the escape of a percent sign *)
      destruct fuel as [|fuel]; [lia|]. cbn [length] in Hfuel.
      cbn [pieces_program] in Hcap |- *. rewrite length_app in Hcap.
      unfold ParseFormat_scan_flush. cbn [ParseFormat_scan].
      rewrite (deref_at (A ++ P) ("%"%char :: render ps) "%"%char o) by done.
      cbn [bind]. change (Ascii.eqb "%" NUL) with false.
      change (Ascii.eqb "\" "%") with false.
      change (Ascii.eqb "{" "%") with false.
      change (Ascii.eqb "%" "%") with true. cbv iota.
      rewrite (deref_at ((A ++ P) ++ ["%"%char]) (render ps) "%"%char o).
      2:{ rewrite Hfmt'. by rewrite <- !app_assoc. }
      2:{ rewrite !length_app. simpl. lia. }
      cbn [bind]. change (Ascii.eqb "%" "%") with true. cbv iota.
      replace (length A + length P - length A)%nat with (length P) by lia.
      destruct (addFormatStr_flush dev o A P (render (P_esc_perc :: ps)))
        as (o1 & Ho1 & Hext1); [done|done|lia|].
      rewrite Ho1. cbn [bind].
      pose proof Hext1 as (Hf1 & _ & Hn1 & _ & Hp1 & _).
      destruct (IH ((A ++ P) ++ ["%"%char]) ["%"%char] o1 fuel)
        as (o' & dk & Ho' & Hext); [done| | | |lia|].
      { rewrite Hf1, Hfmt'. by rewrite <- !app_assoc. }
      { eapply extends_array_ok; done. }
      { rewrite Hp1, Z.add_0_r. lia. }
      exists o', (0 + dk). split.
      * unfold ParseFormat_scan_flush in Ho'. rewrite <- Ho'.
        rewrite !length_app. cbn [length]. do 2 f_equal; lia.
      * rewrite Hp1, Z.add_0_r in Hext. eapply extends_trans; done.
    + (* a positional directive *)
      destruct fuel as [|fuel]; [lia|].
      cbn [length] in Hfuel. rewrite length_app in Hfuel. cbn [length] in Hfuel.
      cbn [piece_ok] in Hp. apply andb_prop in Hp as [Hds Hv].
      apply Z.ltb_lt in Hv.
      cbn [pieces_program] in Hcap |- *. rewrite length_app in Hcap.
      cbn [length] in Hcap.
      unfold ParseFormat_scan_flush. cbn [ParseFormat_scan].
      rewrite (deref_at (A ++ P) ((ds ++ ["}"%char]) ++ render ps) "{"%char o)
        by done.
      cbn [bind]. change (Ascii.eqb "{" NUL) with false.
      change (Ascii.eqb "\" "{") with false.
      change (Ascii.eqb "{" "{") with true. cbv iota.
      replace (length A + length P - length A)%nat with (length P) by lia.
      destruct (addFormatStr_flush dev o A P (render (P_pos ds :: ps)))
        as (o1 & Ho1 & Hext1); [done|done|lia|].
      rewrite Ho1. cbn [bind].
      pose proof Hext1 as (Hf1 & _ & Hn1 & _ & Hp1 & _).
      assert (Harr1 : array_ok o1) by (eapply extends_array_ok; done).
      rewrite Hpos.
      destruct (parseArgDefPositional_digits dev o1 (A ++ P) ds (render ps))
        as (o2 & Ho2 & Hext2); [|done|done|done|lia|].
      { rewrite Hf1, Hfmt'. f_equal. simpl. by rewrite <- app_assoc. }
      rewrite Ho2. cbn [bind].
      pose proof Hext2 as (Hf2 & _ & Hn2 & _ & Hp2 & _).
      destruct (IH ((A ++ P) ++ "{"%char :: ds ++ ["}"%char]) [] o2 fuel)
        as (o' & dk & Ho' & Hext); [done| | | |lia|].
      { rewrite Hf2, Hf1, Hfmt'. rewrite <- !app_assoc. do 2 f_equal. }
      { eapply extends_array_ok; done. }
      { rewrite Hp2, Hp1, !Z.add_0_r. cbn [length] in Hn2. lia. }
      exists o', (0 + (0 + dk)). split.
      * unfold ParseFormat_scan_flush in Ho'. rewrite <- Ho'.
        rewrite !length_app. cbn [length]. rewrite !length_app. cbn [length].
        do 2 f_equal; lia.
      * rewrite Hp2, Hp1, !Z.add_0_r in Hext.
        eapply extends_trans; [done|].
        change (A_arg Type_Any (digits_value ds)
                  :: pieces_program [] (currPercArgNo o) ps)
          with ([A_arg Type_Any (digits_value ds)]
                  ++ pieces_program [] (currPercArgNo o) ps).
        eapply extends_trans; done.
    + (* a percent directive *)
      destruct fuel as [|fuel]; [lia|]. cbn [length] in Hfuel.
      cbn [pieces_program] in Hcap |- *. rewrite length_app in Hcap.
      cbn [length] in Hcap.
      unfold ParseFormat_scan_flush. cbn [ParseFormat_scan].
      rewrite (deref_at (A ++ P) (letter k :: render ps) "%"%char o) by done.
      cbn [bind]. change (Ascii.eqb "%" NUL) with false.
      change (Ascii.eqb "\" "%") with false.
      change (Ascii.eqb "{" "%") with false.
      change (Ascii.eqb "%" "%") with true. cbv iota.
      rewrite (deref_at ((A ++ P) ++ ["%"%char]) (render ps) (letter k) o).
      2:{ rewrite Hfmt'. by rewrite <- !app_assoc. }
      2:{ rewrite !length_app. simpl. lia. }
      cbn [bind]. rewrite letter_not_perc.
      replace (length A + length P - length A)%nat with (length P) by lia.
      destruct (addFormatStr_flush dev o A P (render (P_perc k :: ps)))
        as (o1 & Ho1 & Hext1); [done|done|lia|].
      rewrite Ho1. cbn [bind].
      pose proof Hext1 as (Hf1 & _ & Hn1 & _ & Hp1 & _).
      assert (Harr1 : array_ok o1) by (eapply extends_array_ok; done).
      rewrite Hpos.
      destruct (parseArgDefPerc_letter dev o1 (A ++ P) (render ps) k)
        as (o2 & Ho2 & Hext2); [|done|lia|].
      { rewrite Hf1, Hfmt'. by rewrite <- !app_assoc. }
      rewrite Ho2. cbn [bind].
      pose proof Hext2 as (Hf2 & _ & Hn2 & _ & Hp2 & _).
      destruct (IH ((A ++ P) ++ ["%"%char; letter k]) [] o2 fuel)
        as (o' & dk & Ho' & Hext); [done| | | |lia|].
      { rewrite Hf2, Hf1, Hfmt'. by rewrite <- !app_assoc. }
      { eapply extends_array_ok; done. }
      { rewrite Hp2, Hp1, !Z.add_0_r. cbn [length] in Hn2. lia. }
      exists o', (0 + (1 + dk)). split.
      * unfold ParseFormat_scan_flush in Ho'. rewrite <- Ho'.
        rewrite !length_app. cbn [length]. do 2 f_equal; lia.
      * rewrite Hp2, Hp1, !Z.add_0_r in Hext.
        eapply extends_trans; [done|].
        rewrite Hp1, Z.add_0_r in Hext2.
        change (A_arg (kind_type k) (currPercArgNo o)
                  :: pieces_program [] (currPercArgNo o + 1) ps)
          with ([A_arg (kind_type k) (currPercArgNo o)]
                  ++ pieces_program [] (currPercArgNo o + 1) ps).
        eapply extends_trans; done.
Qed.

(** ** The loops after the scan *)

Lemma inst_at_progress o (i : nat) :
  array_ok o -> Z.of_nat i < dimof_instructions ->
  exists inst, inst_at o (Z.of_nat i) = Ret inst /\ instructions o !! i = Some inst.
Proof.
  intros [_ Hlen] Hi.
  destruct (lookup_lt_is_Some_2 (instructions o) i) as [inst Hinst]; [lia|].
  exists inst. split; [|done]. by apply inst_at_lookup.
Qed.

Lemma hasInstructionWithArgNo_loop_progress o (a : Z) :
  array_ok o ->
  forall (k i : nat), Z.of_nat (i + k) <= dimof_instructions ->
    exists b, hasInstructionWithArgNo_loop k o (Z.of_nat i) a = Ret b.
Proof.
  intros Harr. induction k as [|k IH]; intros i Hk; [by exists false|].
  cbn [hasInstructionWithArgNo_loop].
  destruct (inst_at_progress o i Harr) as (inst & -> & _); [lia|].
  cbn [bind]. destruct (argNo inst =? a); [by exists true|].
  replace (Z.of_nat i + 1) with (Z.of_nat (S i)) by lia.
  apply IH. lia.
Qed.

Lemma maxArgNo_loop_progress o :
  array_ok o ->
  forall (k i : nat) (m0 : Z), Z.of_nat (i + k) <= dimof_instructions ->
    exists m, maxArgNo_loop k o (Z.of_nat i) m0 = Ret m.
Proof.
  intros Harr. induction k as [|k IH]; intros i m0 Hk; [by exists m0|].
  cbn [maxArgNo_loop].
  destruct (inst_at_progress o i Harr) as (inst & -> & _); [lia|].
  cbn [bind]. replace (Z.of_nat i + 1) with (Z.of_nat (S i)) by lia.
  destruct (Type_eqb (t inst) Type_FormatStr); [apply IH; lia|].
  destruct (argNo inst >? m0); apply IH; lia.
Qed.

(** The coverage loop over a program that fits the array: it returns
    [true] when every index of its range is referenced; otherwise it
    returns [false] in a release build and crashes in an asserting one. *)
Lemma coverage_loop_run dev o :
  array_ok o -> nInst o <= dimof_instructions ->
  forall (k : nat) (i : Z),
    (forall j, i <= j < i + Z.of_nat k -> references o j) /\
      coverage_loop dev k o i = Ret true
    \/
    ~ (forall j, i <= j < i + Z.of_nat k -> references o j) /\
      coverage_loop dev k o i = if dev then Crash else Ret false.
Proof.
  intros Harr Hcap. induction k as [|k IH]; intros i.
  - left. split; [intros j Hj; lia|done].
  - cbn [coverage_loop].
    destruct (hasInstructionWithArgNo_loop_progress o i Harr
                (Z.to_nat (nInst o)) 0%nat) as [b Hb];
      [destruct Harr; lia|].
    unfold hasInstructionWithArgNo. change (Z.of_nat 0) with 0 in Hb.
    rewrite Hb. cbn [bind].
    apply (hasInstructionWithArgNo_spec o i b) in Hb.
    destruct b; cbn [negb].
    + rewrite CrashIf_false. cbn [bind].
      destruct (IH (i + 1)) as [[Hall ->]|[Hnot ->]].
      * left. split; [|done]. intros j Hj.
        destruct (decide (j = i)) as [->|]; [by apply Hb|]. apply Hall. lia.
      * right. split; [|done]. intros Hall. apply Hnot.
        intros j Hj. apply Hall. lia.
    + right. split.
      * intros Hall. assert (false = true); [|done].
        apply Hb. apply Hall. lia.
      * unfold CrashIf. by destruct dev.
Qed.

(** ** The indices of a program *)

Lemma flush_index P : omap ainst_index (flush P) = [].
Proof. by destruct P. Qed.

Lemma pieces_program_indices (ps : list Piece) :
  forall P k, omap ainst_index (pieces_program P k ps) = directive_indices k ps.
Proof.
  induction ps as [|p ps IH]; intros P k; cbn [pieces_program directive_indices].
  - apply flush_index.
  - destruct p; rewrite ?omap_app, ?flush_index; cbn; rewrite ?IH; done.
Qed.

Lemma fold_max_spec (ixs : list Z) :
  let M := fold_right Z.max 0 ixs in
  0 <= M /\ (forall x, x ∈ ixs -> x <= M) /\ (M = 0 \/ M ∈ ixs).
Proof.
  induction ixs as [|x ixs (H0 & Hub & Hin)]; cbn [fold_right].
  - split; [lia|]. split; [intros x Hx; by apply elem_of_nil in Hx|by left].
  - split; [lia|]. split.
    + intros y Hy. apply elem_of_cons in Hy as [->|Hy]; [lia|].
      specialize (Hub y Hy). lia.
    + destruct (Z.max_spec x (fold_right Z.max 0 ixs)) as [[_ ->]|[_ ->]].
      * destruct Hin as [->|Hin]; [by left|]. right. by apply elem_of_cons; right.
      * right. apply elem_of_cons. by left.
Qed.

Lemma indices_covered_spec (ixs : list Z) :
  indices_covered ixs = true <->
  forall j, 0 <= j <= fold_right Z.max 0 ixs -> j ∈ ixs.
Proof.
  unfold indices_covered. rewrite forallb_forall. split.
  - intros H j Hj. specialize (H (Z.to_nat j)).
    rewrite existsb_exists in H.
    destruct H as (x & Hx & Hxj).
    + apply in_seq. lia.
    + apply Z.eqb_eq in Hxj. apply list_elem_of_In in Hx.
      replace j with x by lia. done.
  - intros H i Hi. apply in_seq in Hi. apply existsb_exists.
    exists (Z.of_nat i). split; [|by apply Z.eqb_eq].
    apply list_elem_of_In. apply H. lia.
Qed.

Lemma elem_of_map {A B} (f : A -> B) (l : list A) (y : B) :
  y ∈ map f l <-> exists x, y = f x /\ x ∈ l.
Proof.
  rewrite list_elem_of_In, in_map_iff. split.
  - intros (x & <- & Hx). exists x. by rewrite list_elem_of_In.
  - intros (x & -> & Hx). exists x. by rewrite <- list_elem_of_In.
Qed.

(** In a program whose literals have index -1, the instructions with
    index [j >= 0] are the argument references of the decoded program. *)
Lemma references_decode (T : text) o (j : Z) :
  compiled_inv o -> 0 <= j ->
  references o j <-> j ∈ omap ainst_index (map (decode T) (program o)).
Proof.
  intros (_ & _ & Hlit) Hj. unfold references.
  rewrite list_elem_of_omap. split.
  - intros (inst & Hin & Ha). exists (decode T inst). split.
    + apply elem_of_map. eauto.
    + unfold decode. destruct (Type_eqb (t inst) Type_FormatStr) eqn:Ht.
      * apply list_elem_of_lookup in Hin as [i Hi].
        apply program_lookup in Hi as [Hi Hlt].
        destruct (Hlit i inst Hlt Hi) as [Hneg _]; [by destruct (t inst)|]. lia.
      * cbn. by rewrite Ha.
  - intros (a & Hin & Ha). apply elem_of_map in Hin as (inst & -> & Hin).
    exists inst. split; [done|]. unfold decode in Ha.
    destruct (Type_eqb (t inst) Type_FormatStr); cbn in Ha; congruence.
Qed.

(** The maximum that the code computes is the greatest index of the
    decoded program, or 0. *)
Lemma maxArgNo_loop_decode (T : text) o (m : Z) :
  compiled_inv o ->
  maxArgNo_loop (Z.to_nat (nInst o)) o 0 0 = Ret m ->
  m = fold_right Z.max 0 (omap ainst_index (map (decode T) (program o))).
Proof.
  intros Hinv Hm.
  apply (maxArgNo_loop_spec o _ 0%nat) in Hm as (Hle & Hub & Hwit).
  pose proof (fold_max_spec (omap ainst_index (map (decode T) (program o))))
    as (H0 & HubM & HinM). cbv zeta in *.
  set (M := fold_right Z.max 0 _) in *.
  assert (Hm_le : m <= M).
  { destruct Hwit as [->|(p & inst & Hp & Hl & Hnl & Ha)]; [done|].
    apply HubM. apply list_elem_of_omap. exists (decode T inst). split.
    - apply elem_of_map. exists inst. split; [done|].
      apply list_elem_of_lookup. exists p. apply program_lookup. split; [done|lia].
    - unfold decode. destruct (Type_eqb (t inst) Type_FormatStr) eqn:Ht.
      + exfalso. apply Hnl. by destruct (t inst).
      + cbn. by rewrite Ha. }
  assert (HM_le : M <= m).
  { destruct HinM as [->|HinM]; [done|].
    apply list_elem_of_omap in HinM as (a & Hin & Ha).
    apply elem_of_map in Hin as (inst & -> & Hin).
    apply list_elem_of_lookup in Hin as [p Hp].
    apply program_lookup in Hp as [Hl Hp]. unfold decode in Ha.
    destruct (Type_eqb (t inst) Type_FormatStr) eqn:Ht; cbn in Ha; [done|].
    injection Ha as <-. apply (Hub p inst); [lia|done|].
    intros Heq. by rewrite Heq in Ht. }
  lia.
Qed.

(** ** Compiling a well-formed template *)

(** [Fmt::Fmt] on the template of a list of well-formed pieces whose
    program fits the array: the scan ends, the program is the program of
    the pieces, and [isOk] says whether the indices of the directives are
    covered; when they are not, an asserting build crashes instead. *)
Lemma Fmt_new_pieces dev (ps : list Piece) (fuel : nat) :
  forallb piece_ok ps = true ->
  Z.of_nat (length (pieces_program [] 0 ps)) <= dimof_instructions ->
  (length (render ps) < fuel)%nat ->
  exists o,
    Fmt_new dev fuel (render ps)
      = (if isOk o then Ret o else if dev then Crash else Ret o) /\
    isOk o = indices_covered (directive_indices 0 ps) /\
    format o = render ps /\ res o = [] /\
    array_ok o /\ nInst o <= dimof_instructions /\ compiled_inv o /\
    map (decode (render ps)) (program o) = pieces_program [] 0 ps.
Proof.
  intros Hok Hcap Hfuel.
  set (o0 := set_res [] (set_currArgNo 0 (set_currPercArgNo 0
               (set_nInst 0 (set_format (render ps) Fmt_init))))).
  assert (Harr0 : array_ok o0) by (split; [cbn; lia|reflexivity]).
  assert (Hinv0 : compiled_inv o0).
  { split; [cbn; unfold dimof_instructions; lia|]. split; [done|].
    intros i inst Hi. cbn in Hi. lia. }
  destruct (ParseFormat_scan_pieces dev ps [] [] o0 fuel)
    as (o' & dk & Hrun & Hext); [done|done|done|cbn; lia|done|].
  change (currPercArgNo o0) with 0 in Hext.
  unfold ParseFormat_scan_flush in Hrun. cbn [length Nat.add] in Hrun.
  pose proof Hrun as Hrun'.
  inv_bind Hrun'. destruct a as [[o1 start1] fmt1].
  destruct (ParseFormat_scan_inv dev fuel o0 0%nat 0%nat o1 start1 fmt1 Hrun0 Hinv0)
    as [Hinv1 _].
  destruct (addFormatStr_inv dev o1 start1 (fmt1 - start1) o' Hrun' Hinv1)
    as [Hinv' _].
  destruct Hext as (Hf & Hlen & Hn & Hcur & _ & Hprog & Hres & HisOk).
  change (format o0) with (render ps) in Hf, Hprog.
  change (program o0) with (@nil Inst) in Hprog. cbn [map app] in Hprog.
  assert (Harr' : array_ok o').
  { split; [cbn in Hn; lia|]. rewrite Hlen. reflexivity. }
  assert (Hcap' : nInst o' <= dimof_instructions) by (cbn in Hn; lia).
  destruct (maxArgNo_loop_progress o' Harr' (Z.to_nat (nInst o')) 0%nat 0)
    as [m Hm]; [destruct Harr'; lia|].
  change (Z.of_nat 0) with 0 in Hm.
  pose proof (maxArgNo_loop_decode (render ps) o' m Hinv' Hm) as HmM.
  rewrite Hprog, pieces_program_indices in HmM.
  set (ixs := directive_indices 0 ps) in *.
  assert (Hcov : (forall j, 0 <= j < 0 + Z.of_nat (Z.to_nat (m + 1)) ->
                            references o' j)
                 <-> indices_covered ixs = true).
  { rewrite indices_covered_spec. rewrite <- HmM.
    pose proof (fold_max_spec ixs) as (H0 & _). cbv zeta in H0.
    rewrite <- HmM in H0. split.
    - intros H j Hj. specialize (H j ltac:(lia)).
      apply (references_decode (render ps)) in H; [|done|lia].
      by rewrite Hprog, pieces_program_indices in H.
    - intros H j Hj. apply (references_decode (render ps)); [done|lia|].
      rewrite Hprog, pieces_program_indices. apply H. lia. }
  exists (set_isOk (indices_covered ixs) o').
  split; [|split; [reflexivity|]; split; [exact Hf|]; split; [exact Hres|];
            split; [exact Harr'|]; split; [exact Hcap'|];
            split; [exact Hinv'|exact Hprog]].
  unfold Fmt_new, ParseFormat. fold o0. rewrite Hrun0. cbn [bind].
  rewrite Hrun'. cbn [bind].
  assert (Hcur' : currArgNo o' = 0) by apply Hinv'.
  rewrite Hcur', Hm. cbn [bind].
  destruct (coverage_loop_run dev o' Harr' Hcap' (Z.to_nat (m + 1)) 0)
    as [[Hall ->]|[Hnot ->]].
  - apply Hcov in Hall. rewrite Hall. reflexivity.
  - assert (Hfalse : indices_covered ixs = false).
    { destruct (indices_covered ixs); [|done]. exfalso. by apply Hnot, Hcov. }
    rewrite Hfalse. cbn [set_isOk isOk]. destruct dev; reflexivity.
Qed.

(** ** Evaluating a program *)

Lemma program_length o :
  array_ok o -> nInst o <= dimof_instructions ->
  length (program o) = Z.to_nat (nInst o).
Proof.
  intros [H0 Hlen] Hcap. unfold program. rewrite length_take. lia.
Qed.





(** ** The text of the pieces *)





(** ** Trailing [None] arguments *)



(** ** Formatting a well-formed template *)




(** X1: Compiling a well-formed template.  [ps] is a list of pieces: plain
    text, the escapes, positional directives whose digits denote a number
    that fits an [int], and percent directives.  If their program fits
    the 32 slots, [Fmt::Fmt] on their template ends (with fuel above the
    length of the template), leaves exactly the program of the pieces,
    one literal per maximal literal run and one instruction per
    directive, and sets [isOk] to whether the indices are covered; when
    they are not, an asserting build crashes instead. *)
Theorem Fmt_new_wellformed dev (ps : list Piece) (fuel : nat) :
  forallb piece_ok ps = true ->
  Z.of_nat (length (pieces_program [] 0 ps)) <= dimof_instructions ->
  (length (render ps) < fuel)%nat ->
  exists o,
    Fmt_new dev fuel (render ps)
      = (if isOk o then Ret o else if dev then Crash else Ret o) /\
    isOk o = indices_covered (directive_indices 0 ps) /\
    map (decode (render ps)) (program o) = pieces_program [] 0 ps /\
    nInst o = Z.of_nat (length (pieces_program [] 0 ps)) /\
    format o = render ps /\ res o = [].
Proof.
  intros Hok Hcap Hfuel.
  destruct (Fmt_new_pieces dev ps fuel Hok Hcap Hfuel)
    as (o & Hnew & HisOk & Hf & Hres & Harr & Hcap' & Hinv & Hprog).
  exists o. repeat split; try done.
  rewrite <- Hprog, length_map, (program_length o Harr Hcap').
  destruct Harr. lia.
Qed.


Lemma Fmt_new_wellformed_witness :
  exists o,
    Fmt_new true 40 (render pieces_page)
      = (if isOk o then Ret o else if true then Crash else Ret o) /\
    isOk o = indices_covered (directive_indices 0 pieces_page) /\
    map (decode (render pieces_page)) (program o)
      = pieces_program [] 0 pieces_page /\
    nInst o = Z.of_nat (length (pieces_program [] 0 pieces_page)) /\
    format o = render pieces_page /\ res o = [].
Proof.
  apply (Fmt_new_wellformed true pieces_page 40).
  - reflexivity.
  - cbn. unfold dimof_instructions. lia.
  - cbn. lia.
Defined.


(** ** Templates of percent directives *)

Lemma directive_indices_perc (ps : list Piece) :
  no_positional ps = true ->
  forall k, directive_indices k ps = seqZ k (Z.of_nat (count_perc ps)).
Proof.
  unfold no_positional.
  induction ps as [|p ps IH]; intros Hno k; [done|].
  cbn [forallb] in Hno. apply andb_prop in Hno as [Hp Hno].
  destruct p as [s| | |ds|c]; cbn [directive_indices count_perc]; eauto.
  - discriminate.
  - rewrite (seqZ_cons k) by lia. rewrite (IH Hno). do 2 f_equal; lia.
Qed.

Lemma indices_covered_seqZ (n : Z) :
  indices_covered (seqZ 0 n) = (0 <? n).
Proof.
  destruct (Z.ltb_spec 0 n) as [Hn|Hn].
  - apply indices_covered_spec. intros j Hj.
    pose proof (fold_max_spec (seqZ 0 n)) as (_ & _ & Hin). cbv zeta in Hin.
    apply elem_of_seqZ. destruct Hin as [HM|HM]; [lia|].
    apply elem_of_seqZ in HM. lia.
  - destruct (indices_covered (seqZ 0 n)) eqn:Hc; [|done].
    pose proof (proj1 (indices_covered_spec _) Hc 0) as H0.
    rewrite seqZ_nil in H0 by lia. cbn in H0.
    specialize (H0 ltac:(lia)). by apply elem_of_nil in H0.
Qed.

(** X3: Percent directives take the arguments in order.  In a well-formed
    template without positional directives that fits the 32 slots, the
    argument indices of the compiled program are 0, 1, 2, ... in the order
    of the directives, whatever their letters; compilation succeeds
    exactly when there is at least one directive (an asserting build
    crashes when there is none). *)
Theorem Fmt_new_percent_sequential dev (ps : list Piece) (fuel : nat) :
  forallb piece_ok ps = true ->
  no_positional ps = true ->
  Z.of_nat (length (pieces_program [] 0 ps)) <= dimof_instructions ->
  (length (render ps) < fuel)%nat ->
  exists o,
    Fmt_new dev fuel (render ps)
      = (if isOk o then Ret o else if dev then Crash else Ret o) /\
    isOk o = (0 <? Z.of_nat (count_perc ps)) /\
    omap ainst_index (map (decode (render ps)) (program o))
      = seqZ 0 (Z.of_nat (count_perc ps)).
Proof.
  intros Hok Hno Hcap Hfuel.
  destruct (Fmt_new_pieces dev ps fuel Hok Hcap Hfuel)
    as (o & Hnew & HisOk & _ & _ & _ & _ & _ & Hprog).
  exists o. split; [done|].
  rewrite HisOk, Hprog, pieces_program_indices, (directive_indices_perc ps Hno).
  split; [apply indices_covered_seqZ|done].
Qed.

Lemma Fmt_new_percent_sequential_witness :
  exists o,
    Fmt_new true 40 (lit "%s: %d%%")
      = (if isOk o then Ret o else if true then Crash else Ret o) /\
    isOk o = true /\
    omap ainst_index (map (decode (lit "%s: %d%%")) (program o)) = [0; 1].
Proof.
  apply (Fmt_new_percent_sequential true
           [P_perc K_s; P_text (lit ": "); P_perc K_d; P_esc_perc] 40).
  - reflexivity.
  - reflexivity.
  - cbn. unfold dimof_instructions. lia.
  - cbn. lia.
Defined.

(** ** What a successful evaluation has checked *)

Lemma Eval_loop_sound dev G1 G2 U (args : list Arg) (nArgs : Z) :
  forall (k n : nat) (o1 o1' : Fmt),
    Eval_loop dev G1 G2 U k o1 args nArgs (Z.of_nat n) = Ret (true, o1') ->
    forall j, (n <= j < n + k)%nat ->
      exists inst, instructions o1 !! j = Some inst /\
                   inst_checked args nArgs inst.
Proof.
  induction k as [|k IH]; intros n o1 o1' Hrun j Hj; [lia|].
  cbn [Eval_loop] in Hrun.
  inv_bind Hrun. clear Hrun0. inv_bind Hrun. clear Hrun0.
  inv_bind Hrun. apply inst_at_Ret in Hrun0 as [_ Hl]. rewrite Nat2Z.id in Hl.
  inv_bind Hrun. clear Hrun0.
  destruct (Z.geb_spec (argNo a1) nArgs) as [|Hlt]; [discriminate|].
  replace (Z.of_nat n + 1) with (Z.of_nat (S n)) in Hrun by lia.
  destruct (Type_eqb (t a1) Type_FormatStr) eqn:Ht.
  - destruct (decide (j = n)) as [->|Hne].
    + exists a1. split; [done|]. split; [done|].
      intros Hnl. exfalso. apply Hnl. by destruct (t a1).
    + apply (IH _ _ _ Hrun j). lia.
  - inv_bind Hrun. cbn [set_isOk isOk] in Hrun.
    destruct (validArgTypes (t a1) (Arg_t a3)) eqn:Hvalid; cbn [negb] in Hrun.
    2:{ destruct (CrashIf dev true); discriminate. }
    rewrite CrashIf_false in Hrun. cbn [bind] in Hrun.
    destruct (decide (j = n)) as [->|Hne].
    + exists a1. split; [done|]. split; [done|]. intros _.
      unfold arg_at in Hrun0.
      destruct (Z.leb_spec 0 (argNo a1)); [|discriminate].
      split; [done|].
      destruct (args !! Z.to_nat (argNo a1)) as [arg|]; [|discriminate].
      injection Hrun0 as ->. eauto.
    + apply (IH _ _ _ Hrun j). lia.
Qed.

(** X4: [Eval] returns [true] only if it has checked every instruction of the
    program: the index is below [nArgs] and, for an instruction that is
    not a literal, the index is not negative, the argument is in the
    array, and its type is one the instruction accepts.  So a template
    that refers to an argument beyond [nArgs], or whose directive meets
    an argument of the wrong type, never yields text. *)
Theorem Eval_true_checked dev G1 G2 U (o : Fmt) (args : list Arg) (nArgs : Z)
    (o' : Fmt) :
  Eval dev G1 G2 U o args nArgs = Ret (true, o') ->
  isOk o = true /\
  forall inst, inst ∈ program o -> inst_checked args nArgs inst.
Proof.
  unfold Eval. destruct (isOk o); cbn [negb]; [|discriminate].
  intros Hrun. split; [done|]. intros inst Hin.
  apply list_elem_of_lookup in Hin as [j Hj].
  apply program_lookup in Hj as [Hl Hlt].
  change 0 with (Z.of_nat 0) in Hrun.
  destruct (Eval_loop_sound dev G1 G2 U args nArgs _ _ _ _ Hrun j)
    as (inst' & Hl' & Hchk); [lia|].
  congruence.
Qed.

Lemma Eval_true_checked_witness :
  isOk prog_arg0 = true /\
  forall inst, inst ∈ program prog_arg0 ->
               inst_checked [Arg_Char "x"] 1 inst.
Proof.
  apply (Eval_true_checked false no_G no_G no_utf8 prog_arg0 [Arg_Char "x"] 1
           (set_res (lit "x") prog_arg0)).
  vm_compute. reflexivity.
Defined.

(** ** Termination of the scan *)

Lemma deref_Ret_bound (s : text) (p : nat) (c : ascii) :
  deref s p = Ret c ->
  (p <= length s)%nat /\ (Ascii.eqb c NUL = false -> (p < length s)%nat).
Proof.
  unfold deref. destruct ((s ++ [NUL]) !! p) as [x|] eqn:Hl; [|discriminate].
  intros [= ->]. pose proof (lookup_lt_Some _ _ _ Hl) as Hlt.
  rewrite length_app in Hlt. cbn in Hlt. split; [lia|].
  intros Hc. destruct (decide (p = length s)) as [->|]; [|lia].
  rewrite lookup_app_r, Nat.sub_diag in Hl by lia. cbn in Hl.
  injection Hl as <-. discriminate.
Qed.

Lemma deref_not_OutOfFuel (s : text) (p : nat) : deref s p <> OutOfFuel.
Proof. unfold deref. by destruct ((s ++ [NUL]) !! p). Qed.

Lemma deref_Ret_lookup (s : text) (p : nat) (c : ascii) :
  deref s p = Ret c <-> (s ++ [NUL]) !! p = Some c.
Proof.
  unfold deref. destruct ((s ++ [NUL]) !! p); split; intros H;
    try discriminate; by injection H as ->.
Qed.

Lemma backslashes_escaped_deref (s : text) :
  backslashes_escaped s = true ->
  forall p, deref s p = Ret "\"%char -> deref s (S p) = Ret "{"%char.
Proof.
  intros Hok p. rewrite !deref_Ret_lookup. revert Hok p.
  induction s as [|c s IH]; intros Hok p Hp.
  - destruct p as [|[|p]]; cbn in Hp; discriminate.
  - cbn [backslashes_escaped] in Hok. apply andb_prop in Hok as [Hc Hs].
    destruct p as [|p].
    + cbn in Hp. injection Hp as ->.
      change (Ascii.eqb "\" "\") with true in Hc. cbv iota in Hc.
      destruct s as [|c1 s]; [discriminate|].
      apply Ascii.eqb_eq in Hc as <-. reflexivity.
    + cbn in Hp |- *. by apply IH.
Qed.

Lemma update_inst_not_OutOfFuel o i f : update_inst o i f <> OutOfFuel.
Proof. unfold update_inst. by destruct ((0 <=? i) && (i <? dimof_instructions)). Qed.

(** Runs the next [update_inst] of the goal, which cannot run out of
    fuel. *)
Ltac step_update :=
  match goal with
  | |- context [update_inst ?o ?i ?f] =>
      let H := fresh "Hupd" in
      pose proof (update_inst_not_OutOfFuel o i f) as H;
      destruct (update_inst o i f); try done; cbn [bind]; clear H
  end.

Lemma addFormatStr_format dev o s len o' :
  addFormatStr dev o s len = Ret o' -> format o' = format o.
Proof.
  intros H. apply addFormatStr_emitted in H as [[_ ->]|[_ Hem]]; [done|].
  apply Hem.
Qed.

Lemma parseArgDefPositional_format dev o s o' s' :
  parseArgDefPositional dev o s = Ret (o', s') -> format o' = format o.
Proof. intros H. apply parseArgDefPositional_emitted in H as [n Hem]. apply Hem. Qed.

Lemma parseArgDefPerc_format dev o s o' s' :
  parseArgDefPerc dev o s = Ret (o', s') -> format o' = format o.
Proof.
  intros H. apply parseArgDefPerc_emitted in H as (ty & _ & Hem). apply Hem.
Qed.

Lemma addFormatStr_not_OutOfFuel dev o s len :
  addFormatStr dev o s len <> OutOfFuel.
Proof.
  unfold addFormatStr. destruct (len =? 0)%nat; [done|].
  unfold CrashIf. destruct (dev && (nInst o >=? dimof_instructions)); [done|].
  cbn [bind]. by repeat step_update.
Qed.

Lemma parseArgDefPositional_loop_pos dev (str : text) :
  forall (k s : nat) (n : Z) (s' : nat) (n' : Z),
    parseArgDefPositional_loop dev k str s n = Ret (s', n') -> (s <= s')%nat.
Proof.
  induction k as [|k IH]; intros s n s' n' H; [discriminate|].
  cbn [parseArgDefPositional_loop] in H. inv_bind H.
  destruct (Ascii.eqb a "}"); [injection H as <- _; lia|].
  inv_bind H. apply IH in H. lia.
Qed.

Lemma parseArgDefPositional_advances dev o s o' s' :
  parseArgDefPositional dev o s = Ret (o', s') -> (s < s')%nat.
Proof.
  unfold parseArgDefPositional. intros H.
  inv_bind H. clear Hrun. inv_bind H. clear Hrun.
  inv_bind H. destruct a1 as [p n].
  apply parseArgDefPositional_loop_pos in Hrun.
  inv_bind H. inv_bind H. injection H as _ <-. lia.
Qed.

Lemma parseArgDefPerc_advances dev o s o' s' :
  parseArgDefPerc dev o s = Ret (o', s') -> s' = S (S s).
Proof.
  unfold parseArgDefPerc. intros H.
  inv_bind H. clear Hrun. inv_bind H. clear Hrun. inv_bind H. clear Hrun.
  inv_bind H. clear Hrun. inv_bind H. inv_bind H. by injection H as _ <-.
Qed.

Lemma parseArgDefPositional_not_OutOfFuel dev o s (c : ascii) :
  deref (format o) s = Ret c ->
  parseArgDefPositional dev o s <> OutOfFuel.
Proof.
  intros Hc. unfold parseArgDefPositional. rewrite Hc. cbn [bind].
  apply deref_Ret_bound in Hc as [Hs _].
  unfold CrashIf. destruct (dev && negb (Ascii.eqb c "{")); [done|].
  cbn [bind].
  pose proof (parseArgDefPositional_loop_ends dev (format o)
                (S (S (length (format o)))) (S s) 0 ltac:(lia) ltac:(lia)) as Hl.
  destruct (parseArgDefPositional_loop dev (S (S (length (format o))))
              (format o) (S s) 0) as [[p n]| | |]; try done.
  cbn [bind]. by repeat step_update.
Qed.

Lemma parseArgDefPerc_not_OutOfFuel dev o s :
  parseArgDefPerc dev o s <> OutOfFuel.
Proof.
  unfold parseArgDefPerc.
  pose proof (deref_not_OutOfFuel (format o) s).
  destruct (deref (format o) s) as [c| | |]; try done. cbn [bind].
  unfold CrashIf at 1. destruct (dev && negb (Ascii.eqb c "%")); [done|].
  cbn [bind].
  pose proof (deref_not_OutOfFuel (format o) (S s)).
  destruct (deref (format o) (S s)) as [c1| | |]; try done. cbn [bind].
  assert (Hty : typeFromChar dev c1 <> OutOfFuel).
  { unfold typeFromChar.
    repeat (match goal with |- context [if ?b then _ else _] => destruct b end;
            [done|]).
    unfold CrashIf. by destruct (dev && true). }
  destruct (typeFromChar dev c1) as [ty| | |]; try done. cbn [bind].
  unfold update_inst.
  destruct ((0 <=? nInst o) && (nInst o <? dimof_instructions)); [|done].
  cbn. destruct ((0 <=? nInst o) && (nInst o <? dimof_instructions)); done.
Qed.

(** With every backslash escaped, each iteration of the scan moves [fmt]
    on, so the scan ends within one iteration per character and one
    more. *)
Lemma ParseFormat_scan_ends dev (s : text) :
  backslashes_escaped s = true ->
  forall (fuel : nat) (o : Fmt) (start fmt : nat),
    format o = s ->
    (1 <= fuel)%nat -> (length s + 1 <= fuel + fmt)%nat ->
    ParseFormat_scan dev fuel o start fmt <> OutOfFuel.
Proof.
  intros Hesc. induction fuel as [|fuel IH]; intros o start fmt Hf H1 Hfuel; [lia|].
  cbn [ParseFormat_scan].
  pose proof (deref_not_OutOfFuel (format o) fmt) as Hd.
  destruct (deref (format o) fmt) as [c| | |] eqn:Hc; try done. cbn [bind].
  destruct (Ascii.eqb c NUL) eqn:Hnul; [done|].
  apply deref_Ret_bound in Hc as Hb. destruct Hb as [_ Hlt].
  specialize (Hlt Hnul). rewrite Hf in Hlt.
  destruct (Ascii.eqb_spec "\"%char c) as [<-|Hbs].
  { rewrite Hf in Hc. rewrite Hf.
    rewrite (backslashes_escaped_deref s Hesc fmt Hc). cbn [bind].
    change (Ascii.eqb "{" "{") with true. cbv iota.
    pose proof (addFormatStr_not_OutOfFuel dev o start (fmt - start)) as Ha.
    destruct (addFormatStr dev o start (fmt - start)) as [o1| | |] eqn:Ho1;
      try done.
    cbn [bind]. apply IH; [|lia|lia].
    rewrite (addFormatStr_format _ _ _ _ _ Ho1). done. }
  destruct (Ascii.eqb "{" c).
  { pose proof (addFormatStr_not_OutOfFuel dev o start (fmt - start)) as Ha.
    destruct (addFormatStr dev o start (fmt - start)) as [o1| | |] eqn:Ho1;
      try done.
    cbn [bind].
    assert (Hf1 : format o1 = s)
      by (rewrite (addFormatStr_format _ _ _ _ _ Ho1); done).
    pose proof (parseArgDefPositional_not_OutOfFuel dev o1 fmt c) as Hp.
    rewrite Hf1, <- Hf in Hp. specialize (Hp Hc).
    destruct (parseArgDefPositional dev o1 fmt) as [[o2 fmt2]| | |] eqn:Ho2;
      try done.
    cbn [bind]. apply parseArgDefPositional_advances in Ho2 as Hadv.
    apply IH; [|lia|lia].
    rewrite (parseArgDefPositional_format _ _ _ _ _ Ho2). done. }
  destruct (Ascii.eqb "%" c); [|apply IH; [done|lia|lia]].
  pose proof (deref_not_OutOfFuel (format o) (S fmt)) as Hd1.
  destruct (deref (format o) (S fmt)) as [c1| | |]; try done. cbn [bind].
  pose proof (addFormatStr_not_OutOfFuel dev o start (fmt - start)) as Ha.
  destruct (Ascii.eqb "%" c1).
  - destruct (addFormatStr dev o start (fmt - start)) as [o1| | |] eqn:Ho1;
      try done.
    cbn [bind]. apply IH; [|lia|lia].
    rewrite (addFormatStr_format _ _ _ _ _ Ho1). done.
  - destruct (addFormatStr dev o start (fmt - start)) as [o1| | |] eqn:Ho1;
      try done.
    cbn [bind].
    pose proof (parseArgDefPerc_not_OutOfFuel dev o1 fmt) as Hp.
    destruct (parseArgDefPerc dev o1 fmt) as [[o2 fmt2]| | |] eqn:Ho2; try done.
    cbn [bind]. apply parseArgDefPerc_advances in Ho2 as Hadv.
    apply IH; [|lia|lia].
    rewrite (parseArgDefPerc_format _ _ _ _ _ Ho2).
    rewrite (addFormatStr_format _ _ _ _ _ Ho1). done.
Qed.

Lemma inst_at_not_OutOfFuel o i : inst_at o i <> OutOfFuel.
Proof.
  unfold inst_at. destruct ((0 <=? i) && (i <? dimof_instructions)); [|done].
  by destruct (instructions o !! Z.to_nat i).
Qed.

Lemma maxArgNo_loop_not_OutOfFuel o :
  forall k i m, maxArgNo_loop k o i m <> OutOfFuel.
Proof.
  induction k as [|k IH]; intros i m; [done|]. cbn [maxArgNo_loop].
  pose proof (inst_at_not_OutOfFuel o i).
  destruct (inst_at o i) as [inst| | |]; try done. cbn [bind].
  destruct (Type_eqb (t inst) Type_FormatStr); [apply IH|].
  destruct (argNo inst >? m); apply IH.
Qed.

Lemma hasInstructionWithArgNo_loop_not_OutOfFuel o a :
  forall k i, hasInstructionWithArgNo_loop k o i a <> OutOfFuel.
Proof.
  induction k as [|k IH]; intros i; [done|].
  cbn [hasInstructionWithArgNo_loop].
  pose proof (inst_at_not_OutOfFuel o i).
  destruct (inst_at o i) as [inst| | |]; try done. cbn [bind].
  destruct (argNo inst =? a); [done|apply IH].
Qed.

Lemma coverage_loop_not_OutOfFuel dev o :
  forall k i, coverage_loop dev k o i <> OutOfFuel.
Proof.
  induction k as [|k IH]; intros i; [done|]. cbn [coverage_loop].
  pose proof (hasInstructionWithArgNo_loop_not_OutOfFuel o i
                (Z.to_nat (nInst o)) 0) as Hh.
  unfold hasInstructionWithArgNo.
  destruct (hasInstructionWithArgNo_loop (Z.to_nat (nInst o)) o 0 i)
    as [b| | |]; try done.
  cbn [bind]. unfold CrashIf. destruct (dev && negb b); [done|]. cbn [bind].
  destruct (negb b); [done|apply IH].
Qed.

(** X5: A template in which every backslash is followed by an open brace is
    compiled in bounded time: with fuel above its length the constructor
    never runs out of fuel (it returns, crashes or faults). *)
Theorem Fmt_new_terminates dev (s : text) (fuel : nat) :
  backslashes_escaped s = true ->
  (length s < fuel)%nat ->
  Fmt_new dev fuel s <> OutOfFuel.
Proof.
  intros Hesc Hfuel. unfold Fmt_new, ParseFormat.
  set (o0 := set_res [] _).
  pose proof (ParseFormat_scan_ends dev s Hesc fuel o0 0%nat 0%nat eq_refl
                ltac:(lia) ltac:(lia)) as Hscan.
  destruct (ParseFormat_scan dev fuel o0 0 0) as [[[o1 start] fmt]| | |];
    try done.
  cbn [bind].
  pose proof (addFormatStr_not_OutOfFuel dev o1 start (fmt - start)) as Ha.
  destruct (addFormatStr dev o1 start (fmt - start)) as [o2| | |]; try done.
  cbn [bind].
  pose proof (maxArgNo_loop_not_OutOfFuel o2 (Z.to_nat (nInst o2)) 0
                (currArgNo o2)) as Hm.
  destruct (maxArgNo_loop (Z.to_nat (nInst o2)) o2 0 (currArgNo o2))
    as [m| | |]; try done.
  cbn [bind].
  pose proof (coverage_loop_not_OutOfFuel dev o2 (Z.to_nat (m + 1)) 0) as Hcv.
  destruct (coverage_loop dev (Z.to_nat (m + 1)) o2 0) as [ok| | |]; done.
Qed.

Lemma Fmt_new_terminates_witness :
  Fmt_new false 9 (lit "a\{0}%d{") <> OutOfFuel.
Proof.
  apply (Fmt_new_terminates false (lit "a\{0}%d{") 9).
  - reflexivity.
  - cbn. lia.
Defined.

(** ** Literal slices *)

Lemma emitted_forall (Q : Inst -> Prop) new o o' :
  emitted new o o' ->
  (forall inst, new inst -> Q inst) ->
  (forall (i : nat) inst, (i < Z.to_nat (nInst o))%nat ->
                          instructions o !! i = Some inst -> Q inst) ->
  forall (i : nat) inst, (i < Z.to_nat (nInst o'))%nat ->
                         instructions o' !! i = Some inst -> Q inst.
Proof.
  intros (Hn & Hn' & _ & _ & Hold & Hnew) HQ Hall i inst Hi Hl.
  destruct (decide (i < Z.to_nat (nInst o))%nat) as [Hlt|Hge].
  - rewrite Hold in Hl by done. eauto.
  - assert (i = Z.to_nat (nInst o)) as -> by lia. eauto.
Qed.

Lemma addFormatStr_slices dev o start fmt o' :
  addFormatStr dev o start (fmt - start) = Ret o' ->
  slices_ok o -> (start <= fmt <= length (format o))%nat ->
  slices_ok o' /\ format o' = format o.
Proof.
  intros H Hs Hpos.
  apply addFormatStr_emitted in H as [[_ ->]|[_ Hem]]; [done|].
  assert (Hf : format o' = format o) by apply Hem.
  split; [|done]. unfold slices_ok. rewrite Hf.
  apply (emitted_forall
           (fun inst => t inst = Type_FormatStr ->
                        (fst (sv inst) + snd (sv inst) <= length (format o))%nat)
           _ o o' Hem); [|exact Hs].
  intros inst (_ & _ & Hsv) _. rewrite Hsv. cbn. lia.
Qed.

Lemma parseArgDefPositional_slices dev o s o' s' :
  parseArgDefPositional dev o s = Ret (o', s') ->
  slices_ok o -> slices_ok o' /\ format o' = format o.
Proof.
  intros H Hs. apply parseArgDefPositional_emitted in H as [n Hem].
  assert (Hf : format o' = format o) by apply Hem.
  split; [|done]. unfold slices_ok. rewrite Hf.
  apply (emitted_forall
           (fun inst => t inst = Type_FormatStr ->
                        (fst (sv inst) + snd (sv inst) <= length (format o))%nat)
           _ o o' Hem); [|exact Hs].
  intros inst [Ht _] Hlit. congruence.
Qed.

Lemma parseArgDefPerc_slices dev o s o' s' :
  parseArgDefPerc dev o s = Ret (o', s') ->
  slices_ok o -> slices_ok o' /\ format o' = format o.
Proof.
  intros H Hs. apply parseArgDefPerc_emitted in H as (ty & Hty & Hem).
  assert (Hf : format o' = format o) by apply Hem.
  split; [|done]. unfold slices_ok. rewrite Hf.
  apply (emitted_forall
           (fun inst => t inst = Type_FormatStr ->
                        (fst (sv inst) + snd (sv inst) <= length (format o))%nat)
           _ o o' Hem); [|exact Hs].
  intros inst [Ht _] Hlit. congruence.
Qed.

(** Through the scan [start] stays at or before [fmt], and every literal
    is cut out of the template. *)
Lemma ParseFormat_scan_slices dev :
  forall (fuel : nat) (o : Fmt) (start fmt : nat) (o' : Fmt) (start' fmt' : nat),
    ParseFormat_scan dev fuel o start fmt = Ret (o', start', fmt') ->
    slices_ok o -> (start <= fmt)%nat ->
    slices_ok o' /\ format o' = format o /\
    (start' <= fmt' <= length (format o))%nat.
Proof.
  induction fuel as [|fuel IH]; intros o start fmt o' start' fmt' H Hs Hpos;
    [discriminate|].
  cbn [ParseFormat_scan] in H.
  inv_bind H. apply deref_Ret_bound in Hrun as [Hb _].
  destruct (Ascii.eqb a NUL); [injection H as <- <- <-; done|].
  destruct (Ascii.eqb "\" a).
  { inv_bind H. clear Hrun. destruct (Ascii.eqb "{" a0); [|eauto].
    inv_bind H. apply addFormatStr_slices in Hrun as [Hs1 Hf1]; [|done|lia].
    apply IH in H as (? & ? & ?); [|done|lia].
    rewrite Hf1 in *. done. }
  destruct (Ascii.eqb "{" a).
  { inv_bind H. apply addFormatStr_slices in Hrun as [Hs1 Hf1]; [|done|lia].
    inv_bind H. destruct a1 as [o2 fmt2].
    apply parseArgDefPositional_slices in Hrun as [Hs2 Hf2]; [|done].
    apply IH in H as (? & ? & ?); [|done|lia].
    rewrite Hf2, Hf1 in *. done. }
  destruct (Ascii.eqb "%" a); [|apply IH in H; [done|done|lia]].
  inv_bind H. clear Hrun. destruct (Ascii.eqb "%" a0).
  - inv_bind H. apply addFormatStr_slices in Hrun as [Hs1 Hf1]; [|done|lia].
    apply IH in H as (? & ? & ?); [|done|lia].
    rewrite Hf1 in *. done.
  - inv_bind H. apply addFormatStr_slices in Hrun as [Hs1 Hf1]; [|done|lia].
    inv_bind H. destruct a2 as [o2 fmt2].
    apply parseArgDefPerc_slices in Hrun as [Hs2 Hf2]; [|done].
    apply IH in H as (? & ? & ?); [|done|lia].
    rewrite Hf2, Hf1 in *. done.
Qed.

(** X6: Every literal of a compiled program is a slice inside the template:
    offset plus length do not pass the end of the template, so [Eval]
    appends exactly [length] characters of the template for it, and it
    never reads the template out of bounds.  This holds for every
    template the constructor returns on, in every build. *)
Theorem Fmt_new_literal_slices dev (fuel : nat) (s : text) (o : Fmt) (inst : Inst) :
  Fmt_new dev fuel s = Ret o ->
  inst ∈ program o ->
  t inst = Type_FormatStr ->
  format o = s /\
  (fst (sv inst) + snd (sv inst) <= length s)%nat /\
  length (sv_text o (sv inst)) = snd (sv inst) /\
  sv_text o (sv inst) <> [].
Proof.
  intros Hnew Hin Ht.
  pose proof (Fmt_new_compiled_inv _ _ _ _ Hnew) as (_ & _ & Hlit).
  unfold Fmt_new in Hnew. inv_bind Hnew. destruct a as [ok o1].
  injection Hnew as <-. unfold ParseFormat in Hrun.
  inv_bind Hrun. destruct a as [[o2 start] fmt].
  apply ParseFormat_scan_slices in Hrun0 as (Hs2 & Hf2 & Hpos); [|
    intros i x Hi; cbn in Hi; lia|lia].
  inv_bind Hrun. rename a into o3. rewrite <- Hf2 in Hpos.
  apply addFormatStr_slices in Hrun0 as [Hs3 Hf3]; [|done|done].
  inv_bind Hrun. clear Hrun0. inv_bind Hrun. clear Hrun0.
  injection Hrun as _ <-.
  apply list_elem_of_lookup in Hin as [i Hi].
  apply program_lookup in Hi as [Hl Hlt].
  cbn [set_isOk instructions nInst format] in *.
  pose proof (Hs3 i inst Hlt Hl Ht) as Hb. rewrite Hf3, Hf2 in Hb.
  cbn [format set_res set_currArgNo set_currPercArgNo set_nInst set_format] in Hb.
  assert (Hf : format o3 = s) by (rewrite Hf3, Hf2; reflexivity).
  destruct (Hlit i inst Hlt Hl Ht) as [_ Hne].
  assert (Hlen : length (sv_text (set_isOk ok o3) (sv inst)) = snd (sv inst)).
  { unfold sv_text. cbn [format set_isOk].
    rewrite length_take, length_drop, Hf. lia. }
  split; [done|]. split; [done|]. split; [done|].
  intros Hnil. rewrite Hnil in Hlen. cbn in Hlen. lia.
Qed.

Lemma Fmt_new_literal_slices_witness :
  format prog_hello = lit "hello" /\
  (fst (sv (mkInst Type_FormatStr (-1) (0, 5)%nat))
   + snd (sv (mkInst Type_FormatStr (-1) (0, 5)%nat)) <= length (lit "hello"))%nat /\
  length (sv_text prog_hello (sv (mkInst Type_FormatStr (-1) (0, 5)%nat)))
    = snd (sv (mkInst Type_FormatStr (-1) (0, 5)%nat)) /\
  sv_text prog_hello (sv (mkInst Type_FormatStr (-1) (0, 5)%nat)) <> [].
Proof.
  apply (Fmt_new_literal_slices false 40 (lit "hello") prog_hello
           (mkInst Type_FormatStr (-1) (0, 5)%nat)).
  - vm_compute. reflexivity.
  - apply list_elem_of_here.
  - reflexivity.
Defined.

(** ** Trailing [None] arguments do not count *)

Lemma arg_at_app (args more : list Arg) (i : Z) :
  i < Z.of_nat (length args) -> arg_at (args ++ more) i = arg_at args i.
Proof.
  intros Hi. unfold arg_at. destruct (0 <=? i) eqn:H0; [|done].
  apply Z.leb_le in H0. by rewrite lookup_app_l by lia.
Qed.

Lemma trimNone_loop_app (args more : list Arg) :
  forall (k : nat) (nArgs : Z),
    nArgs <= Z.of_nat (length args) ->
    trimNone_loop k (args ++ more) nArgs = trimNone_loop k args nArgs.
Proof.
  induction k as [|k IH]; intros nArgs Hn; [done|].
  cbn [trimNone_loop]. destruct (nArgs >=? 0); [|done].
  rewrite arg_at_app by lia.
  destruct (arg_at args (nArgs - 1)) as [a| | |]; try done. cbn [bind].
  destruct (Type_eqb (Arg_t a) Type_None); [|done]. apply IH. lia.
Qed.

Lemma trimNone_loop_skip (args nones : list Arg) :
  Forall is_None nones ->
  forall (m k : nat),
    (m <= length nones)%nat ->
    trimNone_loop (m + k) (args ++ nones) (Z.of_nat (length args + m))
    = trimNone_loop k (args ++ nones) (Z.of_nat (length args)).
Proof.
  intros Hnones. induction m as [|m IH]; intros k Hm.
  - by rewrite Nat.add_0_r.
  - cbn [Nat.add trimNone_loop].
    destruct (Z.geb_spec (Z.of_nat (length args + S m)) 0); [|lia].
    destruct (lookup_lt_is_Some_2 nones m) as [x Hx]; [lia|].
    assert (Hlook : (args ++ nones) !! (length args + m)%nat = Some x).
    { rewrite lookup_app_r by lia.
      replace (length args + m - length args)%nat with m by lia. done. }
    replace (Z.of_nat (length args + S m) - 1)
      with (Z.of_nat (S (length args + m)) - 1) by lia.
    rewrite (arg_at_lookup _ _ x Hlook). cbn [bind].
    assert (Hnone : is_None x).
    { rewrite Forall_lookup in Hnones. by apply (Hnones m). }
    unfold is_None in Hnone. rewrite Hnone. cbn [Type_eqb].
    replace (Z.of_nat (S (length args + m)) - 1)
      with (Z.of_nat (length args + m)) by lia.
    apply IH. lia.
Qed.

Lemma trimNone_app_nones (args nones : list Arg) :
  Forall is_None nones ->
  trimNone (args ++ nones) (Z.of_nat (length (args ++ nones)))
  = trimNone args (Z.of_nat (length args)).
Proof.
  intros Hnones. unfold trimNone. rewrite !Nat2Z.id, length_app.
  replace (S (S (length args + length nones)))
    with (length nones + S (S (length args)))%nat by lia.
  rewrite (trimNone_loop_skip args nones Hnones) by lia.
  apply trimNone_loop_app. lia.
Qed.

Lemma trimNone_loop_le (args : list Arg) :
  forall (k : nat) (nArgs n : Z),
    trimNone_loop k args nArgs = Ret n -> n <= nArgs.
Proof.
  induction k as [|k IH]; intros nArgs n H; [discriminate|].
  cbn [trimNone_loop] in H. destruct (nArgs >=? 0); [|injection H as <-; lia].
  inv_bind H. destruct (Type_eqb (Arg_t a) Type_None).
  - apply IH in H. lia.
  - injection H as <-. lia.
Qed.

(** [Eval] looks at the arguments below [nArgs] only. *)
Lemma Eval_loop_app dev G1 G2 U (args more : list Arg) (nArgs : Z) :
  nArgs <= Z.of_nat (length args) ->
  forall (k : nat) (o : Fmt) (n : Z),
    Eval_loop dev G1 G2 U k o (args ++ more) nArgs n
    = Eval_loop dev G1 G2 U k o args nArgs n.
Proof.
  intros HnArgs. induction k as [|k IH]; intros o n; [done|].
  cbn [Eval_loop].
  destruct (CrashIf dev (n >=? dimof_instructions)); try done. cbn [bind].
  destruct (CrashIf dev (n >=? nInst o)); try done. cbn [bind].
  destruct (inst_at o n) as [inst| | |]; try done. cbn [bind].
  destruct (CrashIf dev (argNo inst >=? nArgs)); try done. cbn [bind].
  destruct (Z.geb_spec (argNo inst) nArgs); [done|].
  destruct (Type_eqb (t inst) Type_FormatStr); [apply IH|].
  rewrite arg_at_app by lia.
  destruct (arg_at args (argNo inst)) as [arg| | |]; try done. cbn [bind].
  destruct (CrashIf dev _); try done. cbn [bind].
  destruct (negb _); [done|apply IH].
Qed.

(** X7: [None] arguments at the end of the array do not change what
    [FormatTemp] returns, for any template: the fixed-arity entry point
    called with two arguments and four [None] behaves as the two-argument
    one, and so on.  This includes the failures: when all the arguments
    are [None], both calls read before the array. *)
Theorem FormatTemp_trailing_None dev G1 G2 U (fuel : nat) (s : text)
    (args nones : list Arg) :
  Forall is_None nones ->
  FormatTemp dev G1 G2 U fuel s (args ++ nones) (Z.of_nat (length (args ++ nones)))
  = FormatTemp dev G1 G2 U fuel s args (Z.of_nat (length args)).
Proof.
  intros Hnones. unfold FormatTemp. rewrite trimNone_app_nones by done.
  destruct (trimNone args (Z.of_nat (length args))) as [n| | |] eqn:Htrim;
    try done.
  cbn [bind]. apply trimNone_loop_le in Htrim.
  unfold FormatTemp_trimmed. destruct (n =? 0); [done|].
  destruct (Fmt_new dev fuel s) as [o| | |]; try done. cbn [bind].
  unfold Eval. destruct (negb (isOk o)); [done|].
  by rewrite Eval_loop_app.
Qed.

Lemma FormatTemp_trailing_None_witness :
  FormatTemp6 false no_G no_G no_utf8 40 (lit "{0} and {1}")
    (Arg_Int 1) (Arg_Int 2) Arg_None Arg_None Arg_None Arg_None
  = FormatTemp2 false no_G no_G no_utf8 40 (lit "{0} and {1}")
      (Arg_Int 1) (Arg_Int 2).
Proof.
  apply (FormatTemp_trailing_None false no_G no_G no_utf8 40 (lit "{0} and {1}")
           [Arg_Int 1; Arg_Int 2] [Arg_None; Arg_None; Arg_None; Arg_None]).
  repeat constructor.
Defined.

(** ** Indices written in decimal *)

Lemma digits_of_uint (d : Decimal.uint) :
  forallb IsDigit (lit (NilEmpty.string_of_uint d)) = true /\
  forall n, fold_left digit_step (lit (NilEmpty.string_of_uint d)) n
            = uint_horner d n.
Proof.
  induction d as [|d [IH1 IH2]|d [IH1 IH2]|d [IH1 IH2]|d [IH1 IH2]|d [IH1 IH2]
                  |d [IH1 IH2]|d [IH1 IH2]|d [IH1 IH2]|d [IH1 IH2]|d [IH1 IH2]];
    [split; [done|done]|..];
    (split; [exact IH1|intros n; cbn -[digit_step]; rewrite <- IH2; reflexivity]).
Qed.

Lemma uint_horner_acc (d : Decimal.uint) :
  forall acc, uint_horner d (Zpos acc) = Zpos (Pos.of_uint_acc d acc).
Proof.
  induction d; intros acc; cbn [uint_horner Pos.of_uint_acc]; [done|..];
    rewrite <- IHd; f_equal; lia.
Qed.

Lemma uint_horner_of_uint (d : Decimal.uint) :
  uint_horner d 0 = Z.of_N (Pos.of_uint d).
Proof.
  induction d; cbn [uint_horner Pos.of_uint]; [done|exact IHd|..];
    cbn [Z.mul Z.add Z.of_N]; apply uint_horner_acc.
Qed.

(** The decimal text of a number that is not negative consists of digits
    that denote the number. *)
Lemma BufFmt_d_digits (n : Z) :
  0 <= n ->
  forallb IsDigit (BufFmt_d n) = true /\ digits_value (BufFmt_d n) = n.
Proof.
  intros Hn. destruct n as [|p|p]; [by vm_compute| |lia].
  unfold BufFmt_d, digits_value. cbn [Z.to_int NilZero.string_of_int].
  unfold Pos.to_int, NilZero.string_of_uint.
  pose proof (Unsigned.to_uint_nonnil p) as Hnil.
  destruct (Pos.to_uint p) eqn:Hp; try done;
    rewrite <- Hp;
    (destruct (digits_of_uint (Pos.to_uint p)) as [Hd Hv];
     split; [exact Hd|];
     rewrite Hv, uint_horner_of_uint, Unsigned.of_to; reflexivity).
Qed.

(** X8: An index written in decimal is read back.  A positional directive
    whose digits are the decimal text of [n] (as [%d] prints it), for
    [0 <= n < 2^31], is compiled to one instruction of type [Any] with
    argument index [n], and the scan goes on after the closing brace. *)
Theorem positional_index_roundtrip dev (o : Fmt) (X R : text) (n : Z) :
  0 <= n < 2 ^ 31 ->
  format o = X ++ "{"%char :: BufFmt_d n ++ "}"%char :: R ->
  array_ok o ->
  nInst o < dimof_instructions ->
  exists o',
    parseArgDefPositional dev o (length X)
    = Ret (o', (length X + length (BufFmt_d n) + 2)%nat) /\
    map (decode (format o)) (program o')
    = map (decode (format o)) (program o) ++ [A_arg Type_Any n] /\
    nInst o' = nInst o + 1.
Proof.
  intros Hn Hfmt Harr Hcap.
  destruct (BufFmt_d_digits n ltac:(lia)) as [Hds Hv].
  destruct (parseArgDefPositional_digits dev o X (BufFmt_d n) R)
    as (o' & Hrun & Hext); [done|done|lia|done|done|].
  exists o'. split; [done|].
  destruct Hext as (_ & _ & Hn' & _ & _ & Hprog & _).
  rewrite Hv in Hprog. split; [done|]. cbn in Hn'. lia.
Qed.

Lemma positional_index_roundtrip_witness :
  exists o',
    parseArgDefPositional true (set_format (lit "{31}") Fmt_init) (length (@nil ascii))
    = Ret (o', (length (@nil ascii) + length (BufFmt_d 31) + 2)%nat) /\
    map (decode (format (set_format (lit "{31}") Fmt_init))) (program o')
    = map (decode (format (set_format (lit "{31}") Fmt_init)))
        (program (set_format (lit "{31}") Fmt_init)) ++ [A_arg Type_Any 31] /\
    nInst o' = nInst (set_format (lit "{31}") Fmt_init) + 1.
Proof.
  apply (positional_index_roundtrip true (set_format (lit "{31}") Fmt_init) [] [] 31).
  - lia.
  - reflexivity.
  - split; [cbn; lia|reflexivity].
  - cbn. unfold dimof_instructions. lia.
Defined.

(** ** After a failed evaluation *)




(** ** The table of contents *)

Lemma load_Some (h : gmap Z TocItem) a ti :
  h !! a = Some ti -> load h (Some a) = Ret ti.
Proof. intros H. unfold load. by rewrite H. Qed.

Lemma store_Some (h : gmap Z TocItem) a ti f :
  h !! a = Some ti -> store h (Some a) f = Ret (<[a := f ti]> h).
Proof. intros H. unfold store. by rewrite H. Qed.

(** A chain depends on the [next] members of its objects only. *)
Lemma chain_frame (h h' : gmap Z TocItem) (l : list Z) :
  forall p,
    chain h p l ->
    (forall a, a ∈ l -> exists ti ti', h !! a = Some ti /\ h' !! a = Some ti' /\
                                       next ti' = next ti) ->
    chain h' p l.
Proof.
  induction l as [|a l IH]; intros p Hc Hfr; [done|].
  destruct Hc as (-> & ti & Hti & Hc). split; [done|].
  destruct (Hfr a) as (ti0 & ti' & H0 & H' & Hn); [apply list_elem_of_here|].
  assert (ti0 = ti) as -> by congruence.
  exists ti'. split; [done|]. rewrite Hn. apply IH; [done|].
  intros x Hx. apply Hfr. by apply list_elem_of_further.
Qed.

Lemma chain_unchanged (h h' : gmap Z TocItem) (l : list Z) p :
  chain h p l -> (forall a, a ∈ l -> h' !! a = h !! a) -> chain h' p l.
Proof.
  revert p. induction l as [|a l IH]; intros p Hc Hfr; [done|].
  destruct Hc as (-> & ti & Hti & Hc). split; [done|].
  exists ti. split; [rewrite Hfr; [done|apply list_elem_of_here]|].
  apply IH; [done|]. intros x Hx. apply Hfr. by apply list_elem_of_further.
Qed.

Lemma chain_inj (h : gmap Z TocItem) :
  forall l1 l2 p, chain h p l1 -> chain h p l2 -> l1 = l2.
Proof.
  induction l1 as [|a l1 IH]; intros [|b l2] p H1 H2; cbn in *; try done.
  - destruct H2 as [? _]. congruence.
  - destruct H1 as [? _]. congruence.
  - destruct H1 as (-> & t1 & Ht1 & H1), H2 as ([= <-] & t2 & Ht2 & H2).
    assert (t1 = t2) as -> by congruence. f_equal. eauto.
Qed.

Lemma chain_suffix (h : gmap Z TocItem) (l1 : list Z) :
  forall p a l2, chain h p (l1 ++ a :: l2) -> chain h (Some a) (a :: l2).
Proof.
  induction l1 as [|b l1 IH]; intros p a l2 Hc.
  - destruct Hc as (-> & Hc). done.
  - destruct Hc as (-> & ti & Hti & Hc). eauto.
Qed.

(** A chain that ends does not come back to one of its objects. *)
Lemma chain_NoDup (h : gmap Z TocItem) (l : list Z) p :
  chain h p l -> NoDup l.
Proof.
  revert p. induction l as [|a l IH]; intros p Hc; [constructor|].
  pose proof Hc as (-> & ti & Hti & Hc').
  constructor; [|eauto].
  intros Hin. apply list_elem_of_split in Hin as (l1 & l2 & ->).
  pose proof (chain_suffix h l1 _ a l2 Hc') as Hsuf.
  pose proof (chain_inj h _ _ _ Hc Hsuf) as Heq.
  apply (f_equal length) in Heq. cbn in Heq. rewrite length_app in Heq.
  cbn in Heq. lia.
Qed.

Lemma ChildCount_loop_chain (h : gmap Z TocItem) :
  forall (l : list Z) (p : option Z) (n : Z) (k : nat),
    chain h p l -> 0 <= n -> n + Z.of_nat (length l) < 2 ^ 31 ->
    (length l < k)%nat ->
    ChildCount_loop k h p n = Ret (n + Z.of_nat (length l)).
Proof.
  induction l as [|a l IH]; intros p n k Hc Hn Hb Hk.
  - cbn in Hc. subst p. destruct k; [cbn in Hk; lia|].
    cbn. f_equal. lia.
  - destruct Hc as (-> & ti & Hti & Hc). destruct k as [|k]; [lia|].
    cbn [ChildCount_loop]. rewrite (load_Some h a ti Hti). cbn [bind].
    cbn [length] in Hb, Hk. rewrite to_int_small by lia.
    rewrite (IH (next ti) (n + 1) k Hc); [f_equal; cbn [length]; lia|lia|lia|lia].
Qed.

(** X10: [ChildCount] is the length of the chain of children, as long as it
    fits an [int]; the loop needs one iteration per child and one more. *)
Theorem ChildCount_chain (h : gmap Z TocItem) (this : Z) (ti : TocItem)
    (l : list Z) (fuel : nat) :
  h !! this = Some ti ->
  chain h (child ti) l ->
  Z.of_nat (length l) < 2 ^ 31 ->
  (length l < fuel)%nat ->
  ChildCount fuel h this = Ret (Z.of_nat (length l)).
Proof.
  intros Hti Hc Hb Hk. unfold ChildCount.
  rewrite (load_Some h this ti Hti). cbn [bind].
  rewrite (ChildCount_loop_chain h l (child ti) 0 fuel Hc); [done|lia|lia|done].
Qed.

Lemma ChildCount_chain_witness : ChildCount 3 toc_heap 1 = Ret 2.
Proof.
  apply (ChildCount_chain toc_heap 1 (toc_item None (Some 2) None) [2; 3] 3).
  - reflexivity.
  - cbn. repeat (split || eexists || reflexivity).
  - cbn. lia.
  - cbn. lia.
Defined.

Lemma chain_head (h : gmap Z TocItem) (a : Z) (l : list Z) :
  chain h (Some a) l -> exists l', l = a :: l'.
Proof. destruct l as [|b l]; [done|]. intros ([= <-] & _). by exists l. Qed.

(** X11: [AddChild] puts the new child in front of the children: the chain of
    children of the item becomes the new child followed by the old chain,
    the new child's parent is the item, one more child is counted, and no
    other object of the heap is written. *)
Theorem AddChild_prepends (h : gmap Z TocItem) (this c : Z) (ti tc : TocItem)
    (l : list Z) :
  h !! this = Some ti ->
  h !! c = Some tc ->
  c <> this ->
  chain h (child ti) l ->
  c ∉ l ->
  Z.of_nat (length l) + 1 < 2 ^ 31 ->
  exists h' ti' tc',
    AddChild h this (Some c) = Ret h' /\
    h' !! this = Some ti' /\ h' !! c = Some tc' /\
    chain h' (child ti') (c :: l) /\
    parent tc' = Some this /\
    ChildCount (S (S (length l))) h' this = Ret (Z.of_nat (length l) + 1) /\
    (forall x, x <> this -> x <> c -> h' !! x = h !! x).
Proof.
  intros Hti Htc Hne Hc Hnin Hb.
  set (h1 := <[this := set_child (Some c) ti]> h).
  set (h2 := <[c := set_parent (Some this) tc]> h1).
  set (h3 := <[c := set_next (child ti) (set_parent (Some this) tc)]> h2).
  assert (H1c : h1 !! c = Some tc).
  { unfold h1. by rewrite lookup_insert_ne. }
  assert (H2c : h2 !! c = Some (set_parent (Some this) tc)).
  { unfold h2. by rewrite lookup_insert_eq. }
  assert (Hrun : AddChild h this (Some c) = Ret h3).
  { unfold AddChild. rewrite (load_Some _ _ _ Hti). cbn [bind].
    rewrite (store_Some _ _ _ _ Hti). cbn [bind]. fold h1.
    rewrite (store_Some _ _ _ _ H1c). cbn [bind]. fold h2.
    by rewrite (store_Some _ _ _ _ H2c). }
  assert (H3this : h3 !! this = Some (set_child (Some c) ti)).
  { unfold h3, h2, h1. rewrite !lookup_insert_ne by done.
    by rewrite lookup_insert_eq. }
  assert (H3c : h3 !! c = Some (set_next (child ti) (set_parent (Some this) tc))).
  { unfold h3. by rewrite lookup_insert_eq. }
  assert (Hframe : forall x, x <> this -> x <> c -> h3 !! x = h !! x).
  { intros x Hx1 Hx2. unfold h3, h2, h1. by rewrite !lookup_insert_ne. }
  assert (Hch : chain h3 (Some c) (c :: l)).
  { split; [done|]. eexists. split; [exact H3c|]. cbn [next set_next].
    apply (chain_frame h h3 l _ Hc). intros a Ha.
    assert (a <> c) by (intros ->; done).
    destruct (decide (a = this)) as [->|Hat].
    - exists ti, (set_child (Some c) ti). by repeat split.
    - destruct (list_elem_of_lookup_1 _ _ Ha) as [i Hi].
      assert (exists ta, h !! a = Some ta) as [ta Hta].
      { clear -Hc Ha. revert Hc. generalize (child ti).
        induction l as [|b l IH]; intros p Hc; [by apply elem_of_nil in Ha|].
        destruct Hc as (-> & tb & Htb & Hc).
        apply elem_of_cons in Ha as [->|Ha]; eauto. }
      exists ta, ta. split; [done|]. split; [|done]. by rewrite Hframe. }
  exists h3, (set_child (Some c) ti),
    (set_next (child ti) (set_parent (Some this) tc)).
  split; [exact Hrun|]. split; [exact H3this|]. split; [exact H3c|].
  split; [exact Hch|]. split; [done|]. split; [|exact Hframe].
  unfold ChildCount. rewrite (load_Some _ _ _ H3this). cbn [bind].
  rewrite (ChildCount_loop_chain h3 (c :: l) _ 0 _ Hch); cbn [length].
  - f_equal. lia.
  - lia.
  - lia.
  - lia.
Qed.

Lemma AddChild_prepends_witness :
  exists h' ti' tc',
    AddChild toc_heap 1 (Some 4) = Ret h' /\
    h' !! 1 = Some ti' /\ h' !! 4 = Some tc' /\
    chain h' (child ti') [4; 2; 3] /\
    parent tc' = Some 1 /\
    ChildCount 4 h' 1 = Ret 3 /\
    (forall x, x <> 1 -> x <> 4 -> h' !! x = toc_heap !! x).
Proof.
  apply (AddChild_prepends toc_heap 1 4 (toc_item None (Some 2) None)
           (toc_item None None None) [2; 3]).
  - reflexivity.
  - reflexivity.
  - lia.
  - cbn. repeat (split || eexists || reflexivity).
  - intros Hin. repeat (apply elem_of_cons in Hin as [Hin|Hin]; [lia|]).
    by apply elem_of_nil in Hin.
  - cbn. lia.
Defined.

Lemma chain_lookup (h : gmap Z TocItem) (l : list Z) :
  forall p a, chain h p l -> a ∈ l -> exists ta, h !! a = Some ta.
Proof.
  induction l as [|b l IH]; intros p a Hc Ha; [by apply elem_of_nil in Ha|].
  destruct Hc as (-> & tb & Htb & Hc).
  apply elem_of_cons in Ha as [->|Ha]; eauto.
Qed.

(** X12: [AddSibling] puts the sibling right after the item: the chain from the
    item becomes the item, the sibling, then the old followers.  The
    sibling gets the item's parent; what the sibling pointed to before is
    dropped; no other object is written. *)
Theorem AddSibling_inserts_after (h : gmap Z TocItem) (this s : Z)
    (ti ts : TocItem) (l : list Z) :
  h !! this = Some ti ->
  h !! s = Some ts ->
  s <> this ->
  chain h (Some this) (this :: l) ->
  s ∉ l ->
  exists h' ts',
    AddSibling h this (Some s) = Ret h' /\
    chain h' (Some this) (this :: s :: l) /\
    h' !! s = Some ts' /\ parent ts' = parent ti /\ child ts' = child ts /\
    (forall x, x <> this -> x <> s -> h' !! x = h !! x).
Proof.
  intros Hti Hts Hne Hc Hnin.
  pose proof (chain_NoDup _ _ _ Hc) as Hnd. apply NoDup_cons in Hnd as [Hthis _].
  destruct Hc as (_ & ti0 & Hti0 & Hc).
  assert (ti0 = ti) as -> by congruence.
  set (h1 := <[this := set_next (Some s) ti]> h).
  set (h2 := <[s := set_next (next ti) ts]> h1).
  set (h3 := <[s := set_parent (parent ti) (set_next (next ti) ts)]> h2).
  assert (H1s : h1 !! s = Some ts).
  { unfold h1. by rewrite lookup_insert_ne. }
  assert (H2this : h2 !! this = Some (set_next (Some s) ti)).
  { unfold h2, h1. rewrite lookup_insert_ne by done. by rewrite lookup_insert_eq. }
  assert (H2s : h2 !! s = Some (set_next (next ti) ts)).
  { unfold h2. by rewrite lookup_insert_eq. }
  assert (Hrun : AddSibling h this (Some s) = Ret h3).
  { unfold AddSibling. rewrite (load_Some _ _ _ Hti). cbn [bind].
    rewrite (store_Some _ _ _ _ Hti). cbn [bind]. fold h1.
    rewrite (store_Some _ _ _ _ H1s). cbn [bind]. fold h2.
    rewrite (load_Some _ _ _ H2this). cbn [bind].
    by rewrite (store_Some _ _ _ _ H2s). }
  assert (Hframe : forall x, x <> this -> x <> s -> h3 !! x = h !! x).
  { intros x Hx1 Hx2. unfold h3, h2, h1. by rewrite !lookup_insert_ne. }
  assert (H3this : h3 !! this = Some (set_next (Some s) ti)).
  { unfold h3. by rewrite lookup_insert_ne. }
  assert (H3s : h3 !! s = Some (set_parent (parent ti) (set_next (next ti) ts))).
  { unfold h3. by rewrite lookup_insert_eq. }
  exists h3, (set_parent (parent ti) (set_next (next ti) ts)).
  split; [exact Hrun|]. split; [|by repeat split].
  split; [done|]. eexists. split; [exact H3this|]. cbn [next set_next].
  split; [done|]. eexists. split; [exact H3s|]. cbn [next set_next set_parent].
  apply (chain_unchanged h h3 l _ Hc). intros a Ha. apply Hframe.
  - intros ->. done.
  - intros ->. done.
Qed.

Lemma AddSibling_inserts_after_witness :
  exists h' ts',
    AddSibling toc_heap 2 (Some 4) = Ret h' /\
    chain h' (Some 2) [2; 4; 3] /\
    h' !! 4 = Some ts' /\ parent ts' = Some 1 /\ child ts' = None /\
    (forall x, x <> 2 -> x <> 4 -> h' !! x = toc_heap !! x).
Proof.
  apply (AddSibling_inserts_after toc_heap 2 4 (toc_item (Some 3) None (Some 1))
           (toc_item None None None) [3]).
  - reflexivity.
  - reflexivity.
  - lia.
  - cbn. repeat (split || eexists || reflexivity).
  - intros Hin. repeat (apply elem_of_cons in Hin as [Hin|Hin]; [lia|]).
    by apply elem_of_nil in Hin.
Defined.

Lemma AddSiblingAtEnd_loop_chain (h : gmap Z TocItem) :
  forall (l : list Z) (a : Z) (fuel : nat),
    chain h (Some a) l -> (length l <= fuel)%nat ->
    exists l0 e te,
      l = l0 ++ [e] /\ h !! e = Some te /\ next te = None /\
      AddSiblingAtEnd_loop fuel h a = Ret e.
Proof.
  induction l as [|b l IH]; intros a fuel Hc Hk; [cbn in Hc; discriminate|].
  destruct Hc as ([= <-] & ta & Hta & Hc). cbn [length] in Hk.
  destruct fuel as [|fuel]; [lia|].
  cbn [AddSiblingAtEnd_loop]. rewrite (load_Some _ _ _ Hta). cbn [bind].
  destruct (next ta) as [nx|] eqn:Hnx.
  - destruct (IH nx fuel Hc ltac:(lia)) as (l0 & e & te & -> & Hte & Hn & Hrun).
    exists (a :: l0), e, te. by repeat split.
  - destruct l as [|? ?]; [|by destruct Hc].
    exists [], a, ta. by repeat split.
Qed.

Lemma chain_append (h h' : gmap Z TocItem) (e : Z) (te' : TocItem)
    (ls : list Z) :
  forall (l0 : list Z) (p : option Z),
    chain h p (l0 ++ [e]) ->
    (forall x, x ∈ l0 -> h' !! x = h !! x) ->
    h' !! e = Some te' ->
    chain h' (next te') ls ->
    chain h' p (l0 ++ e :: ls).
Proof.
  induction l0 as [|b l0 IH]; intros p Hc Hfr He Hls.
  - destruct Hc as (-> & _). split; [done|]. by exists te'.
  - destruct Hc as (-> & tb & Htb & Hc). split; [done|].
    exists tb. split; [rewrite Hfr; [done|apply list_elem_of_here]|].
    apply IH; [done| |done|done].
    intros x Hx. apply Hfr. by apply list_elem_of_further.
Qed.

(** X13: [AddSiblingAtEnd] walks to the last item of the chain and hangs the
    sibling, with whatever follows it, behind it.  Only the sibling itself
    gets the parent of the last item; its own followers are not written. *)
Theorem AddSiblingAtEnd_appends (h : gmap Z TocItem) (this s : Z)
    (l ls : list Z) (fuel : nat) :
  chain h (Some this) l ->
  chain h (Some s) ls ->
  (forall x, x ∈ ls -> x ∉ l) ->
  (length l <= fuel)%nat ->
  exists h' e te ts',
    AddSiblingAtEnd fuel h this (Some s) = Ret h' /\
    last l = Some e /\ h !! e = Some te /\
    chain h' (Some this) (l ++ ls) /\
    h' !! s = Some ts' /\ parent ts' = parent te /\
    (forall x, x <> e -> x <> s -> h' !! x = h !! x).
Proof.
  intros Hc Hs Hdisj Hk.
  destruct (AddSiblingAtEnd_loop_chain h l this fuel Hc Hk)
    as (l0 & e & te & -> & Hte & Hn & Hrun).
  destruct (chain_head _ _ _ Hs) as [ls' ->].
  pose proof Hs as (_ & ts & Hts & Hs').
  pose proof (chain_NoDup _ _ _ Hs) as Hnds. apply NoDup_cons in Hnds as [Hsls _].
  pose proof (chain_NoDup _ _ _ Hc) as Hndl.
  apply NoDup_app in Hndl as (_ & Hl0e & _).
  assert (Hse : s <> e).
  { intros ->. apply (Hdisj e); [apply list_elem_of_here|].
    apply elem_of_app. right. apply list_elem_of_here. }
  set (h1 := <[e := set_next (Some s) te]> h).
  set (h2 := <[s := set_parent (parent te) ts]> h1).
  assert (H1e : h1 !! e = Some (set_next (Some s) te)).
  { unfold h1. by rewrite lookup_insert_eq. }
  assert (H1s : h1 !! s = Some ts).
  { unfold h1. by rewrite lookup_insert_ne. }
  assert (Hframe : forall x, x <> e -> x <> s -> h2 !! x = h !! x).
  { intros x Hx1 Hx2. unfold h2, h1. by rewrite !lookup_insert_ne. }
  assert (H2e : h2 !! e = Some (set_next (Some s) te)).
  { unfold h2. by rewrite lookup_insert_ne. }
  assert (H2s : h2 !! s = Some (set_parent (parent te) ts)).
  { unfold h2. by rewrite lookup_insert_eq. }
  exists h2, e, te, (set_parent (parent te) ts).
  split.
  { unfold AddSiblingAtEnd. rewrite Hrun. cbn [bind].
    rewrite (store_Some _ _ _ _ Hte). cbn [bind]. fold h1.
    rewrite (load_Some _ _ _ H1e). cbn [bind].
    by rewrite (store_Some _ _ _ _ H1s). }
  split; [by rewrite last_snoc|]. split; [done|].
  split; [|by repeat split].
  rewrite <- app_assoc. cbn [app].
  apply (chain_append h h2 e (set_next (Some s) te) (s :: ls') l0 _ Hc).
  - intros x Hx. apply Hframe.
    + intros ->. apply (Hl0e e Hx). apply list_elem_of_here.
    + intros ->. apply (Hdisj s); [apply list_elem_of_here|].
      apply elem_of_app. by left.
  - exact H2e.
  - cbn [next set_next]. split; [done|]. eexists. split; [exact H2s|].
    cbn [next set_parent].
    apply (chain_unchanged h h2 ls' _ Hs'). intros a Ha. apply Hframe.
    + intros ->. apply (Hdisj e); [by apply list_elem_of_further|].
      apply elem_of_app. right. apply list_elem_of_here.
    + intros ->. done.
Qed.

Lemma AddSiblingAtEnd_appends_witness :
  exists h' e te ts',
    AddSiblingAtEnd 2 toc_heap 2 (Some 4) = Ret h' /\
    last [2; 3] = Some e /\ toc_heap !! e = Some te /\
    chain h' (Some 2) ([2; 3] ++ [4]) /\
    h' !! 4 = Some ts' /\ parent ts' = parent te /\
    (forall x, x <> e -> x <> 4 -> h' !! x = toc_heap !! x).
Proof.
  apply (AddSiblingAtEnd_appends toc_heap 2 4 [2; 3] [4] 2).
  - cbn. repeat (split || eexists || reflexivity).
  - cbn. repeat (split || eexists || reflexivity).
  - intros x Hx Hin. apply list_elem_of_singleton in Hx as ->.
    repeat (apply elem_of_cons in Hin as [Hin|Hin]; [lia|]).
    by apply elem_of_nil in Hin.
  - cbn. lia.
Defined.

Lemma chain_first (h : gmap Z TocItem) (p : option Z) (l : list Z) :
  chain h p l -> p = l !! 0%nat.
Proof. destruct l as [|a l]; [done|]. by intros (-> & _). Qed.

Lemma chain_next (h : gmap Z TocItem) :
  forall (l : list Z) (p : option Z) (i : nat) (c : Z) (tc : TocItem),
    chain h p l -> l !! i = Some c -> h !! c = Some tc ->
    next tc = l !! S i.
Proof.
  induction l as [|a l IH]; intros p i c tc Hc Hi Htc; [done|].
  destruct Hc as (-> & ta & Hta & Hc). destruct i as [|i].
  - cbn in Hi. assert (a = c) as -> by congruence.
    assert (ta = tc) as -> by congruence. cbn. by apply chain_first in Hc.
  - cbn in Hi. cbn. eauto.
Qed.

Lemma ChildAt_loop_chain (h : gmap Z TocItem) :
  forall (k : nat) (l : list Z) (p : option Z) (n : Z),
    chain h p l -> 0 <= n <= Z.of_nat (length l) -> (Z.to_nat n < k)%nat ->
    ChildAt_loop k h p n = Ret (l !! Z.to_nat n).
Proof.
  induction k as [|k IH]; intros l p n Hc Hn Hk; [lia|].
  cbn [ChildAt_loop]. destruct (n >? 0) eqn:Hpos.
  - destruct l as [|a l]; [cbn in Hn; lia|].
    destruct Hc as (-> & ta & Hta & Hc).
    rewrite (load_Some _ _ _ Hta). cbn [bind].
    rewrite (IH l (next ta) (n - 1) Hc); [|cbn [length] in Hn; lia|lia].
    replace (Z.to_nat n) with (S (Z.to_nat (n - 1))) by lia. done.
  - replace (Z.to_nat n) with 0%nat by lia. f_equal. by eapply chain_first.
Qed.

Lemma ChildAt_loop_past_end (h : gmap Z TocItem) :
  forall (k : nat) (l : list Z) (p : option Z) (n : Z),
    chain h p l -> Z.of_nat (length l) < n -> (Z.to_nat n < k)%nat ->
    ChildAt_loop k h p n = Undefined (OutOfBoundsRead 0).
Proof.
  induction k as [|k IH]; intros l p n Hc Hn Hk; [lia|].
  cbn [ChildAt_loop]. destruct (n >? 0) eqn:Hpos; [|lia].
  destruct l as [|a l].
  - cbn in Hc. subst p. done.
  - destruct Hc as (-> & ta & Hta & Hc).
    rewrite (load_Some _ _ _ Hta). cbn [bind].
    apply (IH l); [done|cbn [length] in Hn; lia|lia].
Qed.

(** X14: [ChildAt] returns child number [n] of the item, and null for [n] equal
    to the number of children, on each of its three paths (first child,
    cursor, walk from the first child), as long as the cursor it finds is
    the child its number says.  It leaves the cursor in that state, writes
    only the two cursor members of the item, and no other object. *)
Theorem ChildAt_nth (h : gmap Z TocItem) (this : Z) (ti : TocItem)
    (l : list Z) (n : Z) :
  h !! this = Some ti ->
  chain h (child ti) l ->
  cache_ok l ti ->
  Z.of_nat (length l) < 2 ^ 31 ->
  0 <= n <= Z.of_nat (length l) ->
  exists h' ti',
    ChildAt h this n = Ret (h', l !! Z.to_nat n) /\
    h' !! this = Some ti' /\
    cache_ok l ti' /\ chain h' (child ti') l /\
    next ti' = next ti /\ child ti' = child ti /\ parent ti' = parent ti /\
    (forall x, x <> this -> h' !! x = h !! x).
Proof.
  intros Hti Hc Hcache Hlen Hn.
  assert (Hkeep : forall (v : option Z) (m : Z),
    chain (<[this := set_currChildNo m (set_currChild v ti)]>
             (<[this := set_currChild v ti]> h)) (child ti) l).
  { intros v m. apply (chain_frame h _ l _ Hc). intros a Ha.
    destruct (decide (a = this)) as [->|Hat].
    - exists ti. eexists. split; [done|]. split; [by rewrite lookup_insert_eq|done].
    - destruct (chain_lookup _ _ _ _ Hc Ha) as [ta Hta].
      exists ta, ta. split; [done|]. split; [|done].
      by rewrite !lookup_insert_ne. }
  unfold ChildAt. rewrite (load_Some _ _ _ Hti). cbn [bind].
  destruct (n =? 0) eqn:Hn0.
  - apply Z.eqb_eq in Hn0 as ->.
    rewrite (store_Some _ _ _ _ Hti). cbn [bind].
    erewrite store_Some by apply lookup_insert_eq. cbn [bind].
    erewrite load_Some by apply lookup_insert_eq. cbn [bind].
    eexists _, _. split; [|split; [by apply lookup_insert_eq|]].
    { cbn. by rewrite (chain_first _ _ _ Hc). }
    split; [|split; [apply Hkeep|repeat split; try done]].
    + unfold cache_ok. cbn.
      destruct (l !! 0%nat) eqn:E; [split; [lia|exact E]|done].
    + intros x Hx. by rewrite !lookup_insert_ne.
  - apply Z.eqb_neq in Hn0.
    destruct (currChild ti) as [c|] eqn:Hcur.
    + unfold cache_ok in Hcache. rewrite Hcur in Hcache.
      destruct Hcache as [Hno Hat].
      pose proof (lookup_lt_Some _ _ _ Hat) as Hlt.
      rewrite (to_int_small (currChildNo ti + 1)) by lia.
      rewrite bool_decide_true by done. cbn [andb].
      destruct (n =? currChildNo ti + 1) eqn:Hhit.
      * apply Z.eqb_eq in Hhit.
        destruct (chain_lookup _ _ _ _ Hc (list_elem_of_lookup_2 _ _ _ Hat))
          as [tc Htc].
        pose proof (chain_next _ _ _ _ _ _ Hc Hat Htc) as Hnext.
        rewrite (load_Some _ _ _ Htc). cbn [bind].
        rewrite (store_Some _ _ _ _ Hti). cbn [bind].
        erewrite load_Some by apply lookup_insert_eq. cbn [bind].
        erewrite store_Some by apply lookup_insert_eq. cbn [bind].
        erewrite load_Some by apply lookup_insert_eq. cbn [bind].
        cbn [currChildNo set_currChild set_currChildNo currChild].
        rewrite (to_int_small (currChildNo ti + 1)) by lia.
        eexists _, _. split; [|split; [by apply lookup_insert_eq|]].
        { rewrite Hnext. do 3 f_equal. lia. }
        split; [|split; [apply Hkeep|repeat split; try done]].
        -- unfold cache_ok. cbn.
           replace (Z.to_nat (currChildNo ti + 1))
             with (S (Z.to_nat (currChildNo ti))) by lia.
           destruct (l !! S (Z.to_nat (currChildNo ti))) eqn:E; [|done].
           split; [lia|done].
        -- intros x Hx. by rewrite !lookup_insert_ne.
      * rewrite (ChildAt_loop_chain h _ l (child ti) n Hc Hn) by lia.
        cbn [bind]. exists h, ti. repeat split; try done.
        unfold cache_ok. rewrite Hcur. done.
    + cbn [bool_decide andb].
      rewrite bool_decide_false by (intros Hx; by apply Hx).
      cbn [andb].
      rewrite (ChildAt_loop_chain h _ l (child ti) n Hc Hn) by lia.
      cbn [bind]. exists h, ti. repeat split; try done.
Qed.

Lemma ChildAt_nth_witness :
  exists h' ti',
    ChildAt toc_heap_cursor 1 1 = Ret (h', [2; 3] !! Z.to_nat 1) /\
    h' !! 1 = Some ti' /\
    cache_ok [2; 3] ti' /\ chain h' (child ti') [2; 3] /\
    next ti' = None /\ child ti' = Some 2 /\ parent ti' = None /\
    (forall x, x <> 1 -> h' !! x = toc_heap_cursor !! x).
Proof.
  apply (ChildAt_nth toc_heap_cursor 1
           (mkTocItem None (Some 2) None false false (Some 2) 0) [2; 3] 1).
  - reflexivity.
  - cbn. repeat (split || eexists || reflexivity).
  - unfold cache_ok. cbn. split; [lia|reflexivity].
  - cbn. lia.
  - cbn. lia.
Defined.

(** X15: Outside the children: a negative number gives the first child, and a
    number beyond the number of children follows the null pointer that
    ends the chain. *)
Theorem ChildAt_out_of_range (h : gmap Z TocItem) (this : Z) (ti : TocItem)
    (l : list Z) (n : Z) :
  h !! this = Some ti ->
  chain h (child ti) l ->
  cache_ok l ti ->
  Z.of_nat (length l) < 2 ^ 31 ->
  n < 0 \/ Z.of_nat (length l) < n ->
  ChildAt h this n =
    if n <? 0 then Ret (h, child ti) else Undefined (OutOfBoundsRead 0).
Proof.
  intros Hti Hc Hcache Hlen Hn.
  unfold ChildAt. rewrite (load_Some _ _ _ Hti). cbn [bind].
  replace (n =? 0) with false by lia.
  assert (Hmiss : bool_decide (currChild ti <> None) &&
                  (n =? to_int (currChildNo ti + 1)) = false).
  { unfold cache_ok in Hcache. destruct (currChild ti) as [c|].
    - destruct Hcache as [Hno Hat]. apply lookup_lt_Some in Hat.
      rewrite to_int_small by lia.
      replace (n =? currChildNo ti + 1) with false by lia.
      by rewrite andb_false_r.
    - by rewrite bool_decide_false by (intros Hx; by apply Hx). }
  rewrite Hmiss. destruct (n <? 0) eqn:Hneg.
  - destruct (Z.to_nat n) eqn:E; [|lia]. cbn [ChildAt_loop].
    replace (n >? 0) with false by lia. done.
  - rewrite (ChildAt_loop_past_end h _ l (child ti) n Hc) by lia. done.
Qed.

Lemma ChildAt_out_of_range_witness :
  ChildAt toc_heap 1 3 = Undefined (OutOfBoundsRead 0).
Proof.
  apply (ChildAt_out_of_range toc_heap 1 (toc_item None (Some 2) None) [2; 3] 3).
  - reflexivity.
  - cbn. repeat (split || eexists || reflexivity).
  - exact I.
  - cbn. lia.
  - cbn. lia.
Defined.

Lemma AddChild_run (h : gmap Z TocItem) (this c : Z) (ti tc : TocItem) :
  h !! this = Some ti -> h !! c = Some tc -> c <> this ->
  AddChild h this (Some c) =
    Ret (<[c := set_next (child ti) (set_parent (Some this) tc)]>
           (<[c := set_parent (Some this) tc]>
              (<[this := set_child (Some c) ti]> h))).
Proof.
  intros Hti Htc Hne. unfold AddChild.
  rewrite (load_Some _ _ _ Hti). cbn [bind].
  rewrite (store_Some _ _ _ _ Hti). cbn [bind].
  erewrite store_Some by (rewrite lookup_insert_ne by done; exact Htc).
  cbn [bind]. erewrite store_Some by apply lookup_insert_eq. done.
Qed.

(** X16: [AddChild] leaves the cursor of [ChildAt] as it is.  After
    [ChildAt 0], a new first child and [ChildAt 1], the cursor steps from
    the old first child: the call returns the old child number 1, which
    is child number 2 of the new chain, and not the old first child that
    is now child number 1. *)
Theorem ChildAt_cursor_stale_after_AddChild (h : gmap Z TocItem)
    (this a c : Z) (ti tc : TocItem) (l : list Z) :
  h !! this = Some ti ->
  chain h (child ti) (a :: l) ->
  h !! c = Some tc ->
  c <> this ->
  c ∉ a :: l ->
  exists h1 h2 h3 ti2,
    ChildAt h this 0 = Ret (h1, Some a) /\
    AddChild h1 this (Some c) = Ret h2 /\
    h2 !! this = Some ti2 /\ chain h2 (child ti2) (c :: a :: l) /\
    ChildAt h2 this 1 = Ret (h3, (c :: a :: l) !! 2%nat).
Proof.
  intros Hti Hc Htc Hne Hnin.
  pose proof Hc as (Hch & ta & Hta & Hc').
  apply not_elem_of_cons in Hnin as [Hca Hcl].
  set (t1 := set_currChildNo 0 (set_currChild (child ti) ti)).
  set (h1 := <[this := t1]> (<[this := set_currChild (child ti) ti]> h)).
  set (t2 := set_child (Some c) t1).
  set (tc2 := set_next (child t1) (set_parent (Some this) tc)).
  set (h2 := <[c := tc2]> (<[c := set_parent (Some this) tc]>
                             (<[this := t2]> h1))).
  assert (H1this : h1 !! this = Some t1) by apply lookup_insert_eq.
  assert (H1c : h1 !! c = Some tc).
  { unfold h1. by rewrite !lookup_insert_ne. }
  assert (H2this : h2 !! this = Some t2).
  { unfold h2. rewrite !lookup_insert_ne by done. apply lookup_insert_eq. }
  assert (H2c : h2 !! c = Some tc2) by apply lookup_insert_eq.
  assert (H2a : exists ta', h2 !! a = Some ta' /\ next ta' = next ta).
  { destruct (decide (a = this)) as [->|Hat].
    - exists t2. split; [done|]. assert (ta = ti) as -> by congruence. done.
    - exists ta. split; [|done]. unfold h2, h1.
      rewrite !lookup_insert_ne by done. done. }
  destruct H2a as (ta' & Hta' & Hnx).
  assert (Hfr : forall x, x ∈ a :: l ->
            exists tx tx', h !! x = Some tx /\ h2 !! x = Some tx' /\
                           next tx' = next tx).
  { intros x Hx. assert (x <> c).
    { intros ->. apply elem_of_cons in Hx as [->|Hx]; done. }
    destruct (decide (x = this)) as [->|Hxt].
    - exists ti, t2. by repeat split.
    - destruct (chain_lookup _ _ _ _ Hc Hx) as [tx Htx].
      exists tx, tx. split; [done|]. split; [|done].
      unfold h2, h1. by rewrite !lookup_insert_ne. }
  eexists h1, h2, _, t2.
  split.
  { unfold ChildAt. rewrite (load_Some _ _ _ Hti). cbn [bind Z.eqb].
    rewrite (store_Some _ _ _ _ Hti). cbn [bind].
    erewrite store_Some by apply lookup_insert_eq. cbn [bind].
    erewrite load_Some by apply lookup_insert_eq. cbn [bind].
    cbn [child set_currChildNo set_currChild]. by rewrite <- Hch. }
  split; [by apply AddChild_run|]. split; [exact H2this|].
  split.
  { split; [done|]. exists tc2. split; [exact H2c|].
    cbn [next tc2 set_next t1 child set_currChildNo set_currChild].
    apply (chain_frame h h2 (a :: l) _ Hc Hfr). }
  unfold ChildAt. rewrite (load_Some _ _ _ H2this). cbn [bind].
  change (1 =? 0) with false. cbv iota.
  change (currChild t2) with (child ti). rewrite Hch.
  rewrite bool_decide_true by done.
  change (currChildNo t2) with 0.
  change (1 =? to_int (0 + 1)) with true. cbn [andb].
  rewrite (load_Some _ _ _ Hta'). cbn [bind].
  rewrite (store_Some _ _ _ _ H2this). cbn [bind].
  erewrite load_Some by apply lookup_insert_eq. cbn [bind].
  erewrite store_Some by apply lookup_insert_eq. cbn [bind].
  erewrite load_Some by apply lookup_insert_eq. cbn [bind].
  cbn [currChild set_currChild set_currChildNo].
  rewrite Hnx. rewrite (chain_first _ _ _ Hc'). done.
Qed.

Lemma ChildAt_cursor_stale_after_AddChild_witness :
  exists h1 h2 h3 ti2,
    ChildAt toc_heap 1 0 = Ret (h1, Some 2) /\
    AddChild h1 1 (Some 4) = Ret h2 /\
    h2 !! 1 = Some ti2 /\ chain h2 (child ti2) [4; 2; 3] /\
    ChildAt h2 1 1 = Ret (h3, [4; 2; 3] !! 2%nat).
Proof.
  apply (ChildAt_cursor_stale_after_AddChild toc_heap 1 2 4
           (toc_item None (Some 2) None) (toc_item None None None) [3]).
  - reflexivity.
  - cbn. repeat (split || eexists || reflexivity).
  - reflexivity.
  - lia.
  - intros Hin. repeat (apply elem_of_cons in Hin as [Hin|Hin]; [lia|]).
    by apply elem_of_nil in Hin.
Defined.

(** The step [if (!IsExpanded()) isOpenToggled = !isOpenToggled] on one
    item. *)
Lemma expand_step (h : gmap Z TocItem) (a : Z) (ta : TocItem) :
  h !! a = Some ta ->
  exists e : bool,
    IsExpanded h (Some a) = Ret e /\
    (if negb e then
       let! t := load h (Some a) in
       store h (Some a) (set_isOpenToggled (negb (isOpenToggled t)))
     else Ret h) = Ret (<[a := opened ta]> h).
Proof.
  intros Hta. unfold IsExpanded. rewrite (load_Some _ _ _ Hta). cbn [bind].
  assert (Hid : forall v, v = isOpenToggled ta -> set_isOpenToggled v ta = ta).
  { intros v ->. by destruct ta. }
  unfold opened.
  destruct (child ta) as [ch|].
  - eexists. split; [done|].
    destruct (isOpenDefault ta) eqn:Hd, (isOpenToggled ta) eqn:Ht;
      cbn [negb Bool.eqb bind].
    + by rewrite (store_Some _ _ _ _ Hta).
    + rewrite Hid by done. f_equal. symmetry. by apply insert_id.
    + rewrite Hid by done. f_equal. symmetry. by apply insert_id.
    + by rewrite (store_Some _ _ _ _ Hta).
  - eexists. split; [done|]. cbn [negb bind].
    by rewrite (store_Some _ _ _ _ Hta).
Qed.

Lemma IsExpanded_opened (h : gmap Z TocItem) (a : Z) (ta : TocItem) :
  h !! a = Some (opened ta) ->
  IsExpanded h (Some a) = Ret (bool_decide (child ta <> None)).
Proof.
  intros Hta. unfold IsExpanded. rewrite (load_Some _ _ _ Hta). cbn [bind].
  destruct ta as [nx ch pa d t cc cn]. unfold opened. cbn.
  destruct ch as [ch|]; [|done]. by destruct d.
Qed.

(** X17: [OpenSingleNode] does nothing when the chain from the item has more
    than two items.  Otherwise every item of the chain that has children
    is expanded afterwards, and every item without children has
    [isOpenToggled] flipped (and is still not expanded); no other member
    and no other object is written. *)
Theorem OpenSingleNode_opens (h : gmap Z TocItem) (this : Z) (l : list Z) :
  chain h (Some this) l ->
  exists h',
    OpenSingleNode h this = Ret h' /\
    (2 < length l -> h' = h)%nat /\
    ((length l <= 2)%nat ->
     forall a ta, a ∈ l -> h !! a = Some ta ->
       h' !! a = Some (opened ta) /\
       IsExpanded h' (Some a) = Ret (bool_decide (child ta <> None))) /\
    (forall x, x ∉ l -> h' !! x = h !! x).
Proof.
  intros Hc. pose proof (chain_NoDup _ _ _ Hc) as Hnd.
  destruct l as [|a0 l]; [cbn in Hc; discriminate|].
  destruct Hc as ([= <-] & ti & Hti & Hc).
  destruct (expand_step h this ti Hti) as (e1 & He1 & Hstep1).
  unfold OpenSingleNode. unfold load at 1. rewrite Hti. cbn [bind].
  destruct l as [|b l].
  - cbn in Hc. rewrite Hc. cbn [bind].
    rewrite He1. cbn [bind]. rewrite Hstep1. cbn [bind].
    erewrite load_Some by apply lookup_insert_eq. cbn [bind].
    change (next (opened ti)) with (next ti). rewrite Hc.
    eexists. split; [done|]. split; [cbn; lia|]. split.
    + intros _ a ta Ha Hta. apply list_elem_of_singleton in Ha as ->.
      assert (ta = ti) as -> by congruence.
      split; [apply lookup_insert_eq|].
      apply IsExpanded_opened, lookup_insert_eq.
    + intros x Hx. apply lookup_insert_ne. intros ->. apply Hx.
      apply list_elem_of_here.
  - destruct Hc as (Hnx & tb & Htb & Hc). rewrite Hnx.
    rewrite (load_Some _ _ _ Htb). cbn [bind].
    assert (Hne : this <> b).
    { apply NoDup_cons in Hnd as [Hnin _]. intros ->. apply Hnin.
      apply list_elem_of_here. }
    destruct l as [|c l].
    + cbn in Hc. rewrite Hc. rewrite bool_decide_false by (intros Hx; by apply Hx).
      rewrite He1. cbn [bind]. rewrite Hstep1. cbn [bind].
      erewrite load_Some by apply lookup_insert_eq. cbn [bind].
      change (next (opened ti)) with (next ti). rewrite Hnx.
      assert (Hb' : <[this := opened ti]> h !! b = Some tb).
      { by rewrite lookup_insert_ne. }
      destruct (expand_step _ b tb Hb') as (e2 & He2 & Hstep2).
      rewrite He2. cbn [bind]. rewrite Hstep2.
      eexists. split; [done|]. split; [cbn; lia|]. split.
      * intros _ a ta Ha Hta.
        apply elem_of_cons in Ha as [->|Ha].
        -- assert (ta = ti) as -> by congruence.
           assert (Hl : <[b := opened tb]> (<[this := opened ti]> h) !! this
                        = Some (opened ti)).
           { rewrite lookup_insert_ne by done. apply lookup_insert_eq. }
           split; [exact Hl|]. by apply IsExpanded_opened.
        -- apply list_elem_of_singleton in Ha as ->.
           assert (ta = tb) as -> by congruence.
           split; [apply lookup_insert_eq|].
           apply IsExpanded_opened, lookup_insert_eq.
      * intros x Hx. rewrite !lookup_insert_ne; [done| |].
        -- intros ->. apply Hx. apply list_elem_of_here.
        -- intros ->. apply Hx. apply list_elem_of_further, list_elem_of_here.
    + destruct Hc as (Hnb & _). rewrite Hnb. rewrite bool_decide_true by done.
      exists h. split; [done|]. split; [done|]. split; [cbn; lia|done].
Qed.

Lemma OpenSingleNode_opens_witness :
  exists h',
    OpenSingleNode toc_heap 1 = Ret h' /\
    (2 < length [1] -> h' = toc_heap)%nat /\
    ((length [1] <= 2)%nat ->
     forall a ta, a ∈ [1] -> toc_heap !! a = Some ta ->
       h' !! a = Some (opened ta) /\
       IsExpanded h' (Some a) = Ret (bool_decide (child ta <> None))) /\
    (forall x, x ∉ [1] -> h' !! x = toc_heap !! x).
Proof.
  apply (OpenSingleNode_opens toc_heap 1 [1]).
  cbn. repeat (split || eexists || reflexivity).
Defined.

(** ** Walking the table of contents *)

Lemma shape_null (h : gmap Z TocItem) (s : Shape) :
  shape h None s -> s = Leaf.
Proof. destruct s; [done|]. by intros [? _]. Qed.

Lemma visited_all (p : Z -> bool) (l : list Z) :
  forallb p l = true -> visited p l = l.
Proof.
  induction l as [|a l IH]; [done|]. cbn. intros [Ha Hl]%andb_prop.
  rewrite Ha. f_equal. auto.
Qed.

Lemma visited_app (p : Z -> bool) (l1 l2 : list Z) :
  visited p (l1 ++ l2) =
    if forallb p l1 then l1 ++ visited p l2 else visited p l1.
Proof.
  induction l1 as [|a l1 IH]; [done|]. cbn. destruct (p a); cbn; [|done].
  rewrite IH. by destruct (forallb p l1).
Qed.

(** X18: [VisitTocTree] calls the callback on the items in pre-order, stops
    after the first item the callback refuses, and returns whether no item
    was refused.  Here for a callback that leaves the heap alone. *)
Theorem VisitTocTree_preorder (p : Z -> bool) (h : gmap Z TocItem)
    (s : Shape) :
  forall (fuel : nat) (st : list Z) (ti : option Z),
    shape h ti s ->
    (length (preorder s) < fuel)%nat ->
    VisitTocTree (visit_log p) fuel st h ti =
      Ret (st ++ visited p (preorder s), h, forallb p (preorder s)).
Proof.
  induction s as [|a c IHc n IHn]; intros fuel st ti Hs Hk.
  - cbn in Hs. subst ti. destruct fuel; [cbn in Hk; lia|].
    cbn. by rewrite List.app_nil_r.
  - destruct Hs as (-> & ta & Hta & Hc & Hn).
    destruct fuel as [|k]; [lia|].
    cbn [preorder length] in Hk. rewrite length_app in Hk.
    cbn [VisitTocTree visit_log bind].
    rewrite (load_Some _ _ _ Hta). cbn [bind].
    cbn [preorder visited forallb]. rewrite forallb_app.
    destruct (p a) eqn:Hpa; cbn [andb].
    + destruct (child ta) as [ch|] eqn:Hch.
      * rewrite bool_decide_true by done.
        rewrite (IHc k (st ++ [a]) (Some ch) Hc) by lia. cbn [bind].
        rewrite visited_app.
        destruct (forallb p (preorder c)) eqn:Hall; cbn [negb].
        -- rewrite (load_Some _ _ _ Hta). cbn [bind].
           rewrite (IHn k _ (next ta) Hn) by lia.
           rewrite (visited_all _ _ Hall). cbn [andb].
           by rewrite <- !app_assoc.
        -- cbn [andb]. by rewrite <- app_assoc.
      * rewrite bool_decide_false by (intros Hx; by apply Hx).
        cbn [bind negb]. rewrite (load_Some _ _ _ Hta). cbn [bind].
        apply shape_null in Hc as ->. cbn [preorder app forallb].
        rewrite (IHn k _ (next ta) Hn) by (cbn in Hk; lia).
        by rewrite <- app_assoc.
    + cbn [bind negb]. done.
Qed.

Lemma VisitTocTree_preorder_witness :
  VisitTocTree (visit_log (fun a => negb (a =? 3))) 6 [] toc_tree (Some 1) =
    Ret ([1; 2; 4; 3], toc_tree, false).
Proof.
  apply (VisitTocTree_preorder (fun a => negb (a =? 3)) toc_tree toc_shape
           6 [] (Some 1)).
  - cbn. repeat (split || eexists || reflexivity).
  - cbn. lia.
Defined.

Lemma shape_frame (h h' : gmap Z TocItem) (s : Shape) :
  forall p,
    shape h p s ->
    (forall x, x ∈ preorder s ->
       exists t t', h !! x = Some t /\ h' !! x = Some t' /\
                    next t' = next t /\ child t' = child t) ->
    shape h' p s.
Proof.
  induction s as [|a c IHc n IHn]; intros p Hs Hfr; [done|].
  destruct Hs as (-> & ta & Hta & Hc & Hn). split; [done|].
  destruct (Hfr a) as (t & t' & Ht & Ht' & Hnx & Hch); [apply list_elem_of_here|].
  assert (t = ta) as -> by congruence.
  exists t'. split; [done|]. rewrite Hnx, Hch. split.
  - apply IHc; [done|]. intros x Hx. apply Hfr. cbn.
    apply list_elem_of_further, elem_of_app. by left.
  - apply IHn; [done|]. intros x Hx. apply Hfr. cbn.
    apply list_elem_of_further, elem_of_app. by right.
Qed.

Lemma shape_lookup (h : gmap Z TocItem) (s : Shape) :
  forall p x, shape h p s -> x ∈ preorder s -> exists t, h !! x = Some t.
Proof.
  induction s as [|a c IHc n IHn]; intros p x Hs Hx;
    [by apply elem_of_nil in Hx|].
  destruct Hs as (-> & ta & Hta & Hc & Hn). cbn in Hx.
  apply elem_of_cons in Hx as [->|Hx]; [eauto|].
  apply elem_of_app in Hx as [Hx|Hx]; eauto.
Qed.

Lemma parents_preorder (s : Shape) :
  forall par, (parents par s).*1 = preorder s.
Proof.
  induction s as [|a c IHc n IHn]; intros par; [done|].
  cbn. rewrite fmap_app, IHc, IHn. done.
Qed.

Lemma parents_elem (s : Shape) (par : option Z) (x : Z) (q : option Z) :
  (x, q) ∈ parents par s -> x ∈ preorder s.
Proof.
  intros Hx. rewrite <- (parents_preorder s par).
  apply list_elem_of_fmap. by exists (x, q).
Qed.

Lemma preorder_parent (s : Shape) (par : option Z) (x : Z) :
  x ∈ preorder s -> exists q, (x, q) ∈ parents par s.
Proof.
  rewrite <- (parents_preorder s par). intros Hx.
  apply list_elem_of_fmap in Hx as ([y q] & -> & Hx). by exists q.
Qed.

Lemma VisitTocTreeWithParentRecursive_setTocItemParent (s : Shape) :
  forall (fuel : nat) (h : gmap Z TocItem) (ti par : option Z),
    shape h ti s ->
    NoDup (preorder s) ->
    (length (preorder s) < fuel)%nat ->
    exists h',
      VisitTocTreeWithParentRecursive setTocItemParent fuel h ti par
        = Ret (h', true) /\
      (forall x q, (x, q) ∈ parents par s ->
         exists t, h !! x = Some t /\ h' !! x = Some (set_parent q t)) /\
      (forall x, x ∉ preorder s -> h' !! x = h !! x).
Proof.
  induction s as [|a c IHc n IHn]; intros fuel h ti par Hs Hnd Hk.
  - cbn in Hs. subst ti. destruct fuel; [cbn in Hk; lia|].
    exists h. split; [done|]. split; [|done].
    intros x q Hx. by apply elem_of_nil in Hx.
  - destruct Hs as (-> & ta & Hta & Hc & Hn).
    destruct fuel as [|k]; [lia|].
    cbn [preorder length] in Hk. rewrite length_app in Hk.
    cbn [preorder] in Hnd. apply NoDup_cons in Hnd as [Ha Hnd].
    apply NoDup_app in Hnd as (Hndc & Hdisj & Hndn).
    apply not_elem_of_app in Ha as [Hac Han].
    set (h1 := <[a := set_parent par ta]> h).
    assert (H1a : h1 !! a = Some (set_parent par ta)) by apply lookup_insert_eq.
    assert (H1 : forall x, x <> a -> h1 !! x = h !! x).
    { intros x Hx. by apply lookup_insert_ne. }
    assert (Hc1 : shape h1 (child ta) c).
    { apply (shape_frame h h1 c _ Hc). intros x Hx.
      destruct (shape_lookup _ _ _ _ Hc Hx) as [t Ht].
      exists t, t. rewrite H1 by (intros ->; done). done. }
    (* the children *)
    assert (Hchildren : exists h2,
      (if true && bool_decide (child (set_parent par ta) <> None)
       then VisitTocTreeWithParentRecursive setTocItemParent k h1
              (child (set_parent par ta)) (Some a)
       else Ret (h1, true)) = Ret (h2, true) /\
      (forall x q, (x, q) ∈ parents (Some a) c ->
         exists t, h1 !! x = Some t /\ h2 !! x = Some (set_parent q t)) /\
      (forall x, x ∉ preorder c -> h2 !! x = h1 !! x)).
    { change (child (set_parent par ta)) with (child ta). cbn [andb].
      destruct (child ta) as [ch|] eqn:Hch.
      - rewrite bool_decide_true by done.
        apply (IHc k h1 (Some ch) (Some a) Hc1 Hndc). lia.
      - rewrite bool_decide_false by (intros Hx; by apply Hx).
        apply shape_null in Hc1 as ->. exists h1. split; [done|].
        split; [|done]. intros x q Hx. by apply elem_of_nil in Hx. }
    destruct Hchildren as (h2 & Hrun2 & Hpar2 & Hfr2).
    assert (H2a : h2 !! a = Some (set_parent par ta)).
    { by rewrite Hfr2. }
    assert (Hn2 : shape h2 (next ta) n).
    { apply (shape_frame h h2 n _ Hn). intros x Hx.
      destruct (shape_lookup _ _ _ _ Hn Hx) as [t Ht].
      exists t, t. split; [done|]. split; [|done].
      rewrite Hfr2 by (intros Hxc; by apply (Hdisj x Hxc)).
      rewrite H1 by (intros ->; done). done. }
    destruct (IHn k h2 (next ta) par Hn2 Hndn ltac:(lia))
      as (h3 & Hrun3 & Hpar3 & Hfr3).
    exists h3. split; [|split].
    + cbn [VisitTocTreeWithParentRecursive].
      unfold setTocItemParent at 1. rewrite (store_Some _ _ _ _ Hta).
      cbn [bind]. fold h1. rewrite (load_Some _ _ _ H1a). cbn [bind].
      rewrite Hrun2. cbn [bind negb].
      rewrite (load_Some _ _ _ H2a). cbn [bind].
      exact Hrun3.
    + intros x q Hx. cbn [parents] in Hx.
      apply elem_of_cons in Hx as [[= -> ->]|Hx];
        [|apply elem_of_app in Hx as [Hx|Hx]].
      * exists ta. split; [done|]. by rewrite Hfr3.
      * pose proof (parents_elem _ _ _ _ Hx) as Hxc.
        destruct (Hpar2 x q Hx) as (t & Ht1 & Ht2).
        exists t. split; [by rewrite <- H1 by (intros ->; done)|].
        rewrite Hfr3; [done|]. intros Hxn. by apply (Hdisj x Hxc).
      * pose proof (parents_elem _ _ _ _ Hx) as Hxn.
        destruct (Hpar3 x q Hx) as (t & Ht2 & Ht3).
        exists t. split; [|done].
        rewrite <- H1 by (intros ->; done).
        rewrite <- Hfr2; [done|]. intros Hxc. by apply (Hdisj x Hxc).
    + intros x Hx. cbn [preorder] in Hx.
      apply not_elem_of_cons in Hx as [Hxa Hx].
      apply not_elem_of_app in Hx as [Hxc Hxn].
      by rewrite Hfr3, Hfr2, H1.
Qed.

(** X19: [SetTocTreeParents] returns on a table of contents in which no item
    is reached twice, with every item's [parent] the item it hangs under
    (null for the items at the top), whatever the parents were before.
    Nothing else changes: the shape is the same and the objects outside
    the table are not written. *)
Theorem SetTocTreeParents_sets_parents (h : gmap Z TocItem)
    (treeRoot : option Z) (s : Shape) (fuel : nat) :
  shape h treeRoot s ->
  NoDup (preorder s) ->
  (length (preorder s) < fuel)%nat ->
  exists h',
    SetTocTreeParents fuel h treeRoot = Ret h' /\
    shape h' treeRoot s /\
    (forall x q, (x, q) ∈ parents None s ->
       exists t, h !! x = Some t /\ h' !! x = Some (set_parent q t)) /\
    (forall x, x ∉ preorder s -> h' !! x = h !! x).
Proof.
  intros Hs Hnd Hk.
  destruct (VisitTocTreeWithParentRecursive_setTocItemParent
              s fuel h treeRoot None Hs Hnd Hk) as (h' & Hrun & Hpar & Hfr).
  exists h'. split; [|split; [|by split]].
  - unfold SetTocTreeParents, VisitTocTreeWithParent. by rewrite Hrun.
  - apply (shape_frame h h' s _ Hs). intros x Hx.
    destruct (preorder_parent s None x Hx) as [q Hq].
    destruct (Hpar x q Hq) as (t & Ht & Ht').
    exists t, (set_parent q t). by repeat split.
Qed.

Lemma SetTocTreeParents_sets_parents_witness :
  exists h',
    SetTocTreeParents 6 toc_tree (Some 1) = Ret h' /\
    shape h' (Some 1) toc_shape /\
    (forall x q, (x, q) ∈ parents None toc_shape ->
       exists t, toc_tree !! x = Some t /\ h' !! x = Some (set_parent q t)) /\
    (forall x, x ∉ preorder toc_shape -> h' !! x = toc_tree !! x).
Proof.
  apply (SetTocTreeParents_sets_parents toc_tree (Some 1) toc_shape 6).
  - cbn. repeat (split || eexists || reflexivity).
  - apply (bool_decide_unpack (NoDup (preorder toc_shape))). vm_compute.
    exact I.
  - cbn. lia.
Defined.
